(** * The Rete engine (src/engine/index.js): a model of its asynchronous scheduler

    The engine runs every node of a dataflow graph once per call of [process].
    All of its methods are [async]: each call allocates a promise, runs up to
    its first [await], and is resumed later by a job of the microtask queue.
    The model keeps that structure: a machine state holds the engine's fields,
    the heap of graph objects, the promise store and the microtask queue; every
    method is a function of the state monad [M] that runs the synchronous part
    of the call, and every [await] of the source is a [frame] that [resume]
    continues. *)

From Stdlib Require Import ZArith String List Lia DecimalString.
From stdpp Require Import base list strings.

Open Scope string_scope.
Set Warnings "-register-all".

(** ** Values *)

(** JavaScript values that travel through the engine. [VErr] is an [Error]
    object raised by the runtime itself (a [TypeError]). *)
Inductive value :=
| VUndef
| VNull
| VBool (b : bool)
| VNum (z : Z)
| VStr (s : string)
| VArr (l : list value)
| VObj (fields : list (string * value))
| VErr (msg : string).

(** [!v] is [negb (truthy v)]. *)
Definition truthy (v : value) : bool :=
  match v with
  | VUndef | VNull => false
  | VBool b => b
  | VNum z => negb (z =? 0)%Z
  | VStr s => negb (s =? "")
  | VArr _ | VObj _ | VErr _ => true
  end.

(** Objects used as maps are association lists in the order [Object.keys]
    enumerates them. *)
Fixpoint assoc {A} (k : string) (l : list (string * A)) : option A :=
  match l with
  | [] => None
  | (k', a) :: l' => if k' =? k then Some a else assoc k l'
  end.

Fixpoint assoc_set {A} (k : string) (a : A) (l : list (string * A)) : list (string * A) :=
  match l with
  | [] => [(k, a)]
  | (k', a') :: l' => if k' =? k then (k, a) :: l' else (k', a') :: assoc_set k a l'
  end.

(** [outputs[c.output]] *)
Definition get_field (o : value) (k : string) : value :=
  match o with
  | VObj fields => default VUndef (assoc k fields)
  | _ => VUndef
  end.

(** The second argument of [process]: [startId: ?number = null]. *)
Inductive StartId :=
| IdUndefined
| IdNull
| IdNum (z : Z)
| IdStr (s : string).

(** [if (id)] *)
Definition id_truthy (id : StartId) : bool :=
  match id with
  | IdUndefined | IdNull => false
  | IdNum z => negb (z =? 0)%Z
  | IdStr s => negb (s =? "")
  end.

(** The property key [this.data.nodes[id]] looks up. *)
Definition id_key (id : StartId) : string :=
  match id with
  | IdUndefined => "undefined"
  | IdNull => "null"
  | IdNum z => NilZero.string_of_int (Z.to_int z)
  | IdStr s => s
  end.

(** ** The graph objects *)

(** References are positions in the store of their kind: [pid] a promise,
    [nloc] a node object, [sloc] an [inputs] or [outputs] object, [mloc] a
    [nodes] object, [dloc] a graph object [{id, nodes}]. *)
Abbreviation pid := nat (only parsing).
Abbreviation nloc := nat (only parsing).
Abbreviation sloc := nat (only parsing).
Abbreviation mloc := nat (only parsing).
Abbreviation dloc := nat (only parsing).

(** A connection of an input socket names the upstream node and one of its
    output keys; of an output socket, the downstream node ([c_output] then
    holds its [input] field, which the engine never reads). [c_node] is the
    key under which [data.nodes] holds the node. *)
Record Connection := { c_node : string; c_output : string }.

(** [node.inputs] and [node.outputs]: socket key to [{connections}]. *)
Definition Sockets := list (string * list Connection).

(** A node object. The last three fields are the ones the engine adds during a
    run: [outputData] is [None] while the property is undefined, [busy] is
    false while it is undefined, and [unlockPool] is [[]] while it is
    undefined ([lock] turns undefined into [[]] before anything reads it). *)
Record Node := {
  node_name : string;
  node_data : value;
  inputs : sloc;
  outputs : sloc;
  outputData : option pid;
  busy : bool;
  unlockPool : list pid
}.

Record Data := { d_nodes : mloc }.

Inductive State := AVAILABLE | PROCESSED | ABORT.

Definition State_eqb (a b : State) : bool :=
  match a, b with
  | AVAILABLE, AVAILABLE | PROCESSED, PROCESSED | ABORT, ABORT => true
  | _, _ => false
  end.

(** ** Promises, continuations and jobs *)

Inductive outcome := Ok (v : value) | Thrown (e : value).

(** One frame per [await] of the source: the variables that are live after it
    and [self], the promise of the suspended call. *)
Inductive frame :=
| K_throwError (message data : value) (self : pid)
| K_extract_conn (c : Connection) (prevNode : option nloc) (self : pid)
| K_extractInputData (node : nloc) (obj : list (string * value)) (key : string)
    (rest : list string) (self : pid)
| K_processWorker_inputs (node : nloc) (self : pid)
| K_processWorker_worker (node : nloc) (written : list (string * value)) (self : pid)
| K_processNode (node : nloc) (self : pid)
| K_forwardProcess (node : nloc) (self : pid)
| K_forward_key (node : nloc) (key : string) (self : pid)
| K_forward_conn_node (c : Connection) (nextNode : option nloc) (self : pid)
| K_forward_conn_forward (c : Connection) (nextNode : option nloc) (self : pid)
| K_validate (self : pid)
| K_processStartNode_error (self : pid)
| K_processStartNode_node (startNode : nloc) (self : pid)
| K_processStartNode_forward (self : pid)
| K_processUnreachable_node (node : nloc) (rest : list string) (self : pid)
| K_processUnreachable_forward (rest : list string) (self : pid)
| K_process_start (self : pid)
| K_process_unreachable (self : pid).

(** What a promise does when it settles. *)
Inductive reaction :=
| RFrame (k : frame)          (* resume an [await] *)
| RAdopt (p : pid)            (* settle [p] the same way: [p] was resolved with this promise *)
| RAll (a : pid) (i : nat).   (* element [i] of the [Promise.all] call [a] *)

Inductive pstate :=
| Pending (reactions : list reaction)
| Fulfilled (v : value)
| Rejected (e : value).

(** The three calls of [Promise.all]: over the connections of an input
    socket, over the output sockets of a node, and over the connections of
    an output socket. *)
Inductive all_site :=
| All_extract (node : nloc) (key : string)
| All_forward (node : nloc)
| All_forward_key (node : nloc) (key : string).

(** The call that made a promise; a label, never read by the engine. *)
Inductive origin :=
| O_abort | O_abort_inner
| O_lock (node : nloc) | O_lock_inner (node : nloc)
| O_processNode (node : option nloc)
| O_processWorker (node : nloc)
| O_extractInputData (node : nloc)
| O_extract_conn (c : Connection)
| O_all (site : all_site) (elems : list pid)
| O_forwardProcess (node : option nloc)
| O_forward_key (node : nloc) (key : string)
| O_forward_conn (c : Connection)
| O_throwError | O_validate | O_processStartNode | O_processUnreachable | O_process.

(** [p_values] is the values array of a [Promise.all] call, [[]] otherwise. *)
Record Promise := {
  p_origin : origin;
  p_state : pstate;
  p_values : list (option value)
}.

Inductive Job :=
| JReact (r : reaction) (o : outcome)
| JThenable (p x : pid).     (* [p] was resolved with the promise [x] *)

(** A call of [component.worker] that has not settled yet: what it will have
    written to the outputs container and what it raises, if anything. *)
Record WorkerCall := {
  w_node : nloc;
  w_self : pid;
  w_written : list (string * value);
  w_raised : option value
}.

(** What the engine does to the outside, in order. The last two are
    instrumentation: entries of [processWorker] and calls of a worker. *)
Inductive Event :=
| Trigger_error (message data : value)
| Trigger_warn (e : value)
| Console_warn
| Enter_processWorker (node : nloc)
| Worker_call (node : nloc) (inputData : value) (args : list value).

(** ** The machine *)

(** The engine's own fields ([this.state], [this.onAbort], [this.data],
    [this.args]), the heap of graph objects, the promise store, the microtask
    queue, the worker calls in flight and the trace of events. [this_onAbort]
    is [None] for the function [() => { }] and [Some p] for the resolver of
    promise [p]. *)
Record Machine := {
  this_state : State;
  this_onAbort : option pid;
  this_data : option dloc;
  this_args : list value;
  datas : list Data;
  maps : list (list (string * nloc));
  nodes : list Node;
  socks : list Sockets;
  promises : list Promise;
  queue : list Job;
  calls : list WorkerCall;
  trace : list Event
}.

Definition set_state (x : State) (s : Machine) : Machine :=
  {| this_state := x; this_onAbort := this_onAbort s; this_data := this_data s;
     this_args := this_args s; datas := datas s; maps := maps s; nodes := nodes s;
     socks := socks s; promises := promises s; queue := queue s; calls := calls s;
     trace := trace s |}.

Definition set_onAbort (x : option pid) (s : Machine) : Machine :=
  {| this_state := this_state s; this_onAbort := x; this_data := this_data s;
     this_args := this_args s; datas := datas s; maps := maps s; nodes := nodes s;
     socks := socks s; promises := promises s; queue := queue s; calls := calls s;
     trace := trace s |}.

Definition set_data (x : option dloc) (s : Machine) : Machine :=
  {| this_state := this_state s; this_onAbort := this_onAbort s; this_data := x;
     this_args := this_args s; datas := datas s; maps := maps s; nodes := nodes s;
     socks := socks s; promises := promises s; queue := queue s; calls := calls s;
     trace := trace s |}.

Definition set_args (x : list value) (s : Machine) : Machine :=
  {| this_state := this_state s; this_onAbort := this_onAbort s; this_data := this_data s;
     this_args := x; datas := datas s; maps := maps s; nodes := nodes s;
     socks := socks s; promises := promises s; queue := queue s; calls := calls s;
     trace := trace s |}.

Definition set_datas (x : list Data) (s : Machine) : Machine :=
  {| this_state := this_state s; this_onAbort := this_onAbort s; this_data := this_data s;
     this_args := this_args s; datas := x; maps := maps s; nodes := nodes s;
     socks := socks s; promises := promises s; queue := queue s; calls := calls s;
     trace := trace s |}.

Definition set_maps (x : list (list (string * nloc))) (s : Machine) : Machine :=
  {| this_state := this_state s; this_onAbort := this_onAbort s; this_data := this_data s;
     this_args := this_args s; datas := datas s; maps := x; nodes := nodes s;
     socks := socks s; promises := promises s; queue := queue s; calls := calls s;
     trace := trace s |}.

Definition set_nodes (x : list Node) (s : Machine) : Machine :=
  {| this_state := this_state s; this_onAbort := this_onAbort s; this_data := this_data s;
     this_args := this_args s; datas := datas s; maps := maps s; nodes := x;
     socks := socks s; promises := promises s; queue := queue s; calls := calls s;
     trace := trace s |}.

Definition set_promises (x : list Promise) (s : Machine) : Machine :=
  {| this_state := this_state s; this_onAbort := this_onAbort s; this_data := this_data s;
     this_args := this_args s; datas := datas s; maps := maps s; nodes := nodes s;
     socks := socks s; promises := x; queue := queue s; calls := calls s;
     trace := trace s |}.

Definition set_queue (x : list Job) (s : Machine) : Machine :=
  {| this_state := this_state s; this_onAbort := this_onAbort s; this_data := this_data s;
     this_args := this_args s; datas := datas s; maps := maps s; nodes := nodes s;
     socks := socks s; promises := promises s; queue := x; calls := calls s;
     trace := trace s |}.

Definition set_calls (x : list WorkerCall) (s : Machine) : Machine :=
  {| this_state := this_state s; this_onAbort := this_onAbort s; this_data := this_data s;
     this_args := this_args s; datas := datas s; maps := maps s; nodes := nodes s;
     socks := socks s; promises := promises s; queue := queue s; calls := x;
     trace := trace s |}.

Definition set_trace (x : list Event) (s : Machine) : Machine :=
  {| this_state := this_state s; this_onAbort := this_onAbort s; this_data := this_data s;
     this_args := this_args s; datas := datas s; maps := maps s; nodes := nodes s;
     socks := socks s; promises := promises s; queue := queue s; calls := calls s;
     trace := x |}.

(** ** The state monad *)

Definition M (A : Type) : Type := Machine -> A * Machine.

Definition ret {A} (a : A) : M A := fun s => (a, s).

Definition bind {A B} (m : M A) (f : A -> M B) : M B :=
  fun s => f (m s).1 (m s).2.

Notation "'do' x <- m ; k" := (bind m (fun x => k))
  (at level 10, x name, m at level 100, k at level 200,
   format "'[v' 'do'  x  <-  m ; '/' k ']'").
Notation "m ;; k" := (bind m (fun _ => k))
  (at level 100, k at level 200, right associativity).

Definition get : M Machine := fun s => (s, s).
Definition modify (f : Machine -> Machine) : M unit := fun s => (tt, f s).

(** [l.map(f)] for an effectful [f]: the calls happen in order. *)
Fixpoint mmap {A B} (f : A -> M B) (l : list A) : M (list B) :=
  match l with
  | [] => ret []
  | a :: l' => do b <- f a; do bs <- mmap f l'; ret (b :: bs)
  end.

(** [l.forEach(f)] *)
Fixpoint mfor {A} (f : A -> M unit) (l : list A) : M unit :=
  match l with
  | [] => ret tt
  | a :: l' => f a;; mfor f l'
  end.

(** ** Promise operations (ECMAScript 2019 and later) *)

Definition new_promise (o : origin) (vals : list (option value)) : M pid :=
  fun s => (length (promises s),
            set_promises (promises s ++ [{| p_origin := o; p_state := Pending []; p_values := vals |}]) s).

Definition enqueue (j : Job) : M unit := modify (fun s => set_queue (queue s ++ [j]) s).

Definition emit (e : Event) : M unit := modify (fun s => set_trace (trace s ++ [e]) s).

Definition with_state (st : pstate) (p : Promise) : Promise :=
  {| p_origin := p_origin p; p_state := st; p_values := p_values p |}.

Definition with_values (vals : list (option value)) (p : Promise) : Promise :=
  {| p_origin := p_origin p; p_state := p_state p; p_values := vals |}.

Definition settled (o : outcome) : pstate :=
  match o with Ok v => Fulfilled v | Thrown e => Rejected e end.

(** Settle a pending promise and queue one job per reaction, in the order the
    reactions were added. A promise that is already settled stays as it is. *)
Definition settle (p : pid) (o : outcome) : M unit := fun s =>
  match promises s !! p with
  | Some pr =>
      match p_state pr with
      | Pending rs =>
          (tt, set_queue (queue s ++ map (fun r => JReact r o) rs)
                 (set_promises (<[p := with_state (settled o) pr]> (promises s)) s))
      | _ => (tt, s)
      end
  | None => (tt, s)
  end.

Definition fulfil (p : pid) (v : value) : M unit := settle p (Ok v).
Definition reject (p : pid) (e : value) : M unit := settle p (Thrown e).

(** [x.then(r)]: a settled promise queues the job at once. *)
Definition then_ (x : pid) (r : reaction) : M unit := fun s =>
  match promises s !! x with
  | Some pr =>
      match p_state pr with
      | Pending rs =>
          (tt, set_promises (<[x := with_state (Pending (rs ++ [r])) pr]> (promises s)) s)
      | Fulfilled v => enqueue (JReact r (Ok v)) s
      | Rejected e => enqueue (JReact r (Thrown e)) s
      end
  | None => (tt, s)
  end.

(** [await x], the rest of the call being [k]. *)
Definition await (x : pid) (k : frame) : M unit := then_ x (RFrame k).

(** Resolving [p] with the promise [x] (an [async] function returning a
    promise): a job first, which then subscribes [p] to [x]. *)
Definition resolve_with (p x : pid) : M unit := enqueue (JThenable p x).

Fixpoint all_some {A} (l : list (option A)) : option (list A) :=
  match l with
  | [] => Some []
  | Some a :: l' => option_map (cons a) (all_some l')
  | None :: _ => None
  end.

Fixpoint all_then (a : pid) (i : nat) (elems : list pid) : M unit :=
  match elems with
  | [] => ret tt
  | e :: elems' => then_ e (RAll a i);; all_then a (S i) elems'
  end.

(** [Promise.all(elems)]: every element is a promise here. The result is
    fulfilled when every slot of the values array is filled; with no element
    that is at once. *)
Definition Promise_all (site : all_site) (elems : list pid) : M pid :=
  do a <- new_promise (O_all site elems) (replicate (length elems) None);
  match elems with
  | [] => fulfil a (VArr [])
  | _ => all_then a 0 elems
  end;;
  ret a.

(** The resolve-element function of slot [i]. *)
Definition all_resolve_element (a : pid) (i : nat) (v : value) : M unit := fun s =>
  match promises s !! a with
  | Some pr =>
      let vals := <[i := Some v]> (p_values pr) in
      let s' := set_promises (<[a := with_values vals pr]> (promises s)) s in
      match all_some vals with
      | Some vs => fulfil a (VArr vs) s'
      | None => (tt, s')
      end
  | None => (tt, s)
  end.

(** ** Heap operations *)

Definition empty_node : Node :=
  {| node_name := ""; node_data := VUndef; inputs := 0; outputs := 0;
     outputData := None; busy := false; unlockPool := [] |}.

Definition read_node (n : nloc) : M Node :=
  fun s => (default empty_node (nodes s !! n), s).

Definition write_node (n : nloc) (f : Node -> Node) : M unit :=
  modify (fun s => set_nodes (alter f n (nodes s)) s).

Definition set_outputData (x : option pid) (nd : Node) : Node :=
  {| node_name := node_name nd; node_data := node_data nd; inputs := inputs nd;
     outputs := outputs nd; outputData := x; busy := busy nd; unlockPool := unlockPool nd |}.

Definition set_busy (x : bool) (nd : Node) : Node :=
  {| node_name := node_name nd; node_data := node_data nd; inputs := inputs nd;
     outputs := outputs nd; outputData := outputData nd; busy := x; unlockPool := unlockPool nd |}.

Definition set_unlockPool (x : list pid) (nd : Node) : Node :=
  {| node_name := node_name nd; node_data := node_data nd; inputs := inputs nd;
     outputs := outputs nd; outputData := outputData nd; busy := busy nd; unlockPool := x |}.

Definition alloc_node (nd : Node) : M nloc :=
  fun s => (length (nodes s), set_nodes (nodes s ++ [nd]) s).

Definition alloc_map (m : list (string * nloc)) : M mloc :=
  fun s => (length (maps s), set_maps (maps s ++ [m]) s).

Definition alloc_data (d : Data) : M dloc :=
  fun s => (length (datas s), set_datas (datas s ++ [d]) s).

(** The entries of [data.nodes] for the graph object [data]. *)
Definition node_entries (s : Machine) (data : dloc) : option (list (string * nloc)) :=
  match datas s !! data with
  | Some d => maps s !! d_nodes d
  | None => None
  end.

(** [this.data.nodes[key]]: [None] when the expression raises a [TypeError]
    ([this.data] is still null), [Some None] when it is undefined. *)
Definition lookup_node (key : string) : M (option (option nloc)) := fun s =>
  (match this_data s with
   | Some d => option_map (assoc key) (node_entries s d)
   | None => None
   end, s).

(** [Object.keys(this.data.nodes)] *)
Definition node_keys : M (option (list string)) := fun s =>
  (match this_data s with
   | Some d => option_map (map fst) (node_entries s d)
   | None => None
   end, s).

(** [Object.keys(node.inputs)] and [node.inputs[key].connections]; [None]
    when the expression raises a [TypeError]. *)
Definition input_keys (node : nloc) : M (option (list string)) :=
  do nd <- read_node node;
  do s <- get;
  ret (option_map (map fst) (socks s !! inputs nd)).

Definition input_connections (node : nloc) (key : string) : M (option (list Connection)) :=
  do nd <- read_node node;
  do s <- get;
  ret (match socks s !! inputs nd with Some io => assoc key io | None => None end).

Definition output_keys (node : nloc) : M (option (list string)) :=
  do nd <- read_node node;
  do s <- get;
  ret (option_map (map fst) (socks s !! outputs nd)).

Definition output_connections (node : nloc) (key : string) : M (option (list Connection)) :=
  do nd <- read_node node;
  do s <- get;
  ret (match socks s !! outputs nd with Some io => assoc key io | None => None end).

Definition TypeError : value := VErr "TypeError".

(** Whether a property holds something other than undefined. *)
Definition defined {A} (o : option A) : bool :=
  match o with Some _ => true | None => false end.

(** ** The engine *)

(** What a registered component's [worker(node, inputData, outputData, ...args)]
    does: the properties it writes to the [outputData] container and the value
    it raises (or rejects with), if any. *)
Definition Worker : Type :=
  Node -> value -> list value -> list (string * value) * option value.

(** The graph as the validator and the cycle detector read it. *)
Definition Graph : Type := list (string * (Node * Sockets * Sockets)).

Definition snapshot (s : Machine) (data : dloc) : Graph :=
  map (fun e : string * nloc =>
         let nd := default empty_node (nodes s !! e.2) in
         (e.1, (nd, default [] (socks s !! inputs nd), default [] (socks s !! outputs nd))))
      (default [] (node_entries s data)).

Section Engine.

(** The collaborators whose code is outside src/engine/index.js:
    [this.components.get(name)], [Validator.validate(this.id, data)] (its
    [success] and [msg]) and [new Recursion(data.nodes).detect()]. *)
Variable components : string -> option Worker.
Variable Validator_validate : Graph -> bool * value.
Variable Recursion_detect : Graph -> option value.

(** [processStart()] *)
Definition processStart : M bool :=
  do s <- get;
  match this_state s with
  | AVAILABLE => modify (set_state PROCESSED);; ret true
  | ABORT => ret false
  | PROCESSED => emit Console_warn;; ret false
  end.

(** [this.onAbort()] *)
Definition call_onAbort : M unit :=
  do s <- get;
  match this_onAbort s with
  | Some r => fulfil r VUndef
  | None => ret tt
  end.

(** [processDone()] *)
Definition processDone : M bool :=
  do s <- get;
  let success := negb (State_eqb (this_state s) ABORT) in
  modify (set_state AVAILABLE);;
  (if success then ret tt else call_onAbort;; modify (set_onAbort None));;
  ret success.

(** [abort()]: the executor of the inner promise runs at once; the call's own
    promise is resolved with the inner one. *)
Definition abort : M pid :=
  do self <- new_promise O_abort [];
  do inner <- new_promise O_abort_inner [];
  do s <- get;
  match this_state s with
  | PROCESSED => modify (set_state ABORT);; modify (set_onAbort (Some inner))
  | ABORT => call_onAbort;; modify (set_onAbort (Some inner))
  | AVAILABLE => fulfil inner VUndef
  end;;
  resolve_with self inner;;
  ret self.

(** [lock(node)] *)
Definition lock (node : nloc) : M pid :=
  do self <- new_promise (O_lock node) [];
  do inner <- new_promise (O_lock_inner node) [];
  do nd <- read_node node;
  (if busy nd && negb (defined (outputData nd))
   then write_node node (set_unlockPool (unlockPool nd ++ [inner]))
   else fulfil inner VUndef);;
  write_node node (set_busy true);;
  resolve_with self inner;;
  ret self.

(** [unlock(node)] *)
Definition unlock (node : nloc) : M unit :=
  do nd <- read_node node;
  mfor (fun a => fulfil a VUndef) (unlockPool nd);;
  write_node node (set_unlockPool []);;
  write_node node (set_busy false).

(** [processNode(node)] up to [await this.lock(node)]. *)
Definition processNode (node : option nloc) : M pid :=
  do self <- new_promise (O_processNode node) [];
  do s <- get;
  match node with
  | Some n =>
      if State_eqb (this_state s) ABORT then fulfil self VNull;; ret self
      else do l <- lock n; await l (K_processNode n self);; ret self
  | None => fulfil self VNull;; ret self
  end.

(** The callback [async (c) => ...] of [extractInputData], up to
    [await this.processNode(prevNode)]. *)
Definition extract_conn (c : Connection) : M pid :=
  do self <- new_promise (O_extract_conn c) [];
  do prevNode <- lookup_node (c_node c);
  match prevNode with
  | Some prevNode =>
      do p <- processNode prevNode; await p (K_extract_conn c prevNode self);; ret self
  | None => reject self TypeError;; ret self
  end.

(** The [for] loop of [extractInputData] from the head of [keys] on, up to the
    next [await Promise.all(...)]; [return obj] when no key is left. Keys are
    distinct, so [obj[key] = connData] appends. *)
Definition extract_next (node : nloc) (obj : list (string * value)) (keys : list string)
    (self : pid) : M unit :=
  match keys with
  | [] => fulfil self (VObj obj)
  | key :: rest =>
      do conns <- input_connections node key;
      match conns with
      | Some conns =>
          do elems <- mmap extract_conn conns;
          do a <- Promise_all (All_extract node key) elems;
          await a (K_extractInputData node obj key rest self)
      | None => reject self TypeError
      end
  end.

(** [extractInputData(node)] *)
Definition extractInputData (node : nloc) : M pid :=
  do self <- new_promise (O_extractInputData node) [];
  do keys <- input_keys node;
  match keys with
  | Some keys => extract_next node [] keys self
  | None => reject self TypeError
  end;;
  ret self.

(** [processWorker(node)] up to [await this.extractInputData(node)]. *)
Definition processWorker (node : nloc) : M pid :=
  do self <- new_promise (O_processWorker node) [];
  emit (Enter_processWorker node);;
  do e <- extractInputData node;
  await e (K_processWorker_inputs node self);;
  ret self.

(** The inner callback [async (c) => ...] of [forwardProcess]. *)
Definition forward_conn (c : Connection) : M pid :=
  do self <- new_promise (O_forward_conn c) [];
  do nextNode <- lookup_node (c_node c);
  match nextNode with
  | Some nextNode =>
      do p <- processNode nextNode; await p (K_forward_conn_node c nextNode self);; ret self
  | None => reject self TypeError;; ret self
  end.

(** The outer callback [async (key) => ...] of [forwardProcess]. *)
Definition forward_key (node : nloc) (key : string) : M pid :=
  do self <- new_promise (O_forward_key node key) [];
  do conns <- output_connections node key;
  match conns with
  | Some conns =>
      do elems <- mmap forward_conn conns;
      do a <- Promise_all (All_forward_key node key) elems;
      await a (K_forward_key node key self);;
      ret self
  | None => reject self TypeError;; ret self
  end.

(** [forwardProcess(node)]: an undefined [node] makes [node.outputs] raise. *)
Definition forwardProcess (node : option nloc) : M pid :=
  do self <- new_promise (O_forwardProcess node) [];
  do s <- get;
  if State_eqb (this_state s) ABORT then fulfil self VNull;; ret self
  else
    match node with
    | Some n =>
        do keys <- output_keys n;
        match keys with
        | Some keys =>
            do elems <- mmap (forward_key n) keys;
            do a <- Promise_all (All_forward n) elems;
            await a (K_forwardProcess n self);;
            ret self
        | None => reject self TypeError;; ret self
        end
    | None => reject self TypeError;; ret self
    end.

(** [throwError(message, data)] up to [await this.abort()]. *)
Definition throwError (message data : value) : M pid :=
  do self <- new_promise O_throwError [];
  do a <- abort;
  await a (K_throwError message data self);;
  ret self.

(** [data.nodes[key] = Object.assign({}, data.nodes[key])] on the new nodes
    object [m]. *)
Definition copy_node (m : mloc) (key : string) : M unit :=
  do s <- get;
  match maps s !! m with
  | Some entries =>
      match assoc key entries with
      | Some n =>
          do n' <- alloc_node (default empty_node (nodes s !! n));
          modify (fun s => set_maps (<[m := assoc_set key n' entries]> (maps s)) s)
      | None => ret tt
      end
  | None => ret tt
  end.

(** [copy(data)]: a new graph object, a new nodes object and a new object per
    node; [Object.assign] copies every property of a node as it is, so the
    copy's [inputs] and [outputs] are the original's. *)
Definition copy (data : dloc) : M dloc :=
  do s <- get;
  do d <- alloc_data (default {| d_nodes := length (maps s) |} (datas s !! data));
  do m <- alloc_map (default [] (node_entries s data));
  modify (fun s => set_datas (<[d := {| d_nodes := m |}]> (datas s)) s);;
  mfor (copy_node m) (map fst (default [] (node_entries s data)));;
  ret d.

(** [validate(data)] *)
Definition validate (data : dloc) : M pid :=
  do self <- new_promise O_validate [];
  do s <- get;
  let checking := Validator_validate (snapshot s data) in
  if negb checking.1 then
    do t <- throwError checking.2 VNull;
    await t (K_validate self);;
    ret self
  else
    match Recursion_detect (snapshot s data) with
    | Some recurrentNode =>
        do t <- throwError (VStr "Recursion detected") recurrentNode;
        await t (K_validate self);;
        ret self
    | None => fulfil self (VBool true);; ret self
    end.

(** [processStartNode(id)] *)
Definition processStartNode (id : StartId) : M pid :=
  do self <- new_promise O_processStartNode [];
  if id_truthy id then
    do startNode <- lookup_node (id_key id);
    match startNode with
    | Some (Some n) =>
        do p <- processNode (Some n);
        await p (K_processStartNode_node n self);;
        ret self
    | Some None =>
        do t <- throwError (VStr "Node with such id not found") VNull;
        await t (K_processStartNode_error self);;
        ret self
    | None => reject self TypeError;; ret self
    end
  else fulfil self VUndef;; ret self.

(** The [for ... in] loop of [processUnreachable] from the head of [keys] on,
    up to the next [await]. *)
Fixpoint unreachable_next (keys : list string) (self : pid) : M unit :=
  match keys with
  | [] => fulfil self VUndef
  | i :: rest =>
      do node <- lookup_node i;
      match node with
      | Some (Some n) =>
          do nd <- read_node n;
          match outputData nd with
          | None =>
              do p <- processNode (Some n);
              await p (K_processUnreachable_node n rest self)
          | Some _ => unreachable_next rest self
          end
      | _ => reject self TypeError
      end
  end.

(** [processUnreachable()] *)
Definition processUnreachable : M pid :=
  do self <- new_promise O_processUnreachable [];
  do keys <- node_keys;
  match keys with
  | Some keys => unreachable_next keys self
  | None => reject self TypeError
  end;;
  ret self.

(** A promise is an object: [!promise] is false. *)
Definition promise_truthy (p : pid) : bool := true.

(** [process(data, startId, ...args)] up to [await this.processStartNode(startId)].
    [this.validate(data)] is called and not awaited: the guard tests the
    promise it returns. *)
Definition process (data : dloc) (startId : StartId) (args : list value) : M pid :=
  do self <- new_promise O_process [];
  do started <- processStart;
  if negb started then fulfil self VUndef;; ret self
  else
    do v <- validate data;
    if negb (promise_truthy v) then fulfil self VUndef;; ret self
    else
      do d <- copy data;
      modify (set_data (Some d));;
      modify (set_args args);;
      do p <- processStartNode (match startId with IdUndefined => IdNull | _ => startId end);
      await p (K_process_start self);;
      ret self.

(** The rest of a call after its [await], given what the awaited promise
    settled to. An exception outside a [try] rejects the call's promise. *)
Definition resume (k : frame) (o : outcome) : M unit :=
  match k, o with
  (* throwError: trigger, processDone, return 'error' *)
  | K_throwError message data self, Ok _ =>
      emit (Trigger_error message data);;
      do _ <- processDone;
      fulfil self (VStr "error")
  (* extractInputData's callback: if (!outputs) this.abort(); else return outputs[c.output] *)
  | K_extract_conn c _ self, Ok outputs =>
      if truthy outputs then fulfil self (get_field outputs (c_output c))
      else do _ <- abort; fulfil self VUndef
  (* extractInputData: obj[key] = connData, then the next key *)
  | K_extractInputData node obj key rest self, Ok connData =>
      extract_next node (obj ++ [(key, connData)]) rest self
  (* processWorker: look the component up and call its worker inside try *)
  | K_processWorker_inputs node self, Ok inputData =>
      do nd <- read_node node;
      do s <- get;
      match components (node_name nd) with
      | Some worker =>
          emit (Worker_call node inputData (this_args s));;
          let r := worker nd inputData (this_args s) in
          modify (fun s => set_calls (calls s ++
            [{| w_node := node; w_self := self; w_written := r.1; w_raised := r.2 |}]) s)
      | None =>
          (* component is undefined: component.worker raises inside try *)
          do _ <- abort;
          emit (Trigger_warn TypeError);;
          fulfil self (VObj [])
      end
  (* processWorker after the worker: return outputData *)
  | K_processWorker_worker node written self, Ok _ =>
      fulfil self (VObj written)
  (* processWorker's catch: this.abort(); this.trigger('warn', e); return outputData *)
  | K_processWorker_worker node written self, Thrown e =>
      do _ <- abort;
      emit (Trigger_warn e);;
      fulfil self (VObj written)
  (* processNode after lock *)
  | K_processNode node self, Ok _ =>
      do s <- get;
      match nodes s !! node with
      | Some nd =>
          match outputData nd with
          | None =>
              do w <- processWorker node;
              write_node node (set_outputData (Some w))
          | Some _ => ret tt
          end;;
          unlock node;;
          do nd <- read_node node;
          match outputData nd with
          | Some w => resolve_with self w
          | None => fulfil self VUndef
          end
      | None => reject self TypeError   (* no object to read [outputData] of *)
      end
  | K_forwardProcess _ self, Ok v => fulfil self v
  | K_forward_key _ _ self, Ok v => fulfil self v
  | K_forward_conn_node c nextNode self, Ok _ =>
      do p <- forwardProcess nextNode;
      await p (K_forward_conn_forward c nextNode self)
  | K_forward_conn_forward _ _ self, Ok _ => fulfil self VUndef
  | K_validate self, Ok v => fulfil self v
  | K_processStartNode_error self, Ok v => fulfil self v
  | K_processStartNode_node startNode self, Ok _ =>
      do p <- forwardProcess (Some startNode);
      await p (K_processStartNode_forward self)
  | K_processStartNode_forward self, Ok _ => fulfil self VUndef
  | K_processUnreachable_node node rest self, Ok _ =>
      do p <- forwardProcess (Some node);
      await p (K_processUnreachable_forward rest self)
  | K_processUnreachable_forward rest self, Ok _ => unreachable_next rest self
  | K_process_start self, Ok _ =>
      do p <- processUnreachable;
      await p (K_process_unreachable self)
  (* return this.processDone() ? 'success' : 'aborted' *)
  | K_process_unreachable self, Ok _ =>
      do success <- processDone;
      fulfil self (VStr (if success then "success" else "aborted"))
  | K_throwError _ _ self, Thrown e
  | K_extract_conn _ _ self, Thrown e
  | K_extractInputData _ _ _ _ self, Thrown e
  | K_processWorker_inputs _ self, Thrown e
  | K_processNode _ self, Thrown e
  | K_forwardProcess _ self, Thrown e
  | K_forward_key _ _ self, Thrown e
  | K_forward_conn_node _ _ self, Thrown e
  | K_forward_conn_forward _ _ self, Thrown e
  | K_validate self, Thrown e
  | K_processStartNode_error self, Thrown e
  | K_processStartNode_node _ self, Thrown e
  | K_processStartNode_forward self, Thrown e
  | K_processUnreachable_node _ _ self, Thrown e
  | K_processUnreachable_forward _ self, Thrown e
  | K_process_start self, Thrown e
  | K_process_unreachable self, Thrown e => reject self e
  end.

(** ** The event loop *)

Definition run_job (j : Job) : M unit :=
  match j with
  | JReact (RFrame k) o => resume k o
  | JReact (RAdopt p) o => settle p o
  | JReact (RAll a i) (Ok v) => all_resolve_element a i v
  | JReact (RAll a _) (Thrown e) => reject a e
  | JThenable p x => then_ x (RAdopt p)
  end.

(** Run the first job of the microtask queue. *)
Definition tick : M unit := fun s =>
  match queue s with
  | [] => (tt, s)
  | j :: q => run_job j (set_queue q s)
  end.

(** The worker call at position [i] settles: its [await] is resumed. *)
Definition settle_call (i : nat) : M unit := fun s =>
  match calls s !! i with
  | Some w =>
      enqueue (JReact (RFrame (K_processWorker_worker (w_node w) (w_written w) (w_self w)))
                 (match w_raised w with Some e => Thrown e | None => Ok VUndef end))
        (set_calls (delete i (calls s)) s)
  | None => (tt, s)
  end.

(** What happens to the engine: a microtask runs, a worker settles, or the
    caller calls [abort()] or [process(...)]. *)
Inductive Input :=
| Tick
| Settle (i : nat)
| Call_abort
| Call_process (data : dloc) (startId : StartId) (args : list value).

Definition step (i : Input) (s : Machine) : Machine :=
  match i with
  | Tick => (tick s).2
  | Settle i => (settle_call i s).2
  | Call_abort => (abort s).2
  | Call_process data startId args => (process data startId args s).2
  end.

Definition exec (l : list Input) (s : Machine) : Machine := fold_left (fun s i => step i s) l s.

(** Workers that settle as soon as they are called (a worker that is not
    [async], or awaits nothing): the call is resumed right after the job that
    made it. *)
Definition auto (s : Machine) : Input :=
  match calls s with
  | [] => Tick
  | _ :: _ => Settle 0
  end.

Fixpoint run (fuel : nat) (s : Machine) : Machine :=
  match fuel with
  | O => s
  | S fuel' => run fuel' (step (auto s) s)
  end.

(** Nothing is left to run. *)
Definition quiescent (s : Machine) : bool :=
  match queue s, calls s with
  | [], [] => true
  | _, _ => false
  end.

End Engine.

(** [new Engine(id)] next to the caller's graph objects. *)
Definition Engine (ds : list Data) (ms : list (list (string * nloc))) (ns : list Node)
    (ss : list Sockets) : Machine :=
  {| this_state := AVAILABLE; this_onAbort := None; this_data := None; this_args := [];
     datas := ds; maps := ms; nodes := ns; socks := ss;
     promises := []; queue := []; calls := []; trace := [] |}.

(** The state of promise [p]. *)
Definition promise_state (s : Machine) (p : pid) : option pstate :=
  option_map p_state (promises s !! p).

(** * Small graphs to run *)

Definition example_node (name : string) (i o : sloc) : Node :=
  {| node_name := name; node_data := VUndef; inputs := i; outputs := o;
     outputData := None; busy := false; unlockPool := [] |}.

(** Three components: [num] writes a number, [add] passes its inputs on, and
    [bad] writes one output and then raises. *)
Definition example_components (name : string) : option Worker :=
  if name =? "num" then Some (fun _ _ _ => ([("num", VNum 1)], None))
  else if name =? "add" then Some (fun _ i _ => ([("sum", i)], None))
  else if name =? "bad" then Some (fun _ _ _ => ([("part", VNum 7)], Some (VStr "boom")))
  else None.

Definition accept (g : Graph) : bool * value := (true, VUndef).
Definition refuse (g : Graph) : bool * value := (false, VStr "invalid").
Definition no_cycle (g : Graph) : option value := None.

(** The graph [{nodes: {1: num}}] with no connections. *)
Definition one_node : Machine :=
  Engine [{| d_nodes := 0 |}] [[("1", 0)]] [example_node "num" 0 0] [[]].

(** The graph [{nodes: {1: num}}] whose node has an output connection to a
    node 9 that does not exist. *)
Definition dangling_output : Machine :=
  Engine [{| d_nodes := 0 |}] [[("1", 0)]] [example_node "num" 0 1]
    [[]; [("num", [{| c_node := "9"; c_output := "a" |}])]].

(** The graph [{nodes: {1: bad}}], whose worker raises after writing [part]. *)
Definition failing_node : Machine :=
  Engine [{| d_nodes := 0 |}] [[("1", 0)]] [example_node "bad" 0 0] [[]].

(** * Reasoning about the machine *)

(** ** Observations a call leaves unchanged *)

(** [quiet obs m]: running [m] does not change what [obs] reads of the state. *)
Definition quiet {X A} (obs : Machine -> X) (m : M A) : Prop :=
  forall s, obs (m s).2 = obs s.

Lemma quiet_ret {X A} (obs : Machine -> X) (a : A) : quiet obs (ret a).
Proof. intros s. reflexivity. Qed.

Lemma quiet_bind {X A B} (obs : Machine -> X) (m : M A) (f : A -> M B) :
  quiet obs m -> (forall a, quiet obs (f a)) -> quiet obs (bind m f).
Proof. intros Hm Hf s. unfold bind. rewrite Hf. apply Hm. Qed.

Lemma bind_eq {A B} (m : M A) (f : A -> M B) s : bind m f s = f (m s).1 (m s).2.
Proof. reflexivity. Qed.

Lemma bind_get {A} (f : Machine -> M A) s : bind get f s = f s s.
Proof. reflexivity. Qed.

Lemma bind_read_node {A} n (f : Node -> M A) s :
  bind (read_node n) f s = f (default empty_node (nodes s !! n)) s.
Proof. reflexivity. Qed.

Lemma quiet_get {X} (obs : Machine -> X) : quiet obs get.
Proof. intros s. reflexivity. Qed.

Lemma quiet_modify {X} (obs : Machine -> X) (f : Machine -> Machine) :
  (forall s, obs (f s) = obs s) -> quiet obs (modify f).
Proof. intros H s. apply H. Qed.

Lemma quiet_mmap {X A B} (obs : Machine -> X) (f : A -> M B) (l : list A) :
  (forall a, quiet obs (f a)) -> quiet obs (mmap f l).
Proof.
  intros Hf. induction l as [|a l IH]; simpl.
  - apply quiet_ret.
  - apply quiet_bind; [apply Hf|]. intros b.
    apply quiet_bind; [apply IH|]. intros bs. apply quiet_ret.
Qed.

Lemma quiet_mfor {X A} (obs : Machine -> X) (f : A -> M unit) (l : list A) :
  (forall a, quiet obs (f a)) -> quiet obs (mfor f l).
Proof.
  intros Hf. induction l as [|a l IH]; simpl.
  - apply quiet_ret.
  - apply quiet_bind; [apply Hf|]. intros _. apply IH.
Qed.

Lemma quiet_pair {X Y A} (f : Machine -> X) (g : Machine -> Y) (m : M A) :
  quiet f m -> quiet g m -> quiet (fun s => (f s, g s)) m.
Proof. intros Hf Hg s. cbv beta. rewrite Hf, Hg. reflexivity. Qed.

Lemma quiet_fun {X Y A} (obs : Machine -> X) (g : X -> Y) (m : M A) :
  quiet obs m -> quiet (fun s => g (obs s)) m.
Proof. intros H s. cbv beta. rewrite H. reflexivity. Qed.

(** Counting with a boolean test. *)
Fixpoint count {A} (f : A -> bool) (l : list A) : nat :=
  match l with
  | [] => 0
  | a :: l' => (if f a then 1 else 0) + count f l'
  end.

Lemma count_app {A} (f : A -> bool) (l1 l2 : list A) :
  count f (l1 ++ l2) = count f l1 + count f l2.
Proof. induction l1 as [|a l1 IH]; simpl; [reflexivity|]. rewrite IH. lia. Qed.

(** The slots: [node.outputData] of every node object. *)
Definition slots (s : Machine) : list (option pid) := map outputData (nodes s).

(** Frames that wait somewhere: as a reaction of a pending promise or in a
    queued job. [in_flight f s] counts those that satisfy [f]. *)
Definition reaction_is (f : frame -> bool) (r : reaction) : bool :=
  match r with RFrame k => f k | _ => false end.

Definition job_is (f : frame -> bool) (j : Job) : bool :=
  match j with JReact r _ => reaction_is f r | JThenable _ _ => false end.

Definition stored (f : frame -> bool) (p : Promise) : nat :=
  match p_state p with Pending rs => count (reaction_is f) rs | _ => 0 end.

Definition in_flight (f : frame -> bool) (s : Machine) : nat :=
  sum_list (map (stored f) (promises s)) + count (job_is f) (queue s).

Lemma sum_list_insert {A} (g : A -> nat) (l : list A) (i : nat) (x y : A) :
  l !! i = Some x ->
  sum_list (map g (<[i := y]> l)) + g x = sum_list (map g l) + g y.
Proof.
  revert i. induction l as [|a l IH]; intros [|i] H; simpl in *; try discriminate.
  - injection H as ->. lia.
  - specialize (IH i H). lia.
Qed.

Lemma map_alter_same {A B} (g : A -> B) (f : A -> A) (i : nat) (l : list A) :
  (forall x, g (f x) = g x) -> map g (alter f i l) = map g l.
Proof.
  intros H. revert i. induction l as [|a l IH]; intros [|i]; simpl; try reflexivity.
  - rewrite H. reflexivity.
  - f_equal. apply IH.
Qed.

Lemma count_map_react (f : frame -> bool) (o : outcome) (rs : list reaction) :
  count (job_is f) (map (fun r => JReact r o) rs) = count (reaction_is f) rs.
Proof. induction rs as [|r rs IH]; simpl; [reflexivity|]. rewrite IH. reflexivity. Qed.

(** *** The primitives *)

Lemma settle_in_flight f p o : quiet (in_flight f) (settle p o).
Proof.
  intros s. unfold settle.
  destruct (promises s !! p) as [pr|] eqn:Hp; [|reflexivity].
  destruct (p_state pr) as [rs| |] eqn:Hs; try reflexivity.
  unfold in_flight. cbn.
  pose proof (sum_list_insert (stored f) _ _ _ (with_state (settled o) pr) Hp) as E.
  rewrite count_app, count_map_react.
  assert (stored f pr = count (reaction_is f) rs) as E1 by (unfold stored; rewrite Hs; reflexivity).
  assert (stored f (with_state (settled o) pr) = 0) as E2 by (destruct o; reflexivity).
  lia.
Qed.

Lemma then_in_flight f x r :
  forall s, in_flight f (then_ x r s).2 =
    in_flight f s + (if reaction_is f r then match promises s !! x with Some _ => 1 | None => 0 end else 0).
Proof.
  intros s. unfold then_.
  destruct (promises s !! x) as [pr|] eqn:Hp; [|cbn; destruct (reaction_is f r); lia].
  destruct (p_state pr) as [rs|v|e] eqn:Hs.
  - unfold in_flight. cbn.
    pose proof (sum_list_insert (stored f) _ _ _ (with_state (Pending (rs ++ [r])) pr) Hp) as E.
    assert (stored f pr = count (reaction_is f) rs) as E1 by (unfold stored; rewrite Hs; reflexivity).
    assert (stored f (with_state (Pending (rs ++ [r])) pr)
            = count (reaction_is f) rs + (if reaction_is f r then 1 else 0)) as E2.
    { unfold stored. cbn. rewrite count_app. simpl. lia. }
    destruct (reaction_is f r); lia.
  - unfold in_flight. cbn. rewrite count_app. simpl. destruct (reaction_is f r); lia.
  - unfold in_flight. cbn. rewrite count_app. simpl. destruct (reaction_is f r); lia.
Qed.

Lemma then_quiet_in_flight f x r : reaction_is f r = false -> quiet (in_flight f) (then_ x r).
Proof. intros H s. rewrite then_in_flight, H. lia. Qed.

Lemma new_promise_in_flight f o vals : quiet (in_flight f) (new_promise o vals).
Proof.
  intros s. unfold in_flight, new_promise. cbn.
  rewrite map_app, sum_list_with_app. simpl. lia.
Qed.

Lemma enqueue_in_flight f j : job_is f j = false -> quiet (in_flight f) (enqueue j).
Proof.
  intros H s. unfold in_flight, enqueue. cbn. rewrite count_app. simpl. rewrite H. lia.
Qed.

Lemma all_resolve_element_in_flight f a i v : quiet (in_flight f) (all_resolve_element a i v).
Proof.
  intros s. unfold all_resolve_element.
  destruct (promises s !! a) as [pr|] eqn:Hp; [|reflexivity].
  set (s' := set_promises _ s).
  assert (in_flight f s' = in_flight f s) as E.
  { unfold in_flight, s'. cbn.
    pose proof (sum_list_insert (stored f) _ _ _ (with_values (<[i:=Some v]> (p_values pr)) pr) Hp) as E.
    assert (stored f (with_values (<[i:=Some v]> (p_values pr)) pr) = stored f pr) by reflexivity.
    lia. }
  destruct (all_some _); [|exact E].
  unfold fulfil. rewrite settle_in_flight. exact E.
Qed.

(** ** Single flight *)

(** The frame that waits for the inputs of node [n] and then calls its worker. *)
Definition waits_inputs (n : nloc) (k : frame) : bool :=
  match k with K_processWorker_inputs m _ => (m =? n)%nat | _ => false end.

Definition is_enter (n : nloc) (e : Event) : bool :=
  match e with Enter_processWorker m => (m =? n)%nat | _ => false end.

Definition is_call (n : nloc) (e : Event) : bool :=
  match e with Worker_call m _ _ => (m =? n)%nat | _ => false end.

(** How often [processWorker(n)] was entered and how often the worker of [n]
    was called. *)
Definition entered (n : nloc) (s : Machine) : nat := count (is_enter n) (trace s).
Definition called (n : nloc) (s : Machine) : nat := count (is_call n) (trace s).

(** [n.outputData]; undefined too when there is no node [n] yet. *)
Definition slot (n : nloc) (s : Machine) : option pid :=
  match nodes s !! n with Some nd => outputData nd | None => None end.

Lemma emit_entered n e : is_enter n e = false -> quiet (entered n) (emit e).
Proof. intros H s. unfold entered, emit. cbn. rewrite count_app. simpl. rewrite H. lia. Qed.

Lemma emit_called n e : is_call n e = false -> quiet (called n) (emit e).
Proof. intros H s. unfold called, emit. cbn. rewrite count_app. simpl. rewrite H. lia. Qed.

Lemma write_node_slot_same n m f :
  (forall nd, outputData (f nd) = outputData nd) -> quiet (slot n) (write_node m f).
Proof.
  intros H s. unfold slot, write_node. cbn.
  destruct (decide (m = n)) as [->|Hne].
  - rewrite list_lookup_alter_eq. destruct (nodes s !! n); simpl; [apply H|reflexivity].
  - rewrite list_lookup_alter_ne by exact Hne. reflexivity.
Qed.

Lemma write_node_slot_other n m f : m <> n -> quiet (slot n) (write_node m f).
Proof.
  intros Hne s. unfold slot, write_node. cbn.
  rewrite list_lookup_alter_ne by exact Hne. reflexivity.
Qed.

Lemma write_node_length n f : quiet (fun s => length (nodes s)) (write_node n f).
Proof. intros s. unfold write_node. cbn. apply length_alter. Qed.

Lemma all_then_quiet {X} (obs : Machine -> X) a i elems :
  (forall e j, quiet obs (then_ e (RAll a j))) -> quiet obs (all_then a i elems).
Proof.
  intros H. revert i. induction elems as [|e elems IH]; intros i; simpl.
  - apply quiet_ret.
  - apply quiet_bind; [apply H|]. intros _. apply IH.
Qed.

(** *** Calls built from the primitives *)

Create HintDb quiet.

Ltac side :=
  cbn; first [ reflexivity | assumption | apply Nat.eqb_neq; congruence | congruence ].

#[export] Hint Resolve settle_in_flight new_promise_in_flight all_resolve_element_in_flight
  write_node_length : quiet.
#[export] Hint Extern 1 (quiet (in_flight _) (then_ _ _)) =>
  apply then_quiet_in_flight; side : quiet.
#[export] Hint Extern 1 (quiet (in_flight _) (enqueue _)) =>
  apply enqueue_in_flight; side : quiet.
#[export] Hint Extern 1 (quiet (slot _) (write_node _ _)) =>
  first [ apply write_node_slot_same; reflexivity | apply write_node_slot_other; side ] : quiet.
#[export] Hint Extern 1 (quiet (entered _) (emit _)) => apply emit_entered; side : quiet.
#[export] Hint Extern 1 (quiet (called _) (emit _)) => apply emit_called; side : quiet.

(** A primitive that leaves the fields alone which the observation reads. *)
Ltac quiet_by_computation :=
  let s := fresh "s" in
  intros s;
  cbv [new_promise settle fulfil reject then_ await resolve_with enqueue emit
       all_resolve_element read_node write_node alloc_node alloc_map alloc_data
       lookup_node node_keys modify get ret bind];
  cbn [fst snd]; repeat case_match; reflexivity.

#[export] Hint Extern 1 (quiet _ (all_then _ _ _)) =>
  apply all_then_quiet; intros; solve [auto with quiet | quiet_by_computation] : quiet.

Ltac quiet_head m :=
  lazymatch m with
  | ?f _ _ _ _ _ => unfold f
  | ?f _ _ _ _ => unfold f
  | ?f _ _ _ => unfold f
  | ?f _ _ => unfold f
  | ?f _ => unfold f
  | ?f => unfold f
  end.

Ltac quiet_step :=
  lazymatch goal with
  | |- quiet _ (ret _) => apply quiet_ret
  | |- quiet _ (bind _ _) => apply quiet_bind; [|intros ?]
  | |- quiet _ get => apply quiet_get
  | |- quiet _ (mmap _ _) => apply quiet_mmap; intros ?
  | |- quiet _ (mfor _ _) => apply quiet_mfor; intros ?
  | |- quiet _ (match ?x with _ => _ end) => destruct x eqn:?
  | |- quiet _ ?m =>
      first [ assumption | solve [auto with quiet] | solve [quiet_by_computation]
            | quiet_head m ]
  end.

Ltac quiet_tac := repeat quiet_step.

(** What the calls that neither enter [processWorker(n)] nor resume it leave
    as it is. *)
Definition flight (n : nloc) (s : Machine) : nat * nat * option pid * nat :=
  (entered n s, called n s, slot n s, in_flight (waits_inputs n) s).

Lemma flight_entered {A} n (m : M A) : quiet (flight n) m -> quiet (entered n) m.
Proof. intros H s. specialize (H s). unfold flight in H. congruence. Qed.

Lemma flight_called {A} n (m : M A) : quiet (flight n) m -> quiet (called n) m.
Proof. intros H s. specialize (H s). unfold flight in H. congruence. Qed.

Lemma flight_slot {A} n (m : M A) : quiet (flight n) m -> quiet (slot n) m.
Proof. intros H s. specialize (H s). unfold flight in H. congruence. Qed.

Lemma flight_in_flight {A} n (m : M A) :
  quiet (flight n) m -> quiet (in_flight (waits_inputs n)) m.
Proof. intros H s. specialize (H s). unfold flight in H. congruence. Qed.

Create HintDb calm.

#[export] Hint Extern 2 (quiet (entered _) _) =>
  apply flight_entered; solve [auto with calm] : quiet.
#[export] Hint Extern 2 (quiet (called _) _) =>
  apply flight_called; solve [auto with calm] : quiet.
#[export] Hint Extern 2 (quiet (slot _) _) =>
  apply flight_slot; solve [auto with calm] : quiet.
#[export] Hint Extern 2 (quiet (in_flight (waits_inputs _)) _) =>
  apply flight_in_flight; solve [auto with calm] : quiet.

Ltac calm := unfold flight; repeat apply quiet_pair; quiet_tac.

Section SingleFlight.

Variable components : string -> option Worker.
Variable Validator_validate : Graph -> bool * value.
Variable Recursion_detect : Graph -> option value.

Lemma abort_calm n : quiet (flight n) abort.
Proof. calm. Qed.

Lemma lock_calm n node : quiet (flight n) (lock node).
Proof. calm. Qed.

Lemma unlock_calm n node : quiet (flight n) (unlock node).
Proof. calm. Qed.

#[local] Hint Resolve abort_calm lock_calm unlock_calm : calm.

Lemma processNode_calm n node : quiet (flight n) (processNode node).
Proof. calm. Qed.

#[local] Hint Resolve processNode_calm : calm.

Lemma extract_next_calm n node obj keys self : quiet (flight n) (extract_next node obj keys self).
Proof. calm. Qed.

#[local] Hint Resolve extract_next_calm : calm.

Lemma extractInputData_calm n node : quiet (flight n) (extractInputData node).
Proof. calm. Qed.

Lemma forwardProcess_calm n node : quiet (flight n) (forwardProcess node).
Proof. calm. Qed.

Lemma throwError_calm n m d : quiet (flight n) (throwError m d).
Proof. calm. Qed.

Lemma processDone_calm n : quiet (flight n) processDone.
Proof. calm. Qed.

Lemma processStart_calm n : quiet (flight n) processStart.
Proof. calm. Qed.

#[local] Hint Resolve extractInputData_calm forwardProcess_calm throwError_calm
  processDone_calm processStart_calm : calm.

Lemma validate_calm n d :
  quiet (flight n) (validate Validator_validate Recursion_detect d).
Proof. calm. Qed.

Lemma processStartNode_calm n id : quiet (flight n) (processStartNode id).
Proof. calm. Qed.

Lemma unreachable_next_calm n keys self : quiet (flight n) (unreachable_next keys self).
Proof.
  induction keys as [|i rest IH]; simpl; [calm|].
  pose proof (flight_entered _ _ IH). pose proof (flight_called _ _ IH).
  pose proof (flight_slot _ _ IH). pose proof (flight_in_flight _ _ IH). calm.
Qed.

#[local] Hint Resolve validate_calm processStartNode_calm unreachable_next_calm : calm.

Lemma processUnreachable_calm n : quiet (flight n) processUnreachable.
Proof. calm. Qed.

#[local] Hint Resolve processUnreachable_calm : calm.

(** The frames whose resumption concerns the slot of node [n]. *)
Definition touches (n : nloc) (k : frame) : bool :=
  match k with
  | K_processNode m _ | K_processWorker_inputs m _ => (m =? n)%nat
  | _ => false
  end.

Lemma processWorker_other n m : m <> n -> quiet (flight n) (processWorker m).
Proof. intros Hne. calm. Qed.

Lemma resume_calm n k o : touches n k = false -> quiet (flight n) (resume components k o).
Proof.
  intros H. destruct k, o; simpl in H; try apply Nat.eqb_neq in H;
    try (pose proof (processWorker_other n _ H)); unfold resume; calm.
Qed.

(** A node's worker is entered at most once, and only while its slot is
    empty; it is called at most as often as it is entered. *)
Definition single (n : nloc) (s : Machine) : Prop :=
  in_flight (waits_inputs n) s + called n s <= entered n s /\
  entered n s <= 1 /\
  (slot n s = None -> entered n s = 0).

(** [safe n m]: [m] keeps [single n] and never empties or replaces the slot
    of [n]. *)
Definition safe {A} (n : nloc) (m : M A) : Prop :=
  forall s, single n s ->
    single n (m s).2 /\ (forall w, slot n s = Some w -> slot n (m s).2 = Some w).

Lemma flight_eq n s s' :
  flight n s' = flight n s ->
  entered n s' = entered n s /\ called n s' = called n s /\
  slot n s' = slot n s /\
  in_flight (waits_inputs n) s' = in_flight (waits_inputs n) s.
Proof. unfold flight. intros H. repeat split; congruence. Qed.

Lemma safe_quiet {A} n (m : M A) : quiet (flight n) m -> safe n m.
Proof.
  intros H s. destruct (flight_eq _ _ _ (H s)) as (H1 & H2 & H3 & H4).
  unfold single. rewrite H1, H2, H3, H4. tauto.
Qed.

Lemma safe_bind {A B} n (m : M A) (f : A -> M B) :
  safe n m -> (forall a, safe n (f a)) -> safe n (bind m f).
Proof.
  intros Hm Hf s Hs. destruct (Hm s Hs) as [H1 H2].
  destruct (Hf (m s).1 (m s).2 H1) as [H3 H4]. unfold bind. split; [exact H3|].
  intros w Hw. apply H4, H2, Hw.
Qed.

Lemma safe_mfor {A} n (f : A -> M unit) l : (forall a, safe n (f a)) -> safe n (mfor f l).
Proof.
  intros Hf. induction l as [|a l IH]; simpl.
  - apply safe_quiet, quiet_ret.
  - apply safe_bind; [apply Hf|]. intros _. apply IH.
Qed.

Lemma then_in_flight_le f x r s : in_flight f (then_ x r s).2 <= in_flight f s + 1.
Proof. rewrite then_in_flight. repeat case_match; lia. Qed.

(** Entering [processWorker(n)]. *)
Lemma processWorker_flight n s :
  entered n (processWorker n s).2 = entered n s + 1 /\
  called n (processWorker n s).2 = called n s /\
  slot n (processWorker n s).2 = slot n s /\
  in_flight (waits_inputs n) (processWorker n s).2 <= in_flight (waits_inputs n) s + 1.
Proof.
  set (s1 := (new_promise (O_processWorker n) [] s).2).
  set (self := (new_promise (O_processWorker n) [] s).1).
  assert (quiet (flight n) (new_promise (O_processWorker n) [])) as Q by calm.
  destruct (flight_eq _ _ _ (Q s)) as (A1 & A2 & A3 & A4). fold s1 in A1, A2, A3, A4.
  set (s2 := (emit (Enter_processWorker n) s1).2).
  assert (entered n s2 = entered n s1 + 1 /\ called n s2 = called n s1 /\
          slot n s2 = slot n s1 /\
          in_flight (waits_inputs n) s2 = in_flight (waits_inputs n) s1) as (B1 & B2 & B3 & B4).
  { unfold s2, entered, called, emit. cbn. rewrite !count_app. simpl.
    rewrite Nat.eqb_refl. repeat split; lia. }
  destruct (flight_eq _ _ _ (extractInputData_calm n n s2)) as (C1 & C2 & C3 & C4).
  set (s3 := (extractInputData n s2).2) in *.
  set (e := (extractInputData n s2).1).
  pose proof (then_in_flight_le (waits_inputs n) e (RFrame (K_processWorker_inputs n self)) s3) as D4.
  set (s4 := (then_ e (RFrame (K_processWorker_inputs n self)) s3).2) in *.
  assert (entered n s4 = entered n s3 /\ called n s4 = called n s3 /\ slot n s4 = slot n s3)
    as (D1 & D2 & D3).
  { unfold s4, then_. repeat case_match; repeat split; reflexivity. }
  change ((processWorker n s).2) with s4.
  repeat split; try congruence; lia.
Qed.

Lemma set_outputData_flight n w s :
  entered n (write_node n (set_outputData (Some w)) s).2 = entered n s /\
  called n (write_node n (set_outputData (Some w)) s).2 = called n s /\
  in_flight (waits_inputs n) (write_node n (set_outputData (Some w)) s).2
    = in_flight (waits_inputs n) s /\
  (is_Some (nodes s !! n) -> slot n (write_node n (set_outputData (Some w)) s).2 = Some w).
Proof.
  repeat split; try reflexivity.
  intros [nd Hnd]. unfold slot. cbn. rewrite list_lookup_alter_eq, Hnd. reflexivity.
Qed.

Lemma safe_get {A} n (f : Machine -> M A) :
  (forall s, single n s ->
     single n (f s s).2 /\ (forall w, slot n s = Some w -> slot n (f s s).2 = Some w)) ->
  safe n (bind get f).
Proof. intros H s Hs. exact (H s Hs). Qed.

Lemma safe_bind_at {A B} n (m : M A) (f : A -> M B) s :
  single n (m s).2 /\ (forall w, slot n s = Some w -> slot n (m s).2 = Some w) ->
  (forall a, safe n (f a)) ->
  single n (bind m f s).2 /\ (forall w, slot n s = Some w -> slot n (bind m f s).2 = Some w).
Proof.
  intros [H1 H2] Hf. destruct (Hf (m s).1 (m s).2 H1) as [H3 H4].
  unfold bind. split; [exact H3|]. intros w Hw. apply H4, H2, Hw.
Qed.

Lemma resume_processNode_safe n self o : safe n (resume components (K_processNode n self) o).
Proof.
  destruct o as [v|e]; [|apply safe_quiet; unfold resume; calm].
  unfold resume. apply safe_get. intros s Hs.
  destruct (nodes s !! n) as [nd|] eqn:Hnd; [|apply safe_quiet; [calm|exact Hs]].
  destruct (outputData nd) as [w0|] eqn:Hod.
  { apply safe_quiet; [calm|exact Hs]. }
  apply safe_bind_at; [|intros _; apply safe_quiet; calm].
  assert (slot n s = None) as Hslot by (unfold slot; rewrite Hnd; exact Hod).
  destruct Hs as (Ha & Hb & Hc). specialize (Hc Hslot).
  pose proof (processWorker_flight n s) as (P1 & P2 & P3 & P4).
  assert (is_Some (nodes (processWorker n s).2 !! n)) as Hin.
  { destruct (nodes (processWorker n s).2 !! n) eqn:E; [eauto|].
    assert (quiet (fun s => length (nodes s)) (processWorker n)) as Q by quiet_tac.
    specialize (Q s). cbv beta in Q.
    apply lookup_ge_None in E. apply lookup_lt_Some in Hnd. lia. }
  pose proof (set_outputData_flight n (processWorker n s).1 (processWorker n s).2)
    as (Q1 & Q2 & Q3 & Q4). specialize (Q4 Hin).
  unfold bind. split.
  - unfold single. rewrite Q1, Q2, Q3, Q4. split; [lia|]. split; [lia|discriminate].
  - intros w' Hw'. congruence.
Qed.

(** Resuming [processWorker(n)] with the inputs: the one place that calls
    the worker. *)
Lemma resume_inputs_flight n self v s :
  let s' := (resume components (K_processWorker_inputs n self) (Ok v) s).2 in
  entered n s' = entered n s /\ slot n s' = slot n s /\
  in_flight (waits_inputs n) s' = in_flight (waits_inputs n) s /\
  called n s' <= called n s + 1.
Proof.
  unfold resume. rewrite bind_read_node, bind_get.
  destruct (components _) as [worker|].
  - unfold bind, emit, modify, entered, called, slot, in_flight. cbn.
    rewrite !count_app. simpl. rewrite Nat.eqb_refl. repeat split; lia.
  - match goal with |- context [(?m s).2] =>
      assert (quiet (flight n) m) as Q by calm;
      destruct (flight_eq _ _ _ (Q s)) as (R1 & R2 & R3 & R4) end.
    cbv zeta. repeat split; try assumption. lia.
Qed.

Lemma run_job_calm n j :
  (forall k o, j = JReact (RFrame k) o -> touches n k = false) ->
  quiet (flight n) (run_job components j).
Proof.
  intros H. destruct j as [[k|p|a i] o|p x]; simpl.
  - apply resume_calm. eapply H. reflexivity.
  - calm.
  - destruct o; calm.
  - calm.
Qed.

Lemma tick_safe n : safe n (tick components).
Proof.
  intros s Hs. unfold tick. destruct (queue s) as [|j q] eqn:Hq; [tauto|].
  set (s1 := set_queue q s).
  assert (entered n s1 = entered n s /\ called n s1 = called n s /\ slot n s1 = slot n s /\
          in_flight (waits_inputs n) s1 + (if job_is (waits_inputs n) j then 1 else 0)
          = in_flight (waits_inputs n) s) as (E1 & E2 & E3 & E4).
  { unfold s1, in_flight. cbn. rewrite Hq. simpl. repeat split; try reflexivity. lia. }
  destruct Hs as (Ha & Hb & Hc).
  assert (single n s1) as Hs1.
  { unfold single. rewrite E1, E2, E3. split; [lia|tauto]. }
  rewrite <- E3.
  destruct j as [[k|p|a i] o|p x];
    try (apply safe_quiet; [apply run_job_calm; intros; discriminate|exact Hs1]).
  destruct (touches n k) eqn:Ht.
  2:{ apply safe_quiet; [|exact Hs1]. apply run_job_calm. intros k' o' [= <- <-]. exact Ht. }
  destruct k; simpl in Ht; try discriminate; apply Nat.eqb_eq in Ht; subst node.
  - (* processWorker resumes with its inputs *)
    change (run_job components (JReact (RFrame (K_processWorker_inputs n self)) o))
      with (resume components (K_processWorker_inputs n self) o).
    destruct o as [v|e].
    + pose proof (resume_inputs_flight n self v s1) as (R1 & R2 & R3 & R4).
      simpl in E4. rewrite Nat.eqb_refl in E4.
      split; [|intros w Hw; congruence].
      unfold single. rewrite R1, R2, R3. split; [lia|]. split; [lia|]. rewrite E1, E3. exact Hc.
    + apply safe_quiet; [unfold resume; calm|exact Hs1].
  - change (run_job components (JReact (RFrame (K_processNode n self)) o))
      with (resume components (K_processNode n self) o).
    apply resume_processNode_safe. exact Hs1.
Qed.

Lemma settle_call_calm n i : quiet (flight n) (settle_call i).
Proof.
  intros s. unfold settle_call. destruct (calls s !! i) as [w|]; [|reflexivity].
  unfold enqueue, modify, flight, in_flight. cbn. rewrite count_app. simpl.
  f_equal. lia.
Qed.

Lemma alloc_node_safe n nd : safe n (alloc_node nd).
Proof.
  intros s (Ha & Hb & Hc).
  assert (forall w, slot n s = Some w -> slot n (alloc_node nd s).2 = Some w) as Hk.
  { intros w. unfold slot, alloc_node. cbn. destruct (nodes s !! n) as [x|] eqn:E; [|discriminate].
    rewrite (lookup_app_l_Some _ _ _ _ E). trivial. }
  split; [|exact Hk]. unfold single. split; [exact Ha|]. split; [exact Hb|].
  intros Hn. apply Hc. destruct (slot n s) as [w|] eqn:E; [|reflexivity].
  rewrite (Hk w eq_refl) in Hn. discriminate.
Qed.

Ltac safe_step :=
  lazymatch goal with
  | |- safe _ (bind _ _) => apply safe_bind; [|intros ?]
  | |- safe _ (mfor _ _) => apply safe_mfor; intros ?
  | |- safe _ (alloc_node _) => apply alloc_node_safe
  | |- safe _ (match ?x with _ => _ end) => destruct x eqn:?
  | |- safe _ _ => first [ solve [apply safe_quiet; calm] | progress unfold copy, copy_node ]
  end.

Lemma copy_safe n d : safe n (copy d).
Proof. repeat safe_step. Qed.

Lemma process_safe n d id a :
  safe n (process Validator_validate Recursion_detect d id a).
Proof. unfold process. pose proof (copy_safe n d). repeat safe_step; assumption. Qed.

Lemma step_safe n i s :
  single n s ->
  single n (step components Validator_validate Recursion_detect i s) /\
  (forall w, slot n s = Some w ->
     slot n (step components Validator_validate Recursion_detect i s) = Some w).
Proof.
  intros Hs. destruct i; cbn [step].
  - exact (tick_safe n s Hs).
  - exact (safe_quiet _ _ (settle_call_calm n i) s Hs).
  - exact (safe_quiet _ _ (abort_calm n) s Hs).
  - exact (process_safe n data startId args s Hs).
Qed.

Lemma exec_safe n l s :
  single n s ->
  single n (exec components Validator_validate Recursion_detect l s) /\
  (forall w, slot n s = Some w ->
     slot n (exec components Validator_validate Recursion_detect l s) = Some w).
Proof.
  revert s. induction l as [|i l IH]; intros s Hs; simpl; [tauto|].
  destruct (step_safe n i s Hs) as [H1 H2]. destruct (IH _ H1) as [H3 H4].
  split; [exact H3|]. intros w Hw. apply H4, H2, Hw.
Qed.

(** Every caller of [processNode(n)] that gets past [lock] leaves the slot of
    [n] installed and returns it; when it finds the slot installed it returns
    that one and enters nothing. *)
Lemma processNode_returns_slot n self v s nd :
  nodes s !! n = Some nd ->
  exists w,
    slot n (resume components (K_processNode n self) (Ok v) s).2 = Some w /\
    last (queue (resume components (K_processNode n self) (Ok v) s).2) = Some (JThenable self w) /\
    (forall w0, outputData nd = Some w0 ->
       w = w0 /\ trace (resume components (K_processNode n self) (Ok v) s).2 = trace s).
Proof.
  intros Hnd. unfold resume. rewrite bind_get, Hnd.
  match goal with |- context [bind ?m ?f s] => set (m1 := m); set (rest := f) end.
  assert (exists w, slot n (m1 s).2 = Some w /\
            (forall w0, outputData nd = Some w0 -> w = w0 /\ trace (m1 s).2 = trace s))
    as (w & Hw & Hw0).
  { unfold m1. destruct (outputData nd) as [w0|] eqn:Hod.
    - exists w0. split; [unfold slot; cbn; rewrite Hnd; exact Hod|]. intros ? [= <-]. tauto.
    - exists (processWorker n s).1. split; [|discriminate].
      pose proof (set_outputData_flight n (processWorker n s).1 (processWorker n s).2)
        as (_ & _ & _ & Q4). apply Q4.
      destruct (nodes (processWorker n s).2 !! n) eqn:E; [eauto|].
      assert (quiet (fun s => length (nodes s)) (processWorker n)) as Q by quiet_tac.
      specialize (Q s). cbv beta in Q.
      apply lookup_ge_None in E. apply lookup_lt_Some in Hnd. lia. }
  exists w. rewrite (bind_eq m1 rest).
  generalize dependent (m1 s).2. generalize (m1 s).1. intros u s1 Hw Hw0. clear m1.
  unfold rest. clear rest.
  assert (quiet (fun s => (slot n s, trace s)) (unlock n)) as Q.
  { repeat apply quiet_pair; quiet_tac. }
  specialize (Q s1). cbv beta in Q.
  rewrite bind_eq. generalize dependent (unlock n s1).2. intros s2 Q.
  assert (slot n s2 = Some w /\ trace s2 = trace s1) as (E1 & E2)
    by (split; congruence).
  rewrite bind_read_node.
  assert (outputData (default empty_node (nodes s2 !! n)) = Some w) as ->.
  { unfold slot in E1. destruct (nodes s2 !! n); [exact E1|discriminate]. }
  unfold resolve_with, enqueue, modify, slot. cbn. split; [exact E1|].
  split; [apply last_snoc|]. intros w0 H0. destruct (Hw0 w0 H0). split; congruence.
Qed.

End SingleFlight.


(** ** The copy keeps the run away from the caller's graph *)

(** [keeps J obs m]: from a state whose observation satisfies [J], running
    [m] leaves the observation as it is. *)
Definition keeps {X A} (J : X -> Prop) (obs : Machine -> X) (m : M A) : Prop :=
  forall s, J (obs s) -> obs (m s).2 = obs s.

Lemma keeps_quiet {X A} (J : X -> Prop) obs (m : M A) : quiet obs m -> keeps J obs m.
Proof. intros H s _. apply H. Qed.

Lemma keeps_ret {X A} (J : X -> Prop) obs (a : A) : keeps J obs (ret a).
Proof. intros s _. reflexivity. Qed.

Lemma keeps_bind {X A B} (J : X -> Prop) obs (m : M A) (f : A -> M B) :
  keeps J obs m -> (forall a, keeps J obs (f a)) -> keeps J obs (bind m f).
Proof.
  intros Hm Hf s Hs. unfold bind. rewrite Hf; [apply Hm, Hs|]. rewrite Hm; assumption.
Qed.

Lemma keeps_mmap {X A B} (J : X -> Prop) obs (f : A -> M B) l :
  (forall a, keeps J obs (f a)) -> keeps J obs (mmap f l).
Proof.
  intros Hf. induction l as [|a l IH]; simpl; [apply keeps_ret|].
  apply keeps_bind; [apply Hf|]. intros b. apply keeps_bind; [apply IH|]. intros bs. apply keeps_ret.
Qed.

Lemma keeps_mfor {X A} (J : X -> Prop) obs (f : A -> M unit) l :
  (forall a, keeps J obs (f a)) -> keeps J obs (mfor f l).
Proof.
  intros Hf. induction l as [|a l IH]; simpl; [apply keeps_ret|].
  apply keeps_bind; [apply Hf|]. intros _. apply IH.
Qed.

Lemma all_then_keeps {X} (J : X -> Prop) obs a i elems :
  (forall e j, keeps J obs (then_ e (RAll a j))) -> keeps J obs (all_then a i elems).
Proof.
  intros H. revert i. induction elems as [|e elems IH]; intros i; simpl; [apply keeps_ret|].
  apply keeps_bind; [apply H|]. intros _. apply IH.
Qed.

(** A call that reads the state and changes nothing: what it returns may be
    assumed to satisfy whatever [J] tells about it. *)
Lemma keeps_read {X A B} (J : X -> Prop) obs (m : M A) (f : A -> M B) (post : A -> Prop) :
  (forall s, (m s).2 = s) ->
  (forall s, J (obs s) -> post (m s).1) ->
  (forall a, post a -> keeps J obs (f a)) ->
  keeps J obs (bind m f).
Proof.
  intros Hm Hpost Hf s Hs. unfold bind. rewrite Hm. apply Hf; [apply Hpost, Hs|exact Hs].
Qed.

(** *** Association lists *)

Lemma assoc_set_same {A} k (a : A) l : assoc k (assoc_set k a l) = Some a.
Proof.
  induction l as [|[k' a'] l IH]; simpl.
  - rewrite String.eqb_refl. reflexivity.
  - destruct (k' =? k) eqn:E; simpl; [rewrite String.eqb_refl; reflexivity|].
    rewrite E. exact IH.
Qed.

Lemma assoc_set_other {A} k k' (a : A) l : k <> k' -> assoc k' (assoc_set k a l) = assoc k' l.
Proof.
  intros Hne. induction l as [|[k1 a1] l IH]; simpl.
  - apply String.eqb_neq in Hne. rewrite Hne. reflexivity.
  - destruct (k1 =? k) eqn:E; simpl.
    + apply String.eqb_eq in E. subst k1. apply String.eqb_neq in Hne. rewrite Hne. reflexivity.
    + destruct (k1 =? k'); [reflexivity|exact IH].
Qed.

Lemma assoc_set_keys {A} k (a a0 : A) l :
  assoc k l = Some a0 -> map fst (assoc_set k a l) = map fst l.
Proof.
  induction l as [|[k1 a1] l IH]; simpl; [discriminate|].
  destruct (k1 =? k) eqn:E; simpl.
  - apply String.eqb_eq in E. subst k1. reflexivity.
  - intros H. rewrite (IH H). reflexivity.
Qed.

Lemma assoc_in_keys {A} k (a : A) l : assoc k l = Some a -> In k (map fst l).
Proof.
  induction l as [|[k1 a1] l IH]; simpl; [discriminate|].
  destruct (k1 =? k) eqn:E; [apply String.eqb_eq in E; auto|]. intros H. right. apply IH, H.
Qed.

(** *** What [copy] builds *)

(** The state of the copy while [copy] walks over the keys: [m] is the new
    nodes object, [E0] the entries of the caller's nodes object, [s0] the
    state when [copy] was called. Every entry either was replaced by a new
    node object that holds what the caller's node held, or is still the
    caller's. *)
Definition copying (s0 : Machine) (E0 : list (string * nat)) (m : nat) (done : list string)
    (s : Machine) : Prop :=
  this_state s = this_state s0 /\ this_onAbort s = this_onAbort s0 /\
  this_data s = this_data s0 /\ this_args s = this_args s0 /\
  socks s = socks s0 /\ promises s = promises s0 /\ queue s = queue s0 /\
  calls s = calls s0 /\ trace s = trace s0 /\
  datas s = (datas s0 ++ [{| d_nodes := m |}])%list /\
  m = length (maps s0) /\
  exists E news,
    maps s = (maps s0 ++ [E])%list /\ nodes s = (nodes s0 ++ news)%list /\
    map fst E = map fst E0 /\
    forall key n',
      assoc key E = Some n' ->
      (length (nodes s0) <= n' /\
       exists n, assoc key E0 = Some n /\
                 forall nd, nodes s0 !! n = Some nd -> nodes s !! n' = Some nd) \/
      (~ In key done /\ assoc key E0 = Some n').

Lemma copy_node_copying s0 E0 m done key s :
  copying s0 E0 m done s -> copying s0 E0 m (key :: done) (copy_node m key s).2.
Proof.
  intros (H1 & H2 & H3 & H4 & H5 & H6 & H7 & H8 & H9 & H10 & Hm & E & news & HE & Hn & Hk & Hall).
  unfold copy_node. rewrite bind_get.
  assert (maps s !! m = Some E) as HmE.
  { rewrite HE, Hm. rewrite lookup_app_r by lia. rewrite Nat.sub_diag. reflexivity. }
  rewrite HmE.
  destruct (assoc key E) as [n1|] eqn:Hkey.
  - cbn. repeat (split; [assumption|]).
    exists (assoc_set key (length (nodes s)) E), (news ++ [default empty_node (nodes s !! n1)])%list.
    split; [|split; [|split]].
    + rewrite HE, Hm. rewrite insert_app_r_alt by lia. rewrite Nat.sub_diag. reflexivity.
    + rewrite Hn. rewrite app_assoc. reflexivity.
    + rewrite (assoc_set_keys _ _ _ _ Hkey). exact Hk.
    + intros key' n' Hn'. destruct (decide (key = key')) as [<-|Hne].
      * rewrite assoc_set_same in Hn'. injection Hn' as <-. left.
        split; [rewrite Hn, length_app; lia|].
        assert (forall nd, nodes s !! n1 = Some nd ->
                  (nodes s ++ [default empty_node (nodes s !! n1)])%list !! length (nodes s) = Some nd)
          as Hnew.
        { intros nd Hnd. rewrite lookup_app_r by lia. rewrite Nat.sub_diag, Hnd. reflexivity. }
        destruct (Hall key n1 Hkey) as [(Hge & n & Hn0 & Hnd)|(_ & Hn0)].
        -- exists n. split; [exact Hn0|]. intros nd Hx. apply Hnew, Hnd, Hx.
        -- exists n1. split; [exact Hn0|]. intros nd Hx. apply Hnew.
           rewrite Hn. apply lookup_app_l_Some. exact Hx.
      * rewrite assoc_set_other in Hn' by exact Hne.
        destruct (Hall key' n' Hn') as [(Hge & n & Hn0 & Hnd)|(Hnot & Hn0)].
        -- left. split; [exact Hge|]. exists n. split; [exact Hn0|].
           intros nd Hx. apply lookup_app_l_Some. apply Hnd, Hx.
        -- right. split; [|exact Hn0]. intros [->|Hin]; [congruence|tauto].
  - cbn. repeat (split; [assumption|]). exists E, news. repeat (split; [assumption|]).
    intros key' n' Hn'. destruct (Hall key' n' Hn') as [H|(Hnot & Hn0)]; [left; exact H|].
    right. split; [|exact Hn0]. intros [->|Hin]; [congruence|tauto].
Qed.

Lemma mfor_copy_node_copying s0 E0 m keys done s :
  copying s0 E0 m done s ->
  copying s0 E0 m (rev keys ++ done) (mfor (copy_node m) keys s).2.
Proof.
  revert done s. induction keys as [|key keys IH]; intros done s H; simpl; [exact H|].
  rewrite bind_eq. rewrite <- app_assoc. simpl. apply IH. apply copy_node_copying, H.
Qed.

(** [copy(data)]: the result is a new graph object whose nodes object has the
    keys of the caller's; under every key it holds a new node object, which
    holds what the caller's node object held (its [inputs] and [outputs]
    references among the rest). The caller's objects stay as they were, and
    nothing but the heap changes. *)
Lemma copy_spec data s :
  let E0 := default [] (node_entries s data) in
  (copy data s).1 = length (datas s) /\
  this_state (copy data s).2 = this_state s /\ this_onAbort (copy data s).2 = this_onAbort s /\
  this_data (copy data s).2 = this_data s /\ this_args (copy data s).2 = this_args s /\
  socks (copy data s).2 = socks s /\ promises (copy data s).2 = promises s /\
  queue (copy data s).2 = queue s /\ calls (copy data s).2 = calls s /\
  trace (copy data s).2 = trace s /\
  datas (copy data s).2 = (datas s ++ [{| d_nodes := length (maps s) |}])%list /\
  exists E news,
    maps (copy data s).2 = (maps s ++ [E])%list /\
    nodes (copy data s).2 = (nodes s ++ news)%list /\
    map fst E = map fst E0 /\
    forall key n',
      assoc key E = Some n' ->
      length (nodes s) <= n' /\
      exists n, assoc key E0 = Some n /\
                forall nd, nodes s !! n = Some nd -> nodes (copy data s).2 !! n' = Some nd.
Proof.
  intros E0.
  eassert (copy data s
           = (length (datas s), (mfor (copy_node (length (maps s))) (map fst E0) _).2)) as Hc
    by reflexivity.
  rewrite Hc. cbn [fst snd].
  match goal with |- context [mfor ?f ?l ?x] => set (s3 := x); set (keys := l) end.
  assert (copying s E0 (length (maps s)) [] s3) as H3.
  { unfold s3, copying, alloc_data, alloc_map, modify. cbn.
    repeat (split; [reflexivity|]). split.
    { rewrite insert_app_r_alt by lia. rewrite Nat.sub_diag. reflexivity. }
    split; [reflexivity|]. exists E0, []. rewrite app_nil_r.
    repeat (split; [reflexivity|]). intros key n' Hn'. right. split; [tauto|exact Hn']. }
  pose proof (mfor_copy_node_copying _ _ _ keys [] _ H3)
    as (H1 & H2 & H3' & H4 & H5 & H6 & H7 & H8 & H9 & H10 & Hm & E & news & HE & Hn & Hk & Hall).
  split; [reflexivity|]. repeat (split; [assumption|]).
  exists E, news. repeat (split; [assumption|]).
  intros key n' Hn'. destruct (Hall key n' Hn') as [H|(Hnot & Hn0)]; [exact H|].
  exfalso. apply Hnot. rewrite app_nil_r. apply -> in_rev.
  unfold keys. rewrite <- Hk. eapply assoc_in_keys, Hn'.
Qed.

(** A resumption of [processNode] over one of the first [bn] node objects. *)
Definition foreign (bn : nat) (k : frame) : bool :=
  match k with K_processNode n _ => (n <? bn)%nat | _ => false end.

Section Isolation.

(** The caller's objects occupy the first positions of the stores: the graph
    objects [ds], the nodes objects [ms], the node objects [ns], and the
    sockets [ss]. *)
Variables (ds : list Data) (ms : list (list (string * nat))) (ns : list Node) (ss : list Sockets).

Abbreviation bn := (length ns).

(** What the run must leave alone, and what decides which node objects it
    reaches. *)
Definition reach (s : Machine) :
    nat * list Node * list Sockets * (option nat * list Data * list (list (string * nat))) :=
  (in_flight (foreign bn) s, take bn (nodes s), socks s, (this_data s, datas s, maps s)).

(** No resumption over a caller's node is in flight, and [this.data.nodes]
    holds copies only. *)
Definition isolated
    (x : nat * list Node * list Sockets * (option nat * list Data * list (list (string * nat)))) : Prop :=
  x.1.1.1 = 0 /\ x.1.1.2 = ns /\ x.1.2 = ss /\
  take (length ds) x.2.1.2 = ds /\ take (length ms) x.2.2 = ms /\
  forall d dt E key n,
    x.2.1.1 = Some d -> x.2.1.2 !! d = Some dt -> x.2.2 !! d_nodes dt = Some E ->
    assoc key E = Some n -> bn <= n.

Abbreviation J := isolated.

Lemma lookup_node_copy key s n :
  J (reach s) -> (lookup_node key s).1 = Some (Some n) -> bn <= n.
Proof.
  intros (_ & _ & _ & _ & _ & H). unfold lookup_node, node_entries. cbn in *.
  destruct (this_data s) as [d|] eqn:Hd; [|discriminate].
  destruct (datas s !! d) as [dt|] eqn:Hdt; [|discriminate].
  destruct (maps s !! d_nodes dt) as [E|] eqn:HE; [|discriminate].
  cbn. intros [= Hn]. eapply H; eauto.
Qed.

Lemma write_node_prefix n f : bn <= n -> quiet (fun s => take bn (nodes s)) (write_node n f).
Proof. intros H s. unfold write_node. cbn. apply take_alter_ge, H. Qed.

Lemma keeps_lookup {B} key (f : option (option nat) -> M B) :
  (forall r, (forall n, r = Some (Some n) -> bn <= n) -> keeps J reach (f r)) ->
  keeps J reach (bind (lookup_node key) f).
Proof.
  intros H. apply (keeps_read J reach _ _ (fun r => forall n, r = Some (Some n) -> bn <= n)).
  - reflexivity.
  - intros s Hs n Hn. eapply lookup_node_copy; eauto.
  - exact H.
Qed.

End Isolation.

Ltac copy_side :=
  cbn;
  first [ reflexivity | assumption | lia
        | apply Nat.ltb_ge; first [ assumption | lia ]
        | match goal with H : forall n, _ = Some (Some n) -> _ |- _ => apply H; reflexivity end
        | apply Nat.ltb_ge;
          match goal with H : forall n, _ = Some (Some n) -> _ |- _ => apply H; reflexivity end ].

#[export] Hint Extern 1 (quiet (in_flight (foreign _)) (then_ _ _)) =>
  apply then_quiet_in_flight; copy_side : quiet.
#[export] Hint Extern 1 (quiet (fun s => take _ (nodes s)) (write_node _ _)) =>
  apply write_node_prefix; copy_side : quiet.

Ltac keeps_leaf := apply keeps_quiet; unfold reach; repeat apply quiet_pair; quiet_tac.

Ltac keeps_step :=
  lazymatch goal with
  | |- keeps _ _ (ret _) => apply keeps_ret
  | |- keeps _ _ (bind (lookup_node _) _) => apply keeps_lookup; intros ? ?
  | |- keeps _ _ (bind _ _) => apply keeps_bind; [|intros ?]
  | |- keeps _ _ (mmap _ _) => apply keeps_mmap; intros ?
  | |- keeps _ _ (mfor _ _) => apply keeps_mfor; intros ?
  | |- keeps _ _ (match ?x with _ => _ end) => destruct x eqn:?
  | |- keeps _ _ ?m =>
      first [ assumption | solve [auto with keeps] | solve [keeps_leaf] | quiet_head m ]
  end.

Ltac keeps_tac := repeat keeps_step.

Create HintDb keeps.

Section IsolationCalls.

Variable components : string -> option Worker.
Variable Validator_validate : Graph -> bool * value.
Variable Recursion_detect : Graph -> option value.
Variables (ds : list Data) (ms : list (list (string * nat))) (ns : list Node) (ss : list Sockets).

Abbreviation J := (isolated ds ms ns ss).
Abbreviation reach := (reach ns).
Abbreviation bn := (length ns).

Lemma processNode_keeps node :
  (forall n, node = Some n -> bn <= n) -> keeps J reach (processNode node).
Proof.
  intros H. unfold processNode. destruct node as [n|]; [specialize (H n eq_refl)|]; keeps_tac.
Qed.

#[local] Hint Extern 1 (keeps _ _ (processNode _)) =>
  apply processNode_keeps; intros ? ?; simplify_eq; copy_side : keeps.

Lemma extract_next_keeps node obj keys self : keeps J reach (extract_next node obj keys self).
Proof. unfold extract_next. keeps_tac. Qed.

Lemma processWorker_keeps node : keeps J reach (processWorker node).
Proof. pose proof extract_next_keeps. keeps_tac. Qed.

Lemma forwardProcess_keeps node : keeps J reach (forwardProcess node).
Proof. keeps_tac. Qed.

Lemma unreachable_next_keeps keys self : keeps J reach (unreachable_next keys self).
Proof. induction keys as [|i rest IH]; simpl; keeps_tac. Qed.

#[local] Hint Resolve extract_next_keeps processWorker_keeps forwardProcess_keeps
  unreachable_next_keeps : keeps.

(** Every resumption other than one over a caller's node. *)
Lemma resume_keeps k o : foreign bn k = false -> keeps J reach (resume components k o).
Proof.
  intros H. destruct k, o; simpl in H; try apply Nat.ltb_ge in H; unfold resume; keeps_tac.
Qed.

Lemma run_job_keeps j : job_is (foreign bn) j = false -> keeps J reach (run_job components j).
Proof.
  intros H. destruct j as [[k|p|a i] o|p x]; simpl in *.
  - apply resume_keeps, H.
  - keeps_tac.
  - destruct o; keeps_tac.
  - keeps_tac.
Qed.

(** [sound m]: [m] keeps the run isolated. *)
Definition sound {A} (m : M A) : Prop := forall s, J (reach s) -> J (reach (m s).2).

Lemma sound_keeps {A} (m : M A) : keeps J reach m -> sound m.
Proof. intros H s Hs. rewrite H; assumption. Qed.

Lemma sound_bind {A B} (m : M A) (f : A -> M B) :
  sound m -> (forall a, sound (f a)) -> sound (bind m f).
Proof. intros Hm Hf s Hs. unfold bind. apply Hf, Hm, Hs. Qed.

Lemma in_flight_same f s s' :
  promises s' = promises s -> queue s' = queue s -> in_flight f s' = in_flight f s.
Proof. unfold in_flight. intros -> ->. reflexivity. Qed.

Lemma take_prefix {A} (l l' x : list A) : take (length x) l = x -> take (length x) (l ++ l') = x.
Proof.
  intros H. rewrite take_app_le; [exact H|].
  rewrite <- H at 1. rewrite length_take. lia.
Qed.

Lemma sound_copy {B} data (f : nat -> M B) :
  (forall d, sound (f d)) ->
  sound (bind (copy data) (fun d => bind (modify (set_data (Some d))) (fun _ => f d))).
Proof.
  intros Hf s (H1 & H2 & H3 & H4 & H5 & H6). rewrite bind_eq, bind_eq. apply Hf.
  cbn [modify fst snd].
  pose proof (copy_spec data s) as C. cbv zeta in C.
  destruct (copy data s) as [d' s']. cbn [fst snd] in *.
  destruct C as (C0 & _ & _ & _ & _ & C5 & C6 & C7 & _ & _ & C10 & E & news & CE & Cn & Ck & Call).
  unfold isolated, reach in *. cbn [fst snd this_data datas maps nodes socks set_data] in *.
  split; [rewrite (in_flight_same _ s (set_data (Some d') s') C6 C7); exact H1|].
  split; [rewrite Cn; apply take_prefix, H2|].
  split; [congruence|].
  split; [rewrite C10; apply take_prefix, H4|].
  split; [rewrite CE; apply take_prefix, H5|].
  intros d dt E' key n [= <-]. rewrite C0, C10, lookup_app_r by lia.
  rewrite Nat.sub_diag. intros [= <-]. cbn. rewrite CE, lookup_app_r by lia.
  rewrite Nat.sub_diag. intros [= <-] Hn. destruct (Call key n Hn) as [Hge _].
  assert (length ns <= length (nodes s)); [|lia].
  rewrite <- H2 at 1. rewrite length_take. lia.
Qed.

Lemma process_sound data startId args :
  sound (process Validator_validate Recursion_detect data startId args).
Proof.
  unfold process.
  repeat lazymatch goal with
    | |- sound (bind (copy _) _) => apply sound_copy; intros ?
    | |- sound (bind (modify _) _) => apply sound_keeps; solve [keeps_tac]
    | |- sound (bind (processStartNode _) _) => apply sound_keeps; solve [keeps_tac]
    | |- sound (bind _ _) => apply sound_bind; [apply sound_keeps; solve [keeps_tac]|intros ?]
    | |- sound (if ?b then _ else _) => destruct b
    | |- sound _ => apply sound_keeps; solve [keeps_tac]
    end.
Qed.

Lemma tick_sound : sound (tick components).
Proof.
  intros s Hs. unfold tick. destruct (queue s) as [|j q] eqn:Hq; [exact Hs|].
  assert (in_flight (foreign bn) s
          = in_flight (foreign bn) (set_queue q s) + (if job_is (foreign bn) j then 1 else 0)) as E.
  { unfold in_flight. cbn. rewrite Hq. simpl. lia. }
  destruct Hs as (H1 & H2). unfold reach in H1. cbn [fst snd] in H1. rewrite E in H1.
  destruct (job_is (foreign bn) j) eqn:Hj; [lia|].
  apply (sound_keeps _ (run_job_keeps j Hj)).
  split; [unfold reach; cbn [fst snd]; lia|exact H2].
Qed.

Lemma settle_call_sound i : sound (settle_call i).
Proof.
  intros s Hs. unfold settle_call. destruct (calls s !! i) as [w|]; [|exact Hs].
  destruct Hs as (H1 & H2). split; [|exact H2].
  unfold reach in *. cbn [fst snd] in *. unfold in_flight in *. cbn. rewrite count_app. simpl. lia.
Qed.

Lemma step_sound i s :
  J (reach s) -> J (reach (step components Validator_validate Recursion_detect i s)).
Proof.
  intros Hs. destruct i; cbn [step].
  - apply tick_sound, Hs.
  - apply settle_call_sound, Hs.
  - apply (sound_keeps abort); [keeps_tac|exact Hs].
  - apply process_sound, Hs.
Qed.

Lemma exec_sound l s :
  J (reach s) -> J (reach (exec components Validator_validate Recursion_detect l s)).
Proof.
  revert s. induction l as [|i l IH]; intros s Hs; simpl; [exact Hs|].
  apply IH, step_sound, Hs.
Qed.

End IsolationCalls.

(** ** Promises made and settled *)

Lemma lookup_new (ps : list Promise) (p : Promise) : (ps ++ [p])%list !! length ps = Some p.
Proof. rewrite lookup_app_r by lia. rewrite Nat.sub_diag. reflexivity. Qed.

Lemma insert_new (ps : list Promise) (p q : Promise) :
  <[length ps := q]> (ps ++ [p])%list = (ps ++ [q])%list.
Proof.
  rewrite insert_app_r_alt by lia. rewrite Nat.sub_diag. reflexivity.
Qed.

(** A promise made and settled in the same call. *)
Definition settled_promise (o : origin) (out : outcome) : Promise :=
  {| p_origin := o; p_state := settled out; p_values := [] |}.

Lemma settle_new o out s :
  settle (new_promise o [] s).1 out (new_promise o [] s).2
  = (tt, set_promises (promises s ++ [settled_promise o out]) s).
Proof.
  unfold settle, new_promise. cbn. rewrite lookup_new. cbn. rewrite insert_new.
  destruct s; cbn. rewrite app_nil_r. reflexivity.
Qed.

(** ** What a worker raises stays in [processWorker] *)

Definition is_TypeError (v : value) : bool :=
  match v with VErr msg => msg =? "TypeError" | _ => false end.

Definition engine_outcome (out : outcome) : bool :=
  match out with Thrown e => is_TypeError e | Ok _ => true end.

(** A rejection, or an exception about to be delivered to an [await] outside
    the [try] of [processWorker], whose value is not the engine's own
    TypeError. *)
Definition foreign_rejection (pr : Promise) : bool :=
  match p_state pr with Rejected e => negb (is_TypeError e) | _ => false end.

Definition foreign_throw (j : Job) : bool :=
  match j with
  | JReact (RFrame (K_processWorker_worker _ _ _)) _ => false
  | JReact _ out => negb (engine_outcome out)
  | JThenable _ _ => false
  end.

Definition escaped (s : Machine) : nat :=
  count foreign_rejection (promises s) + count foreign_throw (queue s).

Definition none (x : nat) : Prop := x = 0.

Lemma count_insert {A} (g : A -> bool) (l : list A) (i : nat) (x y : A) :
  l !! i = Some x ->
  count g (<[i := y]> l) + (if g x then 1 else 0) = count g l + (if g y then 1 else 0).
Proof.
  revert i. induction l as [|a l IH]; intros [|i] H; simpl in *; try discriminate.
  - injection H as ->. lia.
  - specialize (IH i H). lia.
Qed.

Lemma count_zero_lookup {A} (g : A -> bool) (l : list A) i x :
  count g l = 0 -> l !! i = Some x -> g x = false.
Proof.
  revert i. induction l as [|a l IH]; intros [|i] H0 H; simpl in *; try discriminate.
  - injection H as ->. destruct (g x); [discriminate|reflexivity].
  - apply (IH i); [|exact H]. destruct (g a); [discriminate|exact H0].
Qed.

Lemma count_map_throw out rs :
  engine_outcome out = true -> count foreign_throw (map (fun r => JReact r out) rs) = 0.
Proof.
  intros H. induction rs as [|r rs IH]; simpl; [reflexivity|]. rewrite IH.
  destruct r as [[]| |]; simpl; rewrite ?H; reflexivity.
Qed.

Lemma settle_escaped p out : engine_outcome out = true -> quiet escaped (settle p out).
Proof.
  intros H s. unfold settle.
  destruct (promises s !! p) as [pr|] eqn:Hp; [|reflexivity].
  destruct (p_state pr) as [rs| |] eqn:Hs; try reflexivity.
  unfold escaped. cbn. rewrite count_app, count_map_throw by exact H.
  pose proof (count_insert foreign_rejection _ _ _ (with_state (settled out) pr) Hp) as E.
  assert (foreign_rejection pr = false) as E1 by (unfold foreign_rejection; rewrite Hs; reflexivity).
  assert (foreign_rejection (with_state (settled out) pr) = false) as E2.
  { destruct out; unfold foreign_rejection; cbn; [reflexivity|]. cbn in H. rewrite H. reflexivity. }
  rewrite E1, E2 in E. cbn in E. lia.
Qed.

Lemma then_escaped x r : keeps none escaped (then_ x r).
Proof.
  intros s H0. unfold none, escaped in H0. unfold then_.
  destruct (promises s !! x) as [pr|] eqn:Hp; [|reflexivity].
  assert (foreign_rejection pr = false) as Hpr.
  { eapply count_zero_lookup; [|exact Hp]. lia. }
  destruct (p_state pr) as [rs|v|e] eqn:Hs.
  - unfold escaped. cbn.
    pose proof (count_insert foreign_rejection _ _ _ (with_state (Pending (rs ++ [r])) pr) Hp) as E.
    rewrite Hpr in E. change (foreign_rejection (with_state (Pending (rs ++ [r])) pr)) with false in E.
    cbn in E. lia.
  - unfold escaped, enqueue, modify. cbn. rewrite count_app. simpl.
    destruct r as [[]| |]; simpl; lia.
  - unfold escaped, enqueue, modify. cbn. rewrite count_app. simpl.
    unfold foreign_rejection in Hpr. rewrite Hs in Hpr.
    apply negb_false_iff in Hpr.
    destruct r as [[]| |]; simpl; rewrite ?Hpr; simpl; lia.
Qed.

Lemma new_promise_escaped o vals : quiet escaped (new_promise o vals).
Proof. intros s. unfold escaped, new_promise. cbn. rewrite count_app. simpl. lia. Qed.

Lemma enqueue_escaped j : foreign_throw j = false -> quiet escaped (enqueue j).
Proof. intros H s. unfold escaped, enqueue. cbn. rewrite count_app. simpl. rewrite H. lia. Qed.

Lemma all_resolve_element_escaped a i v : quiet escaped (all_resolve_element a i v).
Proof.
  intros s. unfold all_resolve_element.
  destruct (promises s !! a) as [pr|] eqn:Hp; [|reflexivity].
  set (s' := set_promises _ s).
  assert (escaped s' = escaped s) as E.
  { unfold escaped, s'. cbn.
    pose proof (count_insert foreign_rejection _ _ _ (with_values (<[i:=Some v]> (p_values pr)) pr) Hp) as E.
    change (foreign_rejection (with_values (<[i:=Some v]> (p_values pr)) pr))
      with (foreign_rejection pr) in E.
    destruct (foreign_rejection pr); lia. }
  destruct (all_some _); [|exact E].
  unfold fulfil. rewrite settle_escaped by reflexivity. exact E.
Qed.

#[export] Hint Resolve new_promise_escaped all_resolve_element_escaped : quiet.
#[export] Hint Extern 1 (quiet escaped (settle _ _)) =>
  apply settle_escaped; first [ reflexivity | assumption ] : quiet.
#[export] Hint Extern 1 (quiet escaped (enqueue _)) =>
  apply enqueue_escaped; reflexivity : quiet.
#[export] Hint Resolve then_escaped : keeps.

Ltac contained_step :=
  lazymatch goal with
  | |- keeps _ _ (ret _) => apply keeps_ret
  | |- keeps _ _ (bind _ _) => apply keeps_bind; [|intros ?]
  | |- keeps _ _ (mmap _ _) => apply keeps_mmap; intros ?
  | |- keeps _ _ (mfor _ _) => apply keeps_mfor; intros ?
  | |- keeps _ _ (all_then _ _ _) => apply all_then_keeps; intros ? ?
  | |- keeps _ _ (match ?x with _ => _ end) => destruct x eqn:?
  | |- keeps _ _ ?m =>
      first [ assumption | solve [auto with keeps]
            | apply keeps_quiet; solve [quiet_tac] | quiet_head m ]
  end.

Ltac contained := repeat contained_step.

Section Containment.

Variable components : string -> option Worker.
Variable Validator_validate : Graph -> bool * value.
Variable Recursion_detect : Graph -> option value.

Lemma unreachable_next_contained keys self :
  keeps none escaped (unreachable_next keys self).
Proof. induction keys as [|i rest IH]; simpl; contained. Qed.

#[local] Hint Resolve unreachable_next_contained : keeps.

(** Outside the [try] every resumption passes on what it was given, or the
    engine's own TypeError. *)
Lemma resume_contained k out :
  foreign_throw (JReact (RFrame k) out) = false ->
  keeps none escaped (resume components k out).
Proof.
  intros H. destruct k, out as [v|e]; simpl in H; try apply negb_false_iff in H;
    unfold resume; contained.
Qed.

Lemma run_job_contained j :
  foreign_throw j = false -> keeps none escaped (run_job components j).
Proof.
  intros H. destruct j as [[k|p|a i] o|p x]; simpl in *; try apply negb_false_iff in H.
  - apply resume_contained. destruct k; simpl; rewrite ?H; reflexivity.
  - contained.
  - destruct o; simpl in H; contained.
  - contained.
Qed.

Lemma tick_contained s : escaped s = 0 -> escaped (tick components s).2 = 0.
Proof.
  intros H. unfold tick. destruct (queue s) as [|j q] eqn:Hq; [exact H|].
  unfold escaped in H. rewrite Hq in H. simpl in H.
  destruct (foreign_throw j) eqn:Hj; simpl in H; [lia|].
  assert (escaped (set_queue q s) = 0) as H1 by (unfold escaped; cbn; lia).
  rewrite (run_job_contained j Hj); assumption.
Qed.

Lemma settle_call_contained i s : escaped s = 0 -> escaped (settle_call i s).2 = 0.
Proof.
  intros H. unfold settle_call. destruct (calls s !! i) as [w|]; [|exact H].
  unfold escaped in *. cbn. rewrite count_app. simpl. lia.
Qed.

Lemma process_contained data startId args :
  keeps none escaped (process Validator_validate Recursion_detect data startId args).
Proof. unfold process. contained. Qed.

Lemma step_contained i s :
  escaped s = 0 -> escaped (step components Validator_validate Recursion_detect i s) = 0.
Proof.
  intros H. destruct i; cbn [step].
  - apply tick_contained, H.
  - apply settle_call_contained, H.
  - assert (keeps none escaped abort) as K by contained. rewrite K; assumption.
  - rewrite process_contained; assumption.
Qed.

Lemma exec_contained l s :
  escaped s = 0 -> escaped (exec components Validator_validate Recursion_detect l s) = 0.
Proof.
  revert s. induction l as [|i l IH]; intros s H; simpl; [exact H|].
  apply IH, step_contained, H.
Qed.

End Containment.

(** ** What never changes once it is there *)

(** A promise keeps its origin, and its state once it is settled; a node
    object keeps its name and its sockets. *)
Definition promise_grows (pr pr' : Promise) : Prop :=
  p_origin pr' = p_origin pr /\
  (forall v, p_state pr = Fulfilled v -> p_state pr' = Fulfilled v) /\
  (forall e, p_state pr = Rejected e -> p_state pr' = Rejected e).

Definition node_grows (nd nd' : Node) : Prop :=
  node_name nd' = node_name nd /\ inputs nd' = inputs nd /\ outputs nd' = outputs nd.

Definition grows {A} (R : A -> A -> Prop) (l l' : list A) : Prop :=
  forall i x, l !! i = Some x -> exists x', l' !! i = Some x' /\ R x x'.

Definition extends (s s' : Machine) : Prop :=
  grows promise_grows (promises s) (promises s') /\
  grows node_grows (nodes s) (nodes s') /\
  socks s' = socks s /\
  exists t, trace s' = (trace s ++ t)%list.

Lemma promise_grows_refl pr : promise_grows pr pr.
Proof. repeat split; auto. Qed.

Lemma node_grows_refl nd : node_grows nd nd.
Proof. repeat split. Qed.

Lemma grows_refl {A} (R : A -> A -> Prop) l : (forall x, R x x) -> grows R l l.
Proof. intros H i x Hx. eauto. Qed.

Lemma grows_trans {A} (R : A -> A -> Prop) l1 l2 l3 :
  (forall x y z, R x y -> R y z -> R x z) ->
  grows R l1 l2 -> grows R l2 l3 -> grows R l1 l3.
Proof.
  intros HR H12 H23 i x Hx.
  destruct (H12 i x Hx) as (y & Hy & Rxy). destruct (H23 i y Hy) as (z & Hz & Ryz). eauto.
Qed.

Lemma grows_app {A} (R : A -> A -> Prop) l l' : (forall x, R x x) -> grows R l (l ++ l')%list.
Proof.
  intros H i x Hx. exists x. split; [|apply H].
  rewrite lookup_app_l; [exact Hx|]. eapply lookup_lt_Some, Hx.
Qed.

Lemma grows_insert {A} (R : A -> A -> Prop) l i x y :
  (forall x, R x x) -> l !! i = Some x -> R x y -> grows R l (<[i := y]> l).
Proof.
  intros Hrefl Hi Hxy j z Hz. destruct (decide (j = i)) as [->|Hne].
  - exists y. split; [apply list_lookup_insert_eq; eapply lookup_lt_Some, Hi|]. congruence.
  - exists z. split; [rewrite list_lookup_insert_ne by congruence; exact Hz|apply Hrefl].
Qed.

Lemma grows_alter {A} (R : A -> A -> Prop) l i (f : A -> A) :
  (forall x, R x x) -> (forall x, R x (f x)) -> grows R l (alter f i l).
Proof.
  intros Hrefl Hf j z Hz. destruct (decide (j = i)) as [->|Hne].
  - exists (f z). split; [rewrite list_lookup_alter_eq, Hz; reflexivity|apply Hf].
  - exists z. split; [rewrite list_lookup_alter_ne by congruence; exact Hz|apply Hrefl].
Qed.

Lemma extends_refl s : extends s s.
Proof.
  repeat split.
  - apply grows_refl, promise_grows_refl.
  - apply grows_refl, node_grows_refl.
  - exists []. rewrite app_nil_r. reflexivity.
Qed.

Lemma extends_trans s1 s2 s3 : extends s1 s2 -> extends s2 s3 -> extends s1 s3.
Proof.
  intros (P1 & N1 & S1 & t1 & T1) (P2 & N2 & S2 & t2 & T2). repeat split.
  - eapply grows_trans; [|exact P1|exact P2].
    intros x y z (A1 & A2 & A3) (B1 & B2 & B3). repeat split; [congruence|auto|auto].
  - eapply grows_trans; [|exact N1|exact N2].
    intros x y z (A1 & A2 & A3) (B1 & B2 & B3). repeat split; congruence.
  - congruence.
  - exists (t1 ++ t2)%list. rewrite T2, T1, app_assoc. reflexivity.
Qed.

(** [mono m]: whatever [m] does, the state it leaves extends the one it found. *)
Definition mono {A} (m : M A) : Prop := forall s, extends s (m s).2.

Definition core (s : Machine) := (promises s, nodes s, socks s, trace s).

Lemma mono_quiet {A} (m : M A) : quiet core m -> mono m.
Proof.
  intros H s. specialize (H s). unfold core in H.
  assert (promises (m s).2 = promises s /\ nodes (m s).2 = nodes s /\
          socks (m s).2 = socks s /\ trace (m s).2 = trace s) as (E1 & E2 & E3 & E4)
    by (repeat split; congruence).
  unfold extends. rewrite E1, E2, E3, E4. apply extends_refl.
Qed.

Lemma mono_ret {A} (a : A) : mono (ret a).
Proof. intros s. apply extends_refl. Qed.

Lemma mono_bind {A B} (m : M A) (f : A -> M B) :
  mono m -> (forall a, mono (f a)) -> mono (bind m f).
Proof. intros Hm Hf s. unfold bind. eapply extends_trans; [apply Hm|apply Hf]. Qed.

Lemma mono_mmap {A B} (f : A -> M B) l : (forall a, mono (f a)) -> mono (mmap f l).
Proof.
  intros Hf. induction l as [|a l IH]; simpl; [apply mono_ret|].
  apply mono_bind; [apply Hf|]. intros b. apply mono_bind; [apply IH|]. intros bs. apply mono_ret.
Qed.

Lemma mono_mfor {A} (f : A -> M unit) l : (forall a, mono (f a)) -> mono (mfor f l).
Proof.
  intros Hf. induction l as [|a l IH]; simpl; [apply mono_ret|].
  apply mono_bind; [apply Hf|]. intros _. apply IH.
Qed.

Lemma new_promise_mono o vals : mono (new_promise o vals).
Proof.
  intros s. unfold new_promise, extends. cbn. repeat split.
  - apply grows_app, promise_grows_refl.
  - apply grows_refl, node_grows_refl.
  - exists []. rewrite app_nil_r. reflexivity.
Qed.

Lemma emit_mono e : mono (emit e).
Proof.
  intros s. unfold emit, modify, extends. cbn. repeat split.
  - apply grows_refl, promise_grows_refl.
  - apply grows_refl, node_grows_refl.
  - eauto.
Qed.

Lemma promises_mono s f :
  grows promise_grows (promises s) f -> extends s (set_promises f s).
Proof.
  intros H. unfold extends. cbn. repeat split; [exact H|apply grows_refl, node_grows_refl|].
  exists []. rewrite app_nil_r. reflexivity.
Qed.

Lemma settle_mono p out : mono (settle p out).
Proof.
  intros s. unfold settle.
  destruct (promises s !! p) as [pr|] eqn:Hp; [|apply extends_refl].
  destruct (p_state pr) as [rs| |] eqn:Hs; try apply extends_refl.
  cbn [snd]. eapply extends_trans; [apply promises_mono|].
  - eapply grows_insert; [apply promise_grows_refl|exact Hp|].
    instantiate (1 := with_state (settled out) pr). repeat split; cbn; congruence.
  - unfold extends. cbn. repeat split.
    + apply grows_refl, promise_grows_refl.
    + apply grows_refl, node_grows_refl.
    + exists []. rewrite app_nil_r. reflexivity.
Qed.

Lemma enqueue_mono j : mono (enqueue j).
Proof. apply mono_quiet. intros s. reflexivity. Qed.

Lemma then_mono x r : mono (then_ x r).
Proof.
  intros s. unfold then_.
  destruct (promises s !! x) as [pr|] eqn:Hp; [|apply extends_refl].
  destruct (p_state pr) as [rs| |] eqn:Hs; try apply enqueue_mono.
  cbn [snd]. apply promises_mono.
  eapply grows_insert; [apply promise_grows_refl|exact Hp|].
  repeat split; cbn; congruence.
Qed.

Lemma all_then_mono a i elems : mono (all_then a i elems).
Proof.
  revert i. induction elems as [|e elems IH]; intros i; simpl; [apply mono_ret|].
  apply mono_bind; [apply then_mono|]. intros _. apply IH.
Qed.

Lemma all_resolve_element_mono a i v : mono (all_resolve_element a i v).
Proof.
  intros s. unfold all_resolve_element.
  destruct (promises s !! a) as [pr|] eqn:Hp; [|apply extends_refl].
  assert (extends s (set_promises (<[a:=with_values (<[i:=Some v]> (p_values pr)) pr]> (promises s)) s))
    as E.
  { apply promises_mono. eapply grows_insert; [apply promise_grows_refl|exact Hp|].
    repeat split; cbn; auto. }
  destruct (all_some _); [|exact E].
  eapply extends_trans; [exact E|apply settle_mono].
Qed.

Lemma write_node_mono n f : (forall nd, node_grows nd (f nd)) -> mono (write_node n f).
Proof.
  intros Hf s. unfold write_node, modify, extends. cbn. repeat split.
  - apply grows_refl, promise_grows_refl.
  - apply grows_alter; [apply node_grows_refl|exact Hf].
  - exists []. rewrite app_nil_r. reflexivity.
Qed.

Lemma alloc_node_mono nd : mono (alloc_node nd).
Proof.
  intros s. unfold alloc_node, extends. cbn. repeat split.
  - apply grows_refl, promise_grows_refl.
  - apply grows_app, node_grows_refl.
  - exists []. rewrite app_nil_r. reflexivity.
Qed.

Create HintDb mono.

#[export] Hint Resolve new_promise_mono emit_mono settle_mono enqueue_mono then_mono
  all_then_mono all_resolve_element_mono alloc_node_mono : mono.
#[export] Hint Extern 1 (mono (write_node _ _)) =>
  apply write_node_mono; intros ?; repeat split : mono.

Ltac mono_step :=
  lazymatch goal with
  | |- mono (ret _) => apply mono_ret
  | |- mono (bind _ _) => apply mono_bind; [|intros ?]
  | |- mono (mmap _ _) => apply mono_mmap; intros ?
  | |- mono (mfor _ _) => apply mono_mfor; intros ?
  | |- mono (match ?x with _ => _ end) => destruct x eqn:?
  | |- mono ?m =>
      first [ assumption | solve [auto with mono]
            | solve [apply mono_quiet; unfold core; repeat apply quiet_pair; quiet_tac]
            | quiet_head m ]
  end.

Ltac mono_tac := repeat mono_step.

Section Growth.

Variable components : string -> option Worker.
Variable Validator_validate : Graph -> bool * value.
Variable Recursion_detect : Graph -> option value.

Lemma unreachable_next_mono keys self : mono (unreachable_next keys self).
Proof. induction keys as [|i rest IH]; simpl; mono_tac. Qed.

#[local] Hint Resolve unreachable_next_mono : mono.

Lemma resume_mono k out : mono (resume components k out).
Proof. destruct k, out; unfold resume; mono_tac. Qed.

Lemma run_job_mono j : mono (run_job components j).
Proof. destruct j as [[k|p|a i] o|p x]; simpl; [apply resume_mono|mono_tac..]. Qed.

Lemma tick_mono : mono (tick components).
Proof.
  intros s. unfold tick. destruct (queue s) as [|j q] eqn:Hq; [apply extends_refl|].
  eapply extends_trans; [|apply run_job_mono]. apply (extends_refl s).
Qed.

Lemma settle_call_mono i : mono (settle_call i).
Proof.
  intros s. unfold settle_call. destruct (calls s !! i) as [w|]; [|apply extends_refl].
  eapply extends_trans; [|apply enqueue_mono]. apply (extends_refl s).
Qed.

Lemma process_mono data startId args :
  mono (process Validator_validate Recursion_detect data startId args).
Proof. unfold process. mono_tac. Qed.

Lemma step_mono i s : extends s (step components Validator_validate Recursion_detect i s).
Proof.
  destruct i; cbn [step].
  - apply tick_mono.
  - apply settle_call_mono.
  - assert (mono abort) as K by mono_tac. apply K.
  - apply process_mono.
Qed.

Lemma exec_mono l s : extends s (exec components Validator_validate Recursion_detect l s).
Proof.
  revert s. induction l as [|i l IH]; intros s; simpl; [apply extends_refl|].
  eapply extends_trans; [apply step_mono|apply IH].
Qed.

End Growth.

(** ** The catch of [processWorker] *)

Lemma is_TypeError_eq e : is_TypeError e = true -> e = TypeError.
Proof.
  destruct e; try discriminate. simpl. intros H. apply String.eqb_eq in H. subst. reflexivity.
Qed.

Lemma escaped_rejection s p e :
  escaped s = 0 -> promise_state s p = Some (Rejected e) -> e = TypeError.
Proof.
  intros H0 Hp. unfold promise_state in Hp.
  destruct (promises s !! p) as [pr|] eqn:E; [|discriminate]. simpl in Hp.
  assert (foreign_rejection pr = false) as F.
  { eapply count_zero_lookup; [|exact E]. unfold escaped in H0. lia. }
  unfold foreign_rejection in F. injection Hp as Hp. rewrite Hp in F.
  apply is_TypeError_eq. apply negb_false_iff in F. exact F.
Qed.

Lemma extends_fulfilled s s' p v :
  extends s s' -> promise_state s p = Some (Fulfilled v) ->
  promise_state s' p = Some (Fulfilled v).
Proof.
  intros (P & _) Hp. unfold promise_state in *.
  destruct (promises s !! p) as [pr|] eqn:E; [|discriminate]. simpl in Hp.
  destruct (P p pr E) as (pr' & -> & _ & F & _). simpl. f_equal. apply F. congruence.
Qed.

Lemma extends_rejected_back s s' p e :
  extends s s' -> p < length (promises s) ->
  (forall rs, promise_state s p <> Some (Pending rs)) ->
  promise_state s' p = Some (Rejected e) -> promise_state s p = Some (Rejected e).
Proof.
  intros (P & _) Hlt Hnp Hp. unfold promise_state in *.
  destruct (lookup_lt_is_Some_2 _ _ Hlt) as [pr E]. rewrite E in *. simpl in *.
  destruct (P p pr E) as (pr' & E' & _ & F & R). rewrite E' in Hp. simpl in Hp.
  destruct (p_state pr) as [rs|v|e'] eqn:Hs.
  - exfalso. apply (Hnp rs). reflexivity.
  - rewrite (F v eq_refl) in Hp. discriminate.
  - rewrite (R e' eq_refl) in Hp. exact Hp.
Qed.

Lemma settle_promise_state p out s q :
  promise_state (settle p out s).2 q =
  match promise_state s q with
  | Some (Pending rs) => if decide (q = p) then Some (settled out) else Some (Pending rs)
  | x => x
  end.
Proof.
  unfold settle, promise_state.
  destruct (promises s !! p) as [pr|] eqn:Hp.
  - destruct (p_state pr) as [rs|v|e] eqn:Hs; cbn.
    + destruct (decide (q = p)) as [->|Hne].
      * rewrite list_lookup_insert_eq by (eapply lookup_lt_Some, Hp). rewrite Hp. cbn.
        rewrite Hs. reflexivity.
      * rewrite list_lookup_insert_ne by congruence.
        destruct (promises s !! q) as [pq|]; cbn; [|reflexivity]. destruct (p_state pq); reflexivity.
    + destruct (promises s !! q) as [pq|] eqn:Hq; cbn; [|reflexivity].
      destruct (p_state pq) eqn:Hsq; try reflexivity.
      destruct (decide (q = p)) as [->|Hne]; [congruence|reflexivity].
    + destruct (promises s !! q) as [pq|] eqn:Hq; cbn; [|reflexivity].
      destruct (p_state pq) eqn:Hsq; try reflexivity.
      destruct (decide (q = p)) as [->|Hne]; [congruence|reflexivity].
  - cbn. destruct (promises s !! q) as [pq|] eqn:Hq; cbn; [|reflexivity].
    destruct (p_state pq) eqn:Hsq; try reflexivity.
    destruct (decide (q = p)) as [->|Hne]; [congruence|reflexivity].
Qed.

Lemma new_promise_promise_state o vals s q :
  promise_state (new_promise o vals s).2 q =
  if decide (q = length (promises s)) then Some (Pending []) else promise_state s q.
Proof.
  unfold new_promise, promise_state. cbn.
  destruct (decide (q = length (promises s))) as [->|Hne].
  - rewrite lookup_new. reflexivity.
  - destruct (decide (q < length (promises s))).
    + rewrite lookup_app_l by assumption. reflexivity.
    + rewrite !lookup_ge_None_2; [reflexivity|lia|rewrite length_app; simpl; lia].
Qed.

Lemma abort_eq s :
  let self := (new_promise O_abort [] s).1 in
  let s1 := (new_promise O_abort [] s).2 in
  let inner := (new_promise O_abort_inner [] s1).1 in
  let s2 := (new_promise O_abort_inner [] s1).2 in
  let s3 := match this_state s with
            | PROCESSED => set_onAbort (Some inner) (set_state ABORT s2)
            | ABORT => set_onAbort (Some inner) (call_onAbort s2).2
            | AVAILABLE => (fulfil inner VUndef s2).2
            end in
  abort s = (self, set_queue (queue s3 ++ [JThenable self inner]) s3).
Proof.
  cbv zeta. unfold abort. rewrite !bind_eq. cbn [get fst snd].
  change (this_state (new_promise O_abort_inner [] (new_promise O_abort [] s).2).2)
    with (this_state s).
  destruct (this_state s); reflexivity.
Qed.

Lemma call_onAbort_eq s :
  (call_onAbort s).2 = match this_onAbort s with Some r => (fulfil r VUndef s).2 | None => s end.
Proof. unfold call_onAbort. rewrite bind_get. destruct (this_onAbort s); reflexivity. Qed.

Definition engine_fields (s : Machine) :=
  (this_state s, this_onAbort s, trace s, nodes s, calls s).

Lemma settle_engine_fields p out : quiet engine_fields (settle p out).
Proof. intros s. unfold settle, engine_fields. repeat case_match; reflexivity. Qed.

Lemma engine_fields_eq s s' :
  engine_fields s' = engine_fields s ->
  this_state s' = this_state s /\ this_onAbort s' = this_onAbort s /\ trace s' = trace s /\
  nodes s' = nodes s /\ calls s' = calls s.
Proof. unfold engine_fields. intros H. repeat split; congruence. Qed.

Lemma promise_state_set_queue q s p : promise_state (set_queue q s) p = promise_state s p.
Proof. reflexivity. Qed.

Lemma promise_state_set_onAbort r s p : promise_state (set_onAbort r s) p = promise_state s p.
Proof. reflexivity. Qed.

Lemma promise_state_set_state r s p : promise_state (set_state r s) p = promise_state s p.
Proof. reflexivity. Qed.

Lemma promise_state_set_trace r s p : promise_state (set_trace r s) p = promise_state s p.
Proof. reflexivity. Qed.

Ltac fields :=
  cbn [set_queue set_onAbort set_state set_trace this_state this_onAbort trace nodes calls];
  repeat rewrite ?promise_state_set_queue, ?promise_state_set_onAbort, ?promise_state_set_state,
    ?promise_state_set_trace.

Definition abort_requested (st : State) : State :=
  match st with PROCESSED => ABORT | _ => st end.

Section Catch.

Variable components : string -> option Worker.

Lemma abort_catch self s :
  let A := (abort s).2 in
  this_state A = abort_requested (this_state s) /\ trace A = trace s /\
  nodes A = nodes s /\ calls A = calls s /\
  (forall rs, promise_state s self = Some (Pending rs) -> this_onAbort s <> Some self ->
     promise_state A self = Some (Pending rs)) /\
  (forall p e', promise_state A p = Some (Rejected e') ->
     promise_state s p = Some (Rejected e')).
Proof.
  cbv zeta. rewrite abort_eq. cbn [snd].
  set (s1 := (new_promise O_abort [] s).2).
  set (s2 := (new_promise O_abort_inner [] s1).2).
  set (inner := (new_promise O_abort_inner [] s1).1).
  assert (forall p, promise_state s p <> None -> promise_state s2 p = promise_state s p) as Old.
  { intros p Hp. unfold s2, s1. rewrite !new_promise_promise_state.
    assert (p < length (promises s)) as Hlt.
    { unfold promise_state in Hp. destruct (promises s !! p) eqn:E; [|cbn in Hp; congruence].
      eapply lookup_lt_Some, E. }
    cbn. rewrite length_app. repeat case_decide; try lia. reflexivity. }
  assert (forall p e', promise_state s2 p = Some (Rejected e') ->
            promise_state s p = Some (Rejected e')) as Rej.
  { intros p e'. unfold s2, s1. rewrite !new_promise_promise_state.
    repeat case_decide; try discriminate. auto. }
  assert (forall r p e', promise_state (fulfil r VUndef s2).2 p = Some (Rejected e') ->
            promise_state s p = Some (Rejected e')) as Rej'.
  { intros r p e' H. apply Rej. unfold fulfil in H. rewrite settle_promise_state in H.
    destruct (promise_state s2 p) as [[]|]; try case_decide; try discriminate; exact H. }
  assert (forall r rs, promise_state s self = Some (Pending rs) -> r <> self ->
            promise_state (fulfil r VUndef s2).2 self = Some (Pending rs)) as Pen.
  { intros r rs H Hne. unfold fulfil. rewrite settle_promise_state, Old by congruence.
    rewrite H. case_decide; congruence. }
  assert (inner <> self \/ promise_state s self = None) as Fresh.
  { destruct (promise_state s self) eqn:E; [left|right; reflexivity].
    unfold promise_state in E. destruct (promises s !! self) eqn:E'; [|discriminate].
    apply lookup_lt_Some in E'. unfold inner, s1. cbn. rewrite length_app. simpl. lia. }
  destruct (this_state s) eqn:St; cbn [abort_requested].
  - destruct (engine_fields_eq _ _ (settle_engine_fields inner (Ok VUndef) s2))
      as (B1 & B2 & B3 & B4 & B5).
    fold (fulfil inner VUndef s2) in *. fields. rewrite B1, B3, B4, B5.
    repeat split; try assumption.
    + intros rs H _. apply Pen; [exact H|]. destruct Fresh; congruence.
    + apply Rej'.
  - fields. repeat split.
    + intros rs H _. rewrite Old by congruence. exact H.
    + exact Rej.
  - rewrite call_onAbort_eq. change (this_onAbort s2) with (this_onAbort s).
    destruct (this_onAbort s) as [r|] eqn:Hr.
    + destruct (engine_fields_eq _ _ (settle_engine_fields r (Ok VUndef) s2))
        as (B1 & B2 & B3 & B4 & B5).
      fold (fulfil r VUndef s2) in *. fields. rewrite B1, B3, B4, B5.
      repeat split; try assumption.
      * intros rs H Hne. apply Pen; [exact H|congruence].
      * apply Rej'.
    + fields. repeat split; try assumption.
      intros rs H _. rewrite Old by congruence. exact H.
Qed.

(** The [catch] block followed by [return outputData], run from any state. *)
Lemma resume_catch node written self e s :
  let s' := (resume components (K_processWorker_worker node written self) (Thrown e) s).2 in
  this_state s' = abort_requested (this_state s) /\
  trace s' = (trace s ++ [Trigger_warn e])%list /\
  nodes s' = nodes s /\
  calls s' = calls s /\
  (forall rs, promise_state s self = Some (Pending rs) -> this_onAbort s <> Some self ->
     promise_state s' self = Some (Fulfilled (VObj written))) /\
  (forall p e', promise_state s' p = Some (Rejected e') ->
     promise_state s p = Some (Rejected e')).
Proof.
  cbv zeta. unfold resume. rewrite !bind_eq.
  destruct (abort_catch self s) as (A1 & A2 & A3 & A4 & A5 & A6).
  set (A := (abort s).2) in *. cbn [emit modify fst snd].
  set (A' := set_trace _ A).
  destruct (engine_fields_eq _ _ (settle_engine_fields self (Ok (VObj written)) A'))
    as (B1 & B2 & B3 & B4 & B5).
  fold (fulfil self (VObj written) A') in *. rewrite B1, B3, B4, B5. unfold A'. fields.
  repeat split; try assumption.
  - rewrite A2. reflexivity.
  - intros rs H Hne. unfold fulfil. rewrite settle_promise_state, promise_state_set_trace.
    rewrite (A5 rs H Hne).
    case_decide; [reflexivity|congruence].
  - intros p e' H. apply A6. unfold fulfil in H. rewrite settle_promise_state in H.
    unfold A' in H. rewrite promise_state_set_trace in H.
    destruct (promise_state A p) as [[]|]; try case_decide; try discriminate; exact H.
Qed.

End Catch.


(** ** Calls that return at once *)

Section Immediate.

Variable components : string -> option Worker.
Variable Validator_validate : Graph -> bool * value.
Variable Recursion_detect : Graph -> option value.

(** What a rejected call of [process] leaves behind: its own promise,
    fulfilled with undefined, and the console warning when the state was
    PROCESSED. *)
Definition rejected_call (s : Machine) : Machine :=
  set_promises
    (promises s ++ [settled_promise O_process (Ok VUndef)])
    (set_trace (trace s ++ match this_state s with PROCESSED => [Console_warn] | _ => [] end) s).

Lemma process_busy data startId args s :
  this_state s <> AVAILABLE ->
  process Validator_validate Recursion_detect data startId args s
  = (length (promises s), rejected_call s).
Proof.
  intros Hb. unfold process. rewrite bind_eq. cbn [new_promise fst snd].
  set (s1 := set_promises _ s).
  assert (processStart s1
          = (false, set_trace (trace s ++ match this_state s with
                                          | PROCESSED => [Console_warn] | _ => [] end) s1)) as E.
  { unfold processStart. rewrite bind_get. unfold s1. cbn.
    destruct (this_state s); [congruence| |]; cbn.
    - reflexivity.
    - rewrite app_nil_r. destruct s; reflexivity. }
  rewrite bind_eq, E. cbn [fst snd negb]. rewrite bind_eq. unfold ret. cbn [fst snd].
  f_equal. unfold fulfil, settle, s1, rejected_call, settled_promise. cbn.
  rewrite lookup_new. cbn. rewrite insert_new, app_nil_r. reflexivity.
Qed.

(** C8. While a run is in flight (the state is PROCESSED or ABORT) a call of
    [process] returns a promise that is already fulfilled with undefined, and
    changes nothing else: the state, the graph copy, the queue and the worker
    calls in flight are as before, no worker is called, and the only event is
    the console warning in the PROCESSED case. *)
Theorem second_run_is_rejected data startId args s :
  this_state s <> AVAILABLE ->
  let r := process Validator_validate Recursion_detect data startId args s in
  promise_state r.2 r.1 = Some (Fulfilled VUndef) /\
  r.2 = rejected_call s /\
  this_state r.2 = this_state s /\ this_onAbort r.2 = this_onAbort s /\
  this_data r.2 = this_data s /\ this_args r.2 = this_args s /\
  nodes r.2 = nodes s /\ queue r.2 = queue s /\ calls r.2 = calls s /\
  trace r.2 = (trace s ++ match this_state s with PROCESSED => [Console_warn] | _ => [] end)%list /\
  (forall n, called n r.2 = called n s).
Proof.
  intros Hb r. unfold r. rewrite (process_busy data startId args s Hb). cbn [fst snd].
  split; [unfold promise_state, rejected_call; cbn; rewrite lookup_new; reflexivity|].
  repeat split.
  intros n. unfold called, rejected_call. cbn. rewrite count_app.
  destruct (this_state s); simpl; lia.
Qed.

Lemma processStartNode_falsy id s :
  id_truthy id = false ->
  processStartNode id s
  = (length (promises s),
     set_promises (promises s ++ [settled_promise O_processStartNode (Ok VUndef)]) s).
Proof.
  intros H. unfold processStartNode. rewrite bind_eq, H, bind_eq. unfold ret, fulfil.
  rewrite settle_new. reflexivity.
Qed.



End Immediate.

(** A machine with nothing left to run stays as it is. *)
Lemma run_quiescent components Validator_validate Recursion_detect fuel s :
  quiescent s = true ->
  run components Validator_validate Recursion_detect fuel s = s.
Proof.
  intros H. induction fuel as [|fuel IH]; simpl; [reflexivity|].
  unfold quiescent in H. unfold auto.
  destruct (queue s) eqn:Hq; [|discriminate]. destruct (calls s) eqn:Hc; [|discriminate].
  cbn. unfold tick. rewrite Hq. exact IH.
Qed.

(** * Runs of small graphs *)

(** C2, at a failing input: the validator refuses the graph, and the run
    resolves to "aborted", after the error event, not to "error". *)
Lemma validation_failure_resolves_aborted :
  let s := run example_components refuse no_cycle 30
             (step example_components refuse no_cycle (Call_process 0 IdNull []) one_node) in
  quiescent s = true /\
  promise_state s 0 = Some (Fulfilled (VStr "aborted")) /\
  trace s = [Trigger_error (VStr "invalid") VNull].
Proof. vm_compute. repeat split. Qed.

(** C3, at a failing input: the start id 2 names no node of a valid graph.
    [throwError] waits for [abort()], which is only resolved by
    [processDone]; nothing is left to run, the run's promise is still
    pending, no event was emitted, and the state stays ABORT. *)
Lemma missing_start_node_never_settles :
  let s := run example_components accept no_cycle 30
             (step example_components accept no_cycle (Call_process 0 (IdNum 2) []) one_node) in
  quiescent s = true /\
  promise_state s 0 = Some (Pending []) /\
  trace s = [] /\
  this_state s = ABORT /\
  (forall fuel, run example_components accept no_cycle fuel s = s).
Proof.
  cbv zeta.
  split; [vm_compute; reflexivity|]. split; [vm_compute; reflexivity|].
  split; [vm_compute; reflexivity|]. split; [vm_compute; reflexivity|].
  intros fuel. apply run_quiescent. vm_compute. reflexivity.
Qed.

Lemma second_run_is_rejected_witness :
  this_state (set_state PROCESSED one_node) <> AVAILABLE /\
  trace (process accept no_cycle 0 IdNull [] (set_state PROCESSED one_node)).2 = [Console_warn].
Proof.
  split; [discriminate|].
  apply (second_run_is_rejected accept no_cycle 0 IdNull [] (set_state PROCESSED one_node)).
  discriminate.
Defined.



(** The run over [dangling_output] ends with its promise rejected. *)
Lemma dangling_output_rejects_the_run :
  let s := run example_components accept no_cycle 40
             (step example_components accept no_cycle (Call_process 0 (IdNum 1) []) dangling_output) in
  quiescent s = true /\ promise_state s 0 = Some (Rejected TypeError).
Proof. vm_compute. split; reflexivity. Qed.

(** ** Who made a promise, and what it can hold *)

Definition origin_of (s : Machine) (p : pid) : option origin :=
  option_map p_origin (promises s !! p).

Definition fulfilled (s : Machine) (p : pid) (v : value) : Prop :=
  promise_state s p = Some (Fulfilled v).

(** The promise of the call a frame belongs to, and the call that made it. *)
Definition self_of (k : frame) : pid :=
  match k with
  | K_throwError _ _ self | K_extract_conn _ _ self | K_extractInputData _ _ _ _ self
  | K_processWorker_inputs _ self | K_processWorker_worker _ _ self | K_processNode _ self
  | K_forwardProcess _ self | K_forward_key _ _ self | K_forward_conn_node _ _ self
  | K_forward_conn_forward _ _ self | K_validate self | K_processStartNode_error self
  | K_processStartNode_node _ self | K_processStartNode_forward self
  | K_processUnreachable_node _ _ self | K_processUnreachable_forward _ self
  | K_process_start self | K_process_unreachable self => self
  end.

Definition frame_origin (k : frame) : origin :=
  match k with
  | K_throwError _ _ _ => O_throwError
  | K_extract_conn c _ _ => O_extract_conn c
  | K_extractInputData node _ _ _ _ => O_extractInputData node
  | K_processWorker_inputs node _ | K_processWorker_worker node _ _ => O_processWorker node
  | K_processNode node _ => O_processNode (Some node)
  | K_forwardProcess node _ => O_forwardProcess (Some node)
  | K_forward_key node key _ => O_forward_key node key
  | K_forward_conn_node c _ _ | K_forward_conn_forward c _ _ => O_forward_conn c
  | K_validate _ => O_validate
  | K_processStartNode_error _ | K_processStartNode_node _ _
  | K_processStartNode_forward _ => O_processStartNode
  | K_processUnreachable_node _ _ _ | K_processUnreachable_forward _ _ => O_processUnreachable
  | K_process_start _ | K_process_unreachable _ => O_process
  end.

(** The call whose promise a frame awaits. The frame after the worker call
    awaits the worker, which is no promise of the engine. *)
Definition awaits (k : frame) (o : origin) : Prop :=
  match k with
  | K_throwError _ _ _ => o = O_abort
  | K_extract_conn _ prevNode _ => o = O_processNode prevNode
  | K_extractInputData node _ key _ _ => exists elems, o = O_all (All_extract node key) elems
  | K_processWorker_inputs node _ => o = O_extractInputData node
  | K_processWorker_worker _ _ _ => False
  | K_processNode node _ => o = O_lock node
  | K_forwardProcess node _ => exists elems, o = O_all (All_forward node) elems
  | K_forward_key node key _ => exists elems, o = O_all (All_forward_key node key) elems
  | K_forward_conn_node _ nextNode _ => o = O_processNode nextNode
  | K_forward_conn_forward _ nextNode _ => o = O_forwardProcess nextNode
  | K_validate _ | K_processStartNode_error _ => o = O_throwError
  | K_processStartNode_node n _ | K_processUnreachable_node n _ _ => o = O_processNode (Some n)
  | K_processStartNode_forward _ | K_processUnreachable_forward _ _ =>
      exists n, o = O_forwardProcess (Some n)
  | K_process_start _ => o = O_processStartNode
  | K_process_unreachable _ => o = O_processUnreachable
  end.

(** A promise resolved with another one: [abort] and [lock] return the promise
    of their executor, [processNode] returns [node.outputData]. *)
Definition adopts (o ox : origin) : Prop :=
  match o, ox with
  | O_abort, O_abort_inner => True
  | O_lock _, O_lock_inner _ => True
  | O_processNode _, O_processWorker _ => True
  | _, _ => False
  end.

(** The input sockets of a node object. *)
Definition sockets_of (s : Machine) (node : nloc) : option Sockets :=
  match nodes s !! node with
  | Some nd => socks s !! inputs nd
  | None => None
  end.

(** The promises of the callbacks of [extractInputData], one per connection. *)
Definition callbacks (s : Machine) (elems : list pid) (conns : list Connection) : Prop :=
  Forall2 (fun e c => origin_of s e = Some (O_extract_conn c)) elems conns.

(** An entry of [inputData]: the result of the [Promise.all] call [a] made
    for its socket, over one callback per declared connection in the declared
    order, each value being what the callback at the same position returned. *)
Definition entry_ok (s : Machine) (node : nloc) (io : Sockets) (kv : string * value) : Prop :=
  exists conns vs a elems,
    assoc kv.1 io = Some conns /\ kv.2 = VArr vs /\
    origin_of s a = Some (O_all (All_extract node kv.1) elems) /\ fulfilled s a (VArr vs) /\
    callbacks s elems conns /\ Forall2 (fulfilled s) elems vs.

(** The object [extractInputData(node)] has built when [rest] is still to do,
    and the one it returns. *)
Definition partial_inputs (s : Machine) (node : nloc) (obj : list (string * value))
    (rest : list string) : Prop :=
  exists io, sockets_of s node = Some io /\ map fst io = (map fst obj ++ rest)%list /\
             Forall (entry_ok s node io) obj.

Definition good_inputs (s : Machine) (node : nloc) (v : value) : Prop :=
  exists obj, v = VObj obj /\ partial_inputs s node obj [].

Definition value_ok (s : Machine) (o : origin) (v : value) : Prop :=
  match o with
  | O_all _ elems => exists vs, v = VArr vs /\ Forall2 (fulfilled s) elems vs
  | O_extractInputData node => good_inputs s node v
  | O_processWorker _ => exists w, v = VObj w
  | O_processNode _ => v = VNull \/ v = VUndef \/ exists w, v = VObj w
  | O_process => v = VUndef \/ v = VStr "success" \/ v = VStr "aborted"
  | _ => True
  end.

Definition outcome_ok (s : Machine) (o : origin) (out : outcome) : Prop :=
  match out with Ok v => value_ok s o v | Thrown _ => True end.

(** The elements of a [Promise.all] call over the connections of an input
    socket are the callbacks' promises, one per connection, in order. *)
Definition site_ok (s : Machine) (site : all_site) (elems : list pid) : Prop :=
  match site with
  | All_extract node key =>
      exists io conns, sockets_of s node = Some io /\ assoc key io = Some conns /\
        callbacks s elems conns
  | _ => True
  end.

(** The values array of a [Promise.all] call: slot [i] is for element [i]. *)
Definition values_ok (s : Machine) (o : origin) (vals : list (option value)) : Prop :=
  match o with
  | O_all site elems =>
      length vals = length elems /\
      (forall i v, vals !! i = Some (Some v) -> exists e, elems !! i = Some e /\ fulfilled s e v) /\
      site_ok s site elems
  | _ => True
  end.

Definition frame_ok (s : Machine) (k : frame) : Prop :=
  origin_of s (self_of k) = Some (frame_origin k) /\
  match k with
  | K_extractInputData node obj key rest _ => partial_inputs s node obj (key :: rest)
  | _ => True
  end.

(** A reaction [r] of promise [q], which [o] made. *)
Definition reaction_ok (s : Machine) (q : pid) (o : origin) (r : reaction) : Prop :=
  match r with
  | RFrame k => frame_ok s k /\ awaits k o
  | RAdopt p => exists op, origin_of s p = Some op /\ adopts op o
  | RAll a i => exists site elems, origin_of s a = Some (O_all site elems) /\ elems !! i = Some q
  end.

(** A job is a reaction of a promise that has settled, the resumption of a
    worker call, or the adoption of a promise. *)
Definition job_ok (s : Machine) (j : Job) : Prop :=
  match j with
  | JReact (RFrame (K_processWorker_worker node _ self)) _ =>
      origin_of s self = Some (O_processWorker node)
  | JReact r out =>
      exists q pr, promises s !! q = Some pr /\ p_state pr = settled out /\
                   reaction_ok s q (p_origin pr) r
  | JThenable p x =>
      exists o ox, origin_of s p = Some o /\ origin_of s x = Some ox /\ adopts o ox
  end.

Definition call_ok (s : Machine) (w : WorkerCall) : Prop :=
  origin_of s (w_self w) = Some (O_processWorker (w_node w)).

Definition event_ok (s : Machine) (e : Event) : Prop :=
  match e with Worker_call node v _ => good_inputs s node v | _ => True end.

Definition promise_ok (s : Machine) (q : pid) (pr : Promise) : Prop :=
  (forall v, p_state pr = Fulfilled v -> value_ok s (p_origin pr) v) /\
  values_ok s (p_origin pr) (p_values pr) /\
  (forall rs, p_state pr = Pending rs -> Forall (reaction_ok s q (p_origin pr)) rs).

Definition resolver (s : Machine) (p : pid) : Prop :=
  exists m, origin_of s p = Some (O_lock_inner m).

Definition result (s : Machine) (w : pid) : Prop :=
  exists m, origin_of s w = Some (O_processWorker m).

Definition node_ok (s : Machine) (nd : Node) : Prop :=
  Forall (resolver s) (unlockPool nd) /\ (forall w, outputData nd = Some w -> result s w).

(** The invariant: every promise holds what its origin says, every reaction
    and job belongs to the call its frame names, and the inputs handed to a
    worker are those of its node. *)
Definition Typed (s : Machine) : Prop :=
  (forall q pr, promises s !! q = Some pr -> promise_ok s q pr) /\
  Forall (job_ok s) (queue s) /\
  Forall (call_ok s) (calls s) /\
  Forall (event_ok s) (trace s) /\
  (forall r, this_onAbort s = Some r -> origin_of s r = Some O_abort_inner) /\
  (forall n nd, nodes s !! n = Some nd -> node_ok s nd).

(** *** What was true stays true *)

Create HintDb stable.

Lemma origin_of_extends s s' p o :
  extends s s' -> origin_of s p = Some o -> origin_of s' p = Some o.
Proof.
  intros (P & _) H. unfold origin_of in *.
  destruct (promises s !! p) as [pr|] eqn:E; [|discriminate].
  destruct (P p pr E) as (pr' & -> & O & _). simpl in *. congruence.
Qed.

Lemma fulfilled_extends s s' p v : extends s s' -> fulfilled s p v -> fulfilled s' p v.
Proof. intros E H. eapply extends_fulfilled; eassumption. Qed.

Lemma sockets_of_extends s s' node io :
  extends s s' -> sockets_of s node = Some io -> sockets_of s' node = Some io.
Proof.
  intros (_ & N & S & _) H. unfold sockets_of in *.
  destruct (nodes s !! node) as [nd|] eqn:E; [|discriminate].
  destruct (N node nd E) as (nd' & -> & _ & I & _). rewrite S, I. exact H.
Qed.

Lemma callbacks_extends s s' elems conns :
  extends s s' -> callbacks s elems conns -> callbacks s' elems conns.
Proof. intros E H. eapply Forall2_impl; [exact H|]. intros e c. apply origin_of_extends, E. Qed.

Lemma all_fulfilled_extends s s' (elems : list pid) vs :
  extends s s' -> Forall2 (fulfilled s) elems vs -> Forall2 (fulfilled s') elems vs.
Proof. intros E H. eapply Forall2_impl; [exact H|]. intros e v. apply fulfilled_extends, E. Qed.

Lemma entry_ok_extends s s' node io kv :
  extends s s' -> entry_ok s node io kv -> entry_ok s' node io kv.
Proof.
  intros E (conns & vs & a & elems & A & B & O & Fa & C & F). exists conns, vs, a, elems.
  split; [exact A|]. split; [exact B|].
  split; [eapply origin_of_extends; eassumption|].
  split; [eapply fulfilled_extends; eassumption|].
  split; [eapply callbacks_extends; eassumption|eapply all_fulfilled_extends; eassumption].
Qed.

Lemma partial_inputs_extends s s' node obj rest :
  extends s s' -> partial_inputs s node obj rest -> partial_inputs s' node obj rest.
Proof.
  intros E (io & S & K & F). exists io. split; [eapply sockets_of_extends; eassumption|].
  split; [exact K|]. eapply Forall_impl; [exact F|]. intros kv. apply entry_ok_extends, E.
Qed.

Lemma good_inputs_extends s s' node v :
  extends s s' -> good_inputs s node v -> good_inputs s' node v.
Proof.
  intros E (obj & -> & P). exists obj. split; [reflexivity|].
  eapply partial_inputs_extends; eassumption.
Qed.

Lemma value_ok_extends s s' o v : extends s s' -> value_ok s o v -> value_ok s' o v.
Proof.
  intros E H. destruct o; simpl in *; try exact H.
  - eapply good_inputs_extends; eassumption.
  - destruct H as (vs & -> & F). exists vs. split; [reflexivity|].
    eapply all_fulfilled_extends; eassumption.
Qed.

Lemma outcome_ok_extends s s' o out : extends s s' -> outcome_ok s o out -> outcome_ok s' o out.
Proof. intros E H. destruct out; simpl in *; [eapply value_ok_extends; eassumption|exact I]. Qed.

Lemma site_ok_extends s s' site elems : extends s s' -> site_ok s site elems -> site_ok s' site elems.
Proof.
  intros E H. destruct site; simpl in *; try exact H.
  destruct H as (io & conns & S & A & F). exists io, conns.
  split; [eapply sockets_of_extends; eassumption|]. split; [exact A|].
  eapply callbacks_extends; eassumption.
Qed.

Lemma values_ok_extends s s' o vals : extends s s' -> values_ok s o vals -> values_ok s' o vals.
Proof.
  intros E H. destruct o; simpl in *; try exact H.
  destruct H as (L & V & S). split; [exact L|]. split; [|eapply site_ok_extends; eassumption].
  intros i v Hi. destruct (V i v Hi) as (e & He & F). exists e. split; [exact He|].
  eapply fulfilled_extends; eassumption.
Qed.

Lemma frame_ok_extends s s' k : extends s s' -> frame_ok s k -> frame_ok s' k.
Proof.
  intros E (O & H). split; [eapply origin_of_extends; eassumption|].
  destruct k; try exact H. eapply partial_inputs_extends; eassumption.
Qed.

Lemma reaction_ok_extends s s' q o r :
  extends s s' -> reaction_ok s q o r -> reaction_ok s' q o r.
Proof.
  intros E H. destruct r as [k|p|a i]; simpl in *.
  - destruct H as (F & A). split; [eapply frame_ok_extends; eassumption|exact A].
  - destruct H as (op & O & A). exists op. split; [eapply origin_of_extends; eassumption|exact A].
  - destruct H as (site & elems & O & A). exists site, elems.
    split; [eapply origin_of_extends; eassumption|exact A].
Qed.

Lemma settled_extends s s' q pr out :
  extends s s' -> promises s !! q = Some pr -> p_state pr = settled out ->
  exists pr', promises s' !! q = Some pr' /\ p_state pr' = settled out /\ p_origin pr' = p_origin pr.
Proof.
  intros (P & _) Hq Hs. destruct (P q pr Hq) as (pr' & Hq' & O & F & R).
  exists pr'. split; [exact Hq'|]. split; [|exact O].
  destruct out; simpl in *; [apply F|apply R]; exact Hs.
Qed.

Lemma job_ok_extends s s' j : extends s s' -> job_ok s j -> job_ok s' j.
Proof.
  intros E H.
  assert (forall r out,
    (exists q pr, promises s !! q = Some pr /\ p_state pr = settled out /\
                  reaction_ok s q (p_origin pr) r) ->
    exists q pr, promises s' !! q = Some pr /\ p_state pr = settled out /\
                 reaction_ok s' q (p_origin pr) r) as G.
  { intros r out (q & pr & Hq & Hs & Hr).
    destruct (settled_extends _ _ _ _ _ E Hq Hs) as (pr' & Hq' & Hs' & O).
    exists q, pr'. split; [exact Hq'|]. split; [exact Hs'|]. rewrite O.
    eapply reaction_ok_extends; eassumption. }
  destruct j as [[k|p|a i] out|p x].
  - destruct k; try exact (G _ _ H). simpl in *. eapply origin_of_extends; eassumption.
  - exact (G _ _ H).
  - exact (G _ _ H).
  - destruct H as (o & ox & O & Ox & A). exists o, ox.
    split; [eapply origin_of_extends; eassumption|].
    split; [eapply origin_of_extends; eassumption|exact A].
Qed.

Lemma call_ok_extends s s' w : extends s s' -> call_ok s w -> call_ok s' w.
Proof. intros E H. eapply origin_of_extends; eassumption. Qed.

Lemma event_ok_extends s s' e : extends s s' -> event_ok s e -> event_ok s' e.
Proof. intros E H. destruct e; try exact H. eapply good_inputs_extends; eassumption. Qed.

Lemma resolver_extends s s' p : extends s s' -> resolver s p -> resolver s' p.
Proof. intros E (m & H). exists m. eapply origin_of_extends; eassumption. Qed.

Lemma result_extends s s' p : extends s s' -> result s p -> result s' p.
Proof. intros E (m & H). exists m. eapply origin_of_extends; eassumption. Qed.

Lemma node_ok_extends s s' nd : extends s s' -> node_ok s nd -> node_ok s' nd.
Proof.
  intros E (P & S). split.
  - eapply Forall_impl; [exact P|]. intros p. apply resolver_extends, E.
  - intros w Hw. eapply result_extends; [exact E|]. apply S, Hw.
Qed.

Lemma promise_ok_extends s s' q pr : extends s s' -> promise_ok s q pr -> promise_ok s' q pr.
Proof.
  intros E (V & A & R). split; [|split].
  - intros v Hv. eapply value_ok_extends; [exact E|]. apply V, Hv.
  - eapply values_ok_extends; eassumption.
  - intros rs Hrs. eapply Forall_impl; [apply R, Hrs|]. intros r. apply reaction_ok_extends, E.
Qed.

#[export] Hint Resolve origin_of_extends fulfilled_extends sockets_of_extends callbacks_extends
  partial_inputs_extends good_inputs_extends value_ok_extends outcome_ok_extends site_ok_extends
  values_ok_extends frame_ok_extends reaction_ok_extends job_ok_extends call_ok_extends
  event_ok_extends resolver_extends result_extends node_ok_extends promise_ok_extends : stable.

(** *** The primitives keep the invariant *)

(** A state is typed when it extends a typed one and whatever is new in it
    is typed. *)
Lemma Typed_step s s' :
  Typed s -> extends s s' ->
  (forall q pr, promises s' !! q = Some pr -> promises s !! q = Some pr \/ promise_ok s' q pr) ->
  (forall j, j ∈ queue s' -> j ∈ queue s \/ job_ok s' j) ->
  (forall w, w ∈ calls s' -> w ∈ calls s \/ call_ok s' w) ->
  (forall e, e ∈ trace s' -> e ∈ trace s \/ event_ok s' e) ->
  (forall r, this_onAbort s' = Some r ->
     this_onAbort s = Some r \/ origin_of s' r = Some O_abort_inner) ->
  (forall n nd, nodes s' !! n = Some nd -> nd ∈ nodes s \/ node_ok s' nd) ->
  Typed s'.
Proof.
  intros (T1 & T2 & T3 & T4 & T5 & T6) E H1 H2 H3 H4 H5 H6.
  rewrite Forall_forall in T2. rewrite Forall_forall in T3. rewrite Forall_forall in T4.
  split; [|split; [|split; [|split; [|split]]]].
  - intros q pr Hq. destruct (H1 q pr Hq) as [Old|New]; [|exact New].
    eapply promise_ok_extends; [exact E|]. apply T1, Old.
  - apply Forall_forall. intros j Hj. destruct (H2 j Hj) as [Old|New]; [|exact New].
    eapply job_ok_extends; [exact E|]. apply T2, Old.
  - apply Forall_forall. intros w Hw. destruct (H3 w Hw) as [Old|New]; [|exact New].
    eapply call_ok_extends; [exact E|]. apply T3, Old.
  - apply Forall_forall. intros e He. destruct (H4 e He) as [Old|New]; [|exact New].
    eapply event_ok_extends; [exact E|]. apply T4, Old.
  - intros r Hr. destruct (H5 r Hr) as [Old|New]; [|exact New].
    eapply origin_of_extends; [exact E|]. apply T5, Old.
  - intros n nd Hn. destruct (H6 n nd Hn) as [Old|New]; [|exact New].
    apply list_elem_of_lookup in Old. destruct Old as (n0 & Old).
    eapply node_ok_extends; [exact E|]. eapply T6, Old.
Qed.

Ltac old := intros; left; first [ assumption | eapply list_elem_of_lookup_2; eassumption ].

(** Changing a field the invariant does not read. *)
Lemma Typed_fields s s' :
  Typed s ->
  promises s' = promises s -> queue s' = queue s -> calls s' = calls s -> trace s' = trace s ->
  this_onAbort s' = this_onAbort s -> nodes s' = nodes s -> socks s' = socks s ->
  Typed s'.
Proof.
  intros T E1 E2 E3 E4 E5 E6 E7.
  apply (Typed_step s s' T).
  - unfold extends. rewrite E1, E4, E6, E7. apply extends_refl.
  - rewrite E1. old.
  - rewrite E2. old.
  - rewrite E3. old.
  - rewrite E4. old.
  - rewrite E5. old.
  - rewrite E6. old.
Qed.

Lemma new_promise_typed o vals s :
  Typed s -> values_ok s o vals -> Typed (new_promise o vals s).2.
Proof.
  intros T V. pose proof (new_promise_mono o vals s) as E.
  apply (Typed_step s _ T E); try (cbn; old).
  cbn. intros q pr Hq.
  destruct (decide (q < length (promises s))) as [Hlt|Hge].
  - left. rewrite lookup_app_l in Hq by exact Hlt. exact Hq.
  - right. rewrite lookup_app_r in Hq by lia.
    destruct (q - length (promises s)) as [|d]; [|destruct d; discriminate].
    injection Hq as <-. split; [|split]; cbn.
    + discriminate.
    + eapply values_ok_extends; eassumption.
    + intros rs [= <-]. constructor.
Qed.

Lemma new_promise_origin o vals s :
  origin_of (new_promise o vals s).2 (new_promise o vals s).1 = Some o.
Proof. unfold origin_of. cbn. rewrite lookup_app_r, Nat.sub_diag by lia. reflexivity. Qed.

Lemma enqueue_typed j s : Typed s -> job_ok s j -> Typed (enqueue j s).2.
Proof.
  intros T J. apply (Typed_step s _ T (enqueue_mono j s)); try (cbn; old).
  cbn. intros j' Hj. apply elem_of_app in Hj. destruct Hj as [Hj|Hj]; [left; exact Hj|].
  apply list_elem_of_singleton in Hj. subst. right.
  eapply job_ok_extends; [apply (enqueue_mono _ s)|exact J].
Qed.

Lemma emit_typed e s : Typed s -> event_ok s e -> Typed (emit e s).2.
Proof.
  intros T J. apply (Typed_step s _ T (emit_mono e s)); try (cbn; old).
  cbn. intros e' He. apply elem_of_app in He. destruct He as [He|He]; [left; exact He|].
  apply list_elem_of_singleton in He. subst. right.
  eapply event_ok_extends; [apply (emit_mono _ s)|exact J].
Qed.

(** The job of a reaction of a promise that has settled. *)
Lemma reaction_job s q pr r out :
  promises s !! q = Some pr -> p_state pr = settled out ->
  reaction_ok s q (p_origin pr) r -> job_ok s (JReact r out).
Proof.
  intros Hq Hs Hr.
  assert (exists q pr, promises s !! q = Some pr /\ p_state pr = settled out /\
                       reaction_ok s q (p_origin pr) r) as G by eauto.
  destruct r as [k|p|a i]; try exact G.
  destruct k; try exact G. destruct Hr as (_ & []).
Qed.

Lemma settle_typed p out s :
  Typed s -> (forall pr, promises s !! p = Some pr -> outcome_ok s (p_origin pr) out) ->
  Typed (settle p out s).2.
Proof.
  intros T V. pose proof (settle_mono p out s) as E.
  pose proof T as (T1 & _).
  unfold settle in *. destruct (promises s !! p) as [pr|] eqn:Hp; [|exact T].
  destruct (p_state pr) as [rs|v|e] eqn:Hs; try exact T.
  specialize (V pr eq_refl). destruct (T1 p pr Hp) as (_ & A & R). specialize (R rs Hs).
  cbn [snd] in *.
  set (s' := set_queue _ _) in *.
  assert (promises s' !! p = Some (with_state (settled out) pr)) as Hp'.
  { unfold s'. cbn. apply list_lookup_insert_eq. eapply lookup_lt_Some, Hp. }
  apply (Typed_step s _ T E); try (unfold s'; cbn; old).
  - intros q pr' Hq. destruct (decide (q = p)) as [->|Hne].
    + right. rewrite Hp' in Hq. injection Hq as <-. split; [|split]; cbn.
      * intros v Hv. destruct out as [v'|e']; simpl in Hv; [|discriminate].
        injection Hv as <-. eapply value_ok_extends; [exact E|exact V].
      * eapply values_ok_extends; eassumption.
      * intros rs' Hrs'. destruct out; discriminate.
    + left. unfold s' in Hq. cbn in Hq. rewrite list_lookup_insert_ne in Hq by congruence. exact Hq.
  - intros j Hj. unfold s' in Hj. cbn in Hj. apply elem_of_app in Hj.
    destruct Hj as [Hj|Hj]; [left; exact Hj|right].
    apply list_elem_of_fmap in Hj. destruct Hj as (r & -> & Hr).
    eapply (reaction_job s' p); [exact Hp'|reflexivity|]. cbn.
    eapply reaction_ok_extends; [exact E|]. rewrite Forall_forall in R. apply R, Hr.
Qed.

Lemma then_typed x r s :
  Typed s -> (forall pr, promises s !! x = Some pr -> reaction_ok s x (p_origin pr) r) ->
  Typed (then_ x r s).2.
Proof.
  intros T V. pose proof (then_mono x r s) as E. pose proof T as (T1 & _).
  unfold then_ in *. destruct (promises s !! x) as [pr|] eqn:Hp; [|exact T].
  specialize (V pr eq_refl). destruct (T1 x pr Hp) as (_ & A & R).
  destruct (p_state pr) as [rs|v|e] eqn:Hs.
  - cbn [snd] in *. set (s' := set_promises _ _) in *.
    apply (Typed_step s _ T E); try (unfold s'; cbn; old).
    intros q pr' Hq. unfold s' in Hq. cbn in Hq. destruct (decide (q = x)) as [->|Hne].
    + right. rewrite list_lookup_insert_eq in Hq by (eapply lookup_lt_Some, Hp).
      injection Hq as <-. split; [|split]; cbn.
      * discriminate.
      * eapply values_ok_extends; eassumption.
      * intros rs' [= <-]. apply Forall_app. split.
        -- eapply Forall_impl; [apply R; reflexivity|]. intros r'. apply reaction_ok_extends, E.
        -- constructor; [|constructor]. eapply reaction_ok_extends; eassumption.
    + left. rewrite list_lookup_insert_ne in Hq by congruence. exact Hq.
  - apply enqueue_typed; [exact T|]. eapply (reaction_job s x pr); [exact Hp|exact Hs|exact V].
  - apply enqueue_typed; [exact T|]. eapply (reaction_job s x pr); [exact Hp|exact Hs|exact V].
Qed.

Lemma all_some_lookup {A} (vals : list (option A)) vs :
  all_some vals = Some vs ->
  length vs = length vals /\ forall i v, vs !! i = Some v -> vals !! i = Some (Some v).
Proof.
  revert vs. induction vals as [|[a|] vals IH]; intros vs H; simpl in H; try discriminate.
  - injection H as <-. split; [reflexivity|]. intros i v Hv. destruct i; discriminate.
  - destruct (all_some vals) as [vs'|]; [|discriminate]. injection H as <-.
    destruct (IH vs' eq_refl) as (L & V). split; [simpl; congruence|].
    intros [|i] v Hv; simpl in *; [congruence|apply V, Hv].
Qed.

Lemma values_fulfilled s (elems : list pid) vals vs :
  length vals = length elems ->
  (forall i v, vals !! i = Some (Some v) -> exists e, elems !! i = Some e /\ fulfilled s e v) ->
  all_some vals = Some vs -> Forall2 (fulfilled s) elems vs.
Proof.
  intros L V H. destruct (all_some_lookup _ _ H) as (L' & V').
  apply Forall2_same_length_lookup. split; [congruence|].
  intros i e v He Hv. destruct (V i v (V' i v Hv)) as (e' & He' & F). congruence.
Qed.

Lemma all_resolve_element_typed a i v s :
  Typed s ->
  (forall pr, promises s !! a = Some pr ->
     exists site elems e, p_origin pr = O_all site elems /\ elems !! i = Some e /\ fulfilled s e v) ->
  Typed (all_resolve_element a i v s).2.
Proof.
  intros T V. pose proof T as (T1 & _).
  unfold all_resolve_element. destruct (promises s !! a) as [pr|] eqn:Hp; [|exact T].
  destruct (V pr eq_refl) as (site & elems & e & O & He & F).
  destruct (T1 a pr Hp) as (Pv & Pa & Pr). rewrite O in Pa. destruct Pa as (L & Va & Si).
  set (pr1 := with_values _ pr). set (s1 := set_promises _ s).
  assert (extends s s1) as E1.
  { apply promises_mono. eapply grows_insert; [apply promise_grows_refl|exact Hp|].
    repeat split; cbn; auto. }
  assert (promises s1 !! a = Some pr1) as Hp1.
  { unfold s1. cbn. apply list_lookup_insert_eq. eapply lookup_lt_Some, Hp. }
  assert (values_ok s1 (O_all site elems) (p_values pr1)) as Va1.
  { cbn. split; [rewrite length_insert; exact L|]. split; [|eapply site_ok_extends; eassumption].
    intros j x Hj. destruct (decide (j = i)) as [->|Hne].
    - exists e. split; [exact He|]. eapply fulfilled_extends; [exact E1|].
      assert (i < length (p_values pr)) as Hlt.
      { apply lookup_lt_Some in Hj. rewrite length_insert in Hj. exact Hj. }
      rewrite list_lookup_insert_eq in Hj by exact Hlt. congruence.
    - rewrite list_lookup_insert_ne in Hj by congruence.
      destruct (Va j x Hj) as (e' & He' & F'). exists e'. split; [exact He'|].
      eapply fulfilled_extends; eassumption. }
  assert (Typed s1) as T1'.
  { apply (Typed_step s _ T E1); try (unfold s1; cbn; old).
    intros q pr' Hq. destruct (decide (q = a)) as [->|Hne].
    - right. rewrite Hp1 in Hq. injection Hq as <-. split; [|split].
      + intros x Hx. eapply value_ok_extends; [exact E1|]. apply Pv, Hx.
      + change (p_origin pr1) with (p_origin pr). rewrite O. exact Va1.
      + intros rs Hrs. eapply Forall_impl; [apply Pr, Hrs|]. intros r. apply reaction_ok_extends, E1.
    - left. unfold s1 in Hq. cbn in Hq. rewrite list_lookup_insert_ne in Hq by congruence. exact Hq. }
  destruct (all_some _) as [vs|] eqn:Hall; [|exact T1'].
  apply settle_typed; [exact T1'|]. intros pr' Hpr'. rewrite Hp1 in Hpr'. injection Hpr' as <-.
  change (p_origin pr1) with (p_origin pr). rewrite O. cbn. exists vs. split; [reflexivity|].
  destruct Va1 as (L1 & V1 & _). eapply values_fulfilled; eassumption.
Qed.

Lemma write_node_typed n f s :
  Typed s -> (forall nd, node_grows nd (f nd)) ->
  (forall nd, nodes s !! n = Some nd -> node_ok s (f nd)) ->
  Typed (write_node n f s).2.
Proof.
  intros T G V. pose proof (write_node_mono n f G s) as E.
  apply (Typed_step s _ T E); try (cbn; old).
  cbn. intros m nd Hm. destruct (decide (m = n)) as [->|Hne].
  - right. rewrite list_lookup_alter_eq in Hm.
    destruct (nodes s !! n) as [nd0|] eqn:Hn; [|discriminate]. injection Hm as <-.
    eapply node_ok_extends; [exact E|]. apply V. reflexivity.
  - left. rewrite list_lookup_alter_ne in Hm by congruence.
    eapply list_elem_of_lookup_2, Hm.
Qed.

Lemma alloc_node_typed nd s : Typed s -> node_ok s nd -> Typed (alloc_node nd s).2.
Proof.
  intros T V. pose proof (alloc_node_mono nd s) as E.
  apply (Typed_step s _ T E); try (cbn; old).
  cbn. intros m nd' Hm. apply list_elem_of_lookup_2 in Hm. apply elem_of_app in Hm.
  destruct Hm as [Hm|Hm]; [left; exact Hm|right].
  apply list_elem_of_singleton in Hm. subst. eapply node_ok_extends; eassumption.
Qed.

Lemma set_onAbort_typed r s :
  Typed s -> (forall p, r = Some p -> origin_of s p = Some O_abort_inner) ->
  Typed (set_onAbort r s).
Proof.
  intros T V.
  apply (Typed_step s (set_onAbort r s) T (extends_refl s)); try (cbn; old).
  cbn. intros p ->. right. apply V. reflexivity.
Qed.

Lemma set_calls_typed l s :
  Typed s -> (forall w, w ∈ l -> w ∈ calls s \/ call_ok s w) -> Typed (set_calls l s).
Proof.
  intros T V. apply (Typed_step s (set_calls l s) T (extends_refl s)); try (cbn; old).
  cbn. exact V.
Qed.

Lemma origin_lookup s p pr o :
  origin_of s p = Some o -> promises s !! p = Some pr -> p_origin pr = o.
Proof. unfold origin_of. intros H Hp. rewrite Hp in H. simpl in H. congruence. Qed.

Lemma settle_origin p out s o :
  Typed s -> origin_of s p = Some o -> outcome_ok s o out -> Typed (settle p out s).2.
Proof.
  intros T O V. apply settle_typed; [exact T|]. intros pr Hp.
  rewrite (origin_lookup _ _ _ _ O Hp). exact V.
Qed.

Lemma then_origin x r s o :
  Typed s -> origin_of s x = Some o -> reaction_ok s x o r -> Typed (then_ x r s).2.
Proof.
  intros T O V. apply then_typed; [exact T|]. intros pr Hp.
  rewrite (origin_lookup _ _ _ _ O Hp). exact V.
Qed.

(** [typed P m Q]: from a typed state where [P] holds, [m] leaves a typed
    state that extends it, and [Q] relates its result to that state. *)
Definition typed {A} (P : Machine -> Prop) (m : M A) (Q : A -> Machine -> Prop) : Prop :=
  forall s, Typed s -> P s -> Typed (m s).2 /\ extends s (m s).2 /\ Q (m s).1 (m s).2.

Definition always : Machine -> Prop := fun _ => True.

(** The node object exists. *)
Definition alive (s : Machine) (node : nloc) : Prop := is_Some (nodes s !! node).

Lemma alive_extends s s' node : extends s s' -> alive s node -> alive s' node.
Proof.
  intros (_ & N & _) (nd & H). destruct (N node nd H) as (nd' & H' & _). exists nd'. exact H'.
Qed.

(** Carry what is known of a state over to a state that extends it. *)
Ltac transport E :=
  repeat match goal with
  | H : origin_of ?s _ = Some _ |- _ =>
      lazymatch type of E with extends s _ => apply (origin_of_extends _ _ _ _ E) in H end
  | H : fulfilled ?s _ _ |- _ =>
      lazymatch type of E with extends s _ => apply (fulfilled_extends _ _ _ _ E) in H end
  | H : sockets_of ?s _ = Some _ |- _ =>
      lazymatch type of E with extends s _ => apply (sockets_of_extends _ _ _ _ E) in H end
  | H : partial_inputs ?s _ _ _ |- _ =>
      lazymatch type of E with extends s _ => apply (partial_inputs_extends _ _ _ _ _ E) in H end
  | H : good_inputs ?s _ _ |- _ =>
      lazymatch type of E with extends s _ => apply (good_inputs_extends _ _ _ _ E) in H end
  | H : callbacks ?s _ _ |- _ =>
      lazymatch type of E with extends s _ => apply (callbacks_extends _ _ _ _ E) in H end
  | H : site_ok ?s _ _ |- _ =>
      lazymatch type of E with extends s _ => apply (site_ok_extends _ _ _ _ E) in H end
  | H : result ?s _ |- _ =>
      lazymatch type of E with extends s _ => apply (result_extends _ _ _ E) in H end
  | H : alive ?s _ |- _ =>
      lazymatch type of E with extends s _ => apply (alive_extends _ _ _ E) in H end
  | H : Forall (resolver ?s) _ |- _ =>
      lazymatch type of E with
      | extends s _ =>
          apply (fun F => Forall_impl _ _ _ F (fun p => resolver_extends _ _ p E)) in H
      end
  | H : Forall2 (fulfilled ?s) _ _ |- _ =>
      lazymatch type of E with extends s _ => apply (all_fulfilled_extends _ _ _ _ E) in H end
  end.

(** Run the call at the head of the program: [L] is its specification. The
    first variant leaves the precondition to prove. *)
Ltac t_run L x s' :=
  lazymatch type of L with
  | typed ?P ?m ?Q =>
      lazymatch goal with
      | T : Typed ?s |- _ =>
          let HP := fresh "HP" in
          assert (P s) as HP;
          [ cbv beta
          | let T' := fresh "T" in let E := fresh "E" in let Q' := fresh "Q" in
            destruct (L s T HP) as (T' & E & Q'); clear HP;
            set (x := (m s).1) in *; set (s' := (m s).2) in *; clearbody x s';
            cbv beta in Q'; transport E; clear E T ]
      end
  end.

Tactic Notation "call" constr(L) "as" ident(x) ident(s') :=
  rewrite bind_eq; t_run L x s'; [solve [unfold always; cbn; auto]|].

Tactic Notation "call" constr(L) "as" ident(x) ident(s') "with" tactic3(tac) :=
  rewrite bind_eq; t_run L x s'; [solve [tac]|].

Tactic Notation "last_call" constr(L) "as" ident(x) ident(s') "with" tactic3(tac) :=
  t_run L x s'; [solve [tac]|].

(** A call that only reads the state. *)
Lemma bind_pure {A B} (m : M A) (f : A -> M B) s : (m s).2 = s -> bind m f s = f (m s).1 s.
Proof. intros H. rewrite bind_eq, H. reflexivity. Qed.

Ltac read := rewrite bind_pure by reflexivity.

(** *** The primitives, specified *)

Lemma new_promise_t o vals :
  typed (fun s => values_ok s o vals) (new_promise o vals)
    (fun r s => origin_of s r = Some o).
Proof.
  intros s T V. split; [apply new_promise_typed; assumption|].
  split; [apply new_promise_mono|apply new_promise_origin].
Qed.

Lemma settle_t p out o :
  typed (fun s => origin_of s p = Some o /\ outcome_ok s o out) (settle p out) (fun _ _ => True).
Proof.
  intros s T (O & V). split; [eapply settle_origin; eassumption|].
  split; [apply settle_mono|exact I].
Qed.

Lemma fulfil_t p v o :
  typed (fun s => origin_of s p = Some o /\ value_ok s o v) (fulfil p v) (fun _ _ => True).
Proof. apply (settle_t p (Ok v) o). Qed.

Lemma reject_t p e o :
  typed (fun s => origin_of s p = Some o) (reject p e) (fun _ _ => True).
Proof. intros s T O. apply (settle_t p (Thrown e) o s T). split; [exact O|exact I]. Qed.

Lemma then_t x r o :
  typed (fun s => origin_of s x = Some o /\ reaction_ok s x o r) (then_ x r) (fun _ _ => True).
Proof.
  intros s T (O & V). split; [eapply then_origin; eassumption|].
  split; [apply then_mono|exact I].
Qed.

Lemma await_t x k o :
  typed (fun s => origin_of s x = Some o /\ frame_ok s k /\ awaits k o) (await x k)
    (fun _ _ => True).
Proof.
  intros s T (O & F & A). apply (then_t x (RFrame k) o s T).
  split; [exact O|split; [exact F|exact A]].
Qed.

Lemma resolve_with_t p x o ox :
  adopts o ox ->
  typed (fun s => origin_of s p = Some o /\ origin_of s x = Some ox) (resolve_with p x)
    (fun _ _ => True).
Proof.
  intros A s T (O & Ox). split; [|split; [apply enqueue_mono|exact I]].
  apply enqueue_typed; [exact T|]. exists o, ox. repeat split; assumption.
Qed.

Lemma emit_t e : typed (fun s => event_ok s e) (emit e) (fun _ _ => True).
Proof. intros s T V. split; [apply emit_typed; assumption|]. split; [apply emit_mono|exact I]. Qed.

Lemma write_node_t n f :
  (forall nd, node_grows nd (f nd)) ->
  typed (fun s => forall nd, nodes s !! n = Some nd -> node_ok s (f nd)) (write_node n f)
    (fun _ _ => True).
Proof.
  intros G s T V. split; [apply write_node_typed; assumption|].
  split; [apply write_node_mono, G|exact I].
Qed.

(** A change of the engine's own fields. *)
Lemma modify_t (f : Machine -> Machine) :
  (forall s, promises (f s) = promises s /\ queue (f s) = queue s /\ calls (f s) = calls s /\
             trace (f s) = trace s /\ this_onAbort (f s) = this_onAbort s /\
             nodes (f s) = nodes s /\ socks (f s) = socks s) ->
  typed always (modify f) (fun _ _ => True).
Proof.
  intros H s T _. destruct (H s) as (E1 & E2 & E3 & E4 & E5 & E6 & E7). cbn.
  split; [eapply Typed_fields; eassumption|]. split; [|exact I].
  unfold extends. rewrite E1, E4, E6, E7. apply extends_refl.
Qed.

Lemma set_onAbort_t r :
  typed (fun s => forall p, r = Some p -> origin_of s p = Some O_abort_inner)
    (modify (set_onAbort r)) (fun _ _ => True).
Proof.
  intros s T V. cbn. split; [apply set_onAbort_typed; assumption|].
  split; [apply (extends_refl s)|exact I].
Qed.

Lemma bind_assoc {A B C} (m : M A) (f : A -> M B) (g : B -> M C) s :
  bind (bind m f) g s = bind m (fun x => bind (f x) g) s.
Proof. reflexivity. Qed.

Lemma typed_intro {A} (P : Machine -> Prop) (m : M A) (Q : A -> Machine -> Prop) :
  mono m -> (forall s, Typed s -> P s -> Typed (m s).2 /\ Q (m s).1 (m s).2) -> typed P m Q.
Proof.
  intros Mo H s T HP. destruct (H s T HP) as (T' & Q').
  split; [exact T'|split; [apply Mo|exact Q']].
Qed.

Lemma typed_weaken {A} (P P' : Machine -> Prop) (m : M A) (Q : A -> Machine -> Prop) :
  typed P m Q -> (forall s, P' s -> P s) -> typed P' m Q.
Proof. intros H HP s T HP'. apply H; [exact T|apply HP, HP']. Qed.

Ltac done_ret := cbn [ret fst snd]; split; [assumption|first [exact I|assumption|idtac]].

(** *** The engine's calls keep the invariant *)

Section TypedCalls.

Variable components : string -> option Worker.
Variable Validator_validate : Graph -> bool * value.
Variable Recursion_detect : Graph -> option value.

Ltac fields_same := intros ?; repeat split.

Lemma call_onAbort_t : typed always call_onAbort (fun _ _ => True).
Proof.
  intros s T _. pose proof T as (_ & _ & _ & _ & T5 & _).
  rewrite call_onAbort_eq. destruct (this_onAbort s) as [r|] eqn:Hr.
  - apply (fulfil_t r VUndef O_abort_inner s T). split; [apply T5; reflexivity|exact I].
  - split; [exact T|]. split; [apply extends_refl|exact I].
Qed.

Lemma abort_t : typed always abort (fun r s => origin_of s r = Some O_abort).
Proof.
  apply typed_intro; [mono_tac|]. intros s T _. unfold abort.
  call (new_promise_t O_abort []) as self s1.
  call (new_promise_t O_abort_inner []) as inner s2.
  rewrite bind_get. destruct (this_state s2); rewrite ?bind_assoc.
  - call (fulfil_t inner VUndef O_abort_inner) as u s3.
    call (resolve_with_t self inner O_abort O_abort_inner I) as u' s4.
    done_ret.
  - call (modify_t (set_state ABORT) ltac:(fields_same)) as u s3.
    call (set_onAbort_t (Some inner)) as u' s4 with (intros p [= <-]; assumption).
    call (resolve_with_t self inner O_abort O_abort_inner I) as u'' s5.
    done_ret.
  - call call_onAbort_t as u s3.
    call (set_onAbort_t (Some inner)) as u' s4 with (intros p [= <-]; assumption).
    call (resolve_with_t self inner O_abort O_abort_inner I) as u'' s5.
    done_ret.
Qed.

Lemma processDone_t : typed always processDone (fun _ _ => True).
Proof.
  apply typed_intro; [mono_tac|]. intros s T _. unfold processDone.
  rewrite bind_get.
  call (modify_t (set_state AVAILABLE) ltac:(fields_same)) as u s1.
  destruct (negb _).
  - cbn [ret bind fst snd]. auto.
  - rewrite ?bind_assoc. call call_onAbort_t as u1 s2.
    call (set_onAbort_t None) as u2 s3 with (intros p [=]).
    done_ret.
Qed.

Lemma processStart_t : typed always processStart (fun _ _ => True).
Proof.
  apply typed_intro; [mono_tac|]. intros s T _. unfold processStart.
  rewrite bind_get. destruct (this_state s).
  - call (modify_t (set_state PROCESSED) ltac:(fields_same)) as u s1. done_ret.
  - call (emit_t Console_warn) as u s1. done_ret.
  - done_ret.
Qed.

Lemma node_ok_lookup s n nd : Typed s -> nodes s !! n = Some nd -> node_ok s nd.
Proof. intros (_ & _ & _ & _ & _ & T6) H. eapply T6, H. Qed.

Tactic Notation "node_fact" hyp(Hnd) "as" ident(P) ident(S) :=
  match goal with T : Typed _ |- _ => destruct (node_ok_lookup _ _ _ T Hnd) as (P & S) end.

Lemma lock_t node : typed always (lock node) (fun r s => origin_of s r = Some (O_lock node)).
Proof.
  apply typed_intro; [mono_tac|]. intros s T _. unfold lock.
  call (new_promise_t (O_lock node) []) as self s1.
  call (new_promise_t (O_lock_inner node) []) as inner s2.
  rewrite bind_read_node. rewrite ?bind_assoc.
  destruct (_ && _).
  - call (write_node_t node (set_unlockPool (unlockPool (default empty_node (nodes s2 !! node))
                                               ++ [inner])) ltac:(intros ?; repeat split))
      as u s3 with (intros nd Hnd; rewrite Hnd; cbn; node_fact Hnd as P S;
                    split; [apply Forall_app; split; [exact P|repeat constructor; eexists; eassumption]
                           |exact S]).
    call (write_node_t node (set_busy true) ltac:(intros ?; repeat split))
      as u1 s4 with (intros nd Hnd; node_fact Hnd as P S; split; assumption).
    call (resolve_with_t self inner (O_lock node) (O_lock_inner node) I) as u2 s5.
    done_ret.
  - call (fulfil_t inner VUndef (O_lock_inner node)) as u s3.
    call (write_node_t node (set_busy true) ltac:(intros ?; repeat split))
      as u1 s4 with (intros nd Hnd; node_fact Hnd as P S; split; assumption).
    call (resolve_with_t self inner (O_lock node) (O_lock_inner node) I) as u2 s5.
    done_ret.
Qed.

Lemma release_t l :
  typed (fun s => Forall (resolver s) l) (mfor (fun a => fulfil a VUndef) l) (fun _ _ => True).
Proof.
  apply typed_intro; [mono_tac|]. induction l as [|a l IH]; intros s T H; simpl.
  - done_ret.
  - inversion H as [|? ? (m & Ha) Hl]; subst.
    call (fulfil_t a VUndef (O_lock_inner m)) as u s1.
    apply IH; assumption.
Qed.

Lemma unlock_t node : typed always (unlock node) (fun _ _ => True).
Proof.
  apply typed_intro; [mono_tac|]. intros s T _. unfold unlock.
  rewrite bind_read_node.
  call (release_t (unlockPool (default empty_node (nodes s !! node)))) as u s1
    with (destruct (nodes s !! node) as [nd|] eqn:Hnd; cbn;
          [node_fact Hnd as P S; exact P|constructor]).
  call (write_node_t node (set_unlockPool []) ltac:(intros ?; repeat split))
    as u1 s2 with (intros nd Hnd; node_fact Hnd as P S; split; [constructor|exact S]).
  last_call (write_node_t node (set_busy false) ltac:(intros ?; repeat split))
    as u2 s3 with (intros nd Hnd; node_fact Hnd as P S; split; assumption).
  split; [assumption|exact I].
Qed.

Lemma processNode_t node :
  typed always (processNode node) (fun r s => origin_of s r = Some (O_processNode node)).
Proof.
  apply typed_intro; [mono_tac|]. intros s T _. unfold processNode.
  call (new_promise_t (O_processNode node) []) as self s1.
  rewrite bind_get. destruct node as [n|].
  - destruct (State_eqb _ _).
    + call (fulfil_t self VNull (O_processNode (Some n))) as u s2. done_ret.
    + call (lock_t n) as l s2.
      call (await_t l (K_processNode n self) (O_lock n)) as u s3
        with (split; [assumption|split; [split; [assumption|exact I]|reflexivity]]).
      done_ret.
  - call (fulfil_t self VNull (O_processNode None)) as u s2. done_ret.
Qed.

Lemma extract_conn_t c :
  typed always (extract_conn c) (fun r s => origin_of s r = Some (O_extract_conn c)).
Proof.
  apply typed_intro; [mono_tac|]. intros s T _. unfold extract_conn.
  call (new_promise_t (O_extract_conn c) []) as self s1.
  read. destruct (lookup_node (c_node c) s1).1 as [prevNode|].
  - call (processNode_t prevNode) as p s2.
    call (await_t p (K_extract_conn c prevNode self) (O_processNode prevNode)) as u s3
      with (split; [assumption|split; [split; [assumption|exact I]|reflexivity]]).
    done_ret.
  - call (reject_t self TypeError (O_extract_conn c)) as u s2. done_ret.
Qed.

Lemma extract_conns_t conns :
  typed always (mmap extract_conn conns) (fun elems s => callbacks s elems conns).
Proof.
  apply typed_intro; [mono_tac|]. induction conns as [|c conns IH]; intros s T _; cbn [mmap].
  - split; [exact T|constructor].
  - call (extract_conn_t c) as e s1.
    rewrite bind_eq. destruct (IH s1 T0 I) as (T2 & C).
    assert (mono (mmap extract_conn conns)) as Mo by mono_tac. pose proof (Mo s1) as E.
    set (es := (mmap extract_conn conns s1).1) in *.
    set (s2 := (mmap extract_conn conns s1).2) in *. clearbody es s2. transport E.
    cbn [ret fst snd]. split; [exact T2|]. constructor; assumption.
Qed.

(** [Promise.all]: the reaction of element [i] fills slot [i]. *)
Lemma all_then_typed a site elems done rest s :
  Typed s -> origin_of s a = Some (O_all site elems) -> elems = (done ++ rest)%list ->
  Typed (all_then a (length done) rest s).2.
Proof.
  revert done s. induction rest as [|e rest IH]; intros done s T O E; simpl; [exact T|].
  rewrite bind_eq.
  assert (Typed (then_ e (RAll a (length done)) s).2) as T1.
  { apply then_typed; [exact T|]. intros pr _. exists site, elems. split; [exact O|].
    subst elems. rewrite lookup_app_r, Nat.sub_diag by lia. reflexivity. }
  pose proof (then_mono e (RAll a (length done)) s) as E1.
  set (s1 := (then_ e (RAll a (length done)) s).2) in *. clearbody s1. transport E1.
  specialize (IH (done ++ [e])%list s1 T1 O).
  rewrite length_app in IH. simpl in IH. rewrite Nat.add_1_r in IH. apply IH.
  rewrite <- app_assoc. exact E.
Qed.

Lemma Promise_all_t site elems :
  typed (fun s => site_ok s site elems) (Promise_all site elems)
    (fun r s => origin_of s r = Some (O_all site elems)).
Proof.
  apply typed_intro; [mono_tac|]. intros s T S. unfold Promise_all.
  call (new_promise_t (O_all site elems) (replicate (length elems) None)) as a s1
    with (cbn; split; [apply length_replicate|split; [|exact S]];
          intros i v Hi; apply lookup_replicate in Hi; destruct Hi; discriminate).
  destruct elems as [|e elems].
  - call (fulfil_t a (VArr []) (O_all site [])) as u s2
      with (split; [assumption|exists []; split; [reflexivity|constructor]]).
    done_ret.
  - rewrite bind_eq.
    pose proof (all_then_typed a site (e :: elems) [] (e :: elems) s1 T0 Q eq_refl) as T2.
    pose proof (all_then_mono a 0 (e :: elems) s1) as E.
    cbn [length] in T2.
    set (s2 := (all_then a 0 (e :: elems) s1).2) in *. clearbody s2. transport E.
    cbn [ret fst snd]. split; assumption.
Qed.

Lemma input_connections_of s node key io :
  sockets_of s node = Some io -> (input_connections node key s).1 = assoc key io.
Proof.
  unfold sockets_of, input_connections. rewrite bind_read_node, bind_get. cbn.
  destruct (nodes s !! node) as [nd|]; [|discriminate]. cbn. unfold Sockets in *.
  intros H. rewrite H. reflexivity.
Qed.

Lemma extract_next_t node obj keys self :
  typed (fun s => origin_of s self = Some (O_extractInputData node) /\
                  partial_inputs s node obj keys)
    (extract_next node obj keys self) (fun _ _ => True).
Proof.
  apply typed_intro; [mono_tac|]. intros s T (O & P). unfold extract_next.
  destruct keys as [|key rest].
  - last_call (fulfil_t self (VObj obj) (O_extractInputData node)) as u s1
      with (split; [assumption|exists obj; split; [reflexivity|assumption]]).
    split; [assumption|exact I].
  - read. pose proof P as (io & S & K & F).
    rewrite (input_connections_of _ _ key _ S).
    destruct (assoc key io) as [conns|] eqn:A.
    + call (extract_conns_t conns) as elems s1.
      call (Promise_all_t (All_extract node key) elems) as a s2
        with (exists io, conns; repeat split; assumption).
      last_call (await_t a (K_extractInputData node obj key rest self)
                   (O_all (All_extract node key) elems)) as u s3
        with (split; [assumption|split; [split; assumption|eexists; reflexivity]]).
      split; [assumption|exact I].
    + last_call (reject_t self TypeError (O_extractInputData node)) as u s1 with assumption.
      split; [assumption|exact I].
Qed.

Lemma input_keys_of s node :
  (input_keys node s).1 = option_map (map fst) (sockets_of s node) \/ ~ alive s node.
Proof.
  unfold sockets_of, input_keys, alive. rewrite bind_read_node, bind_get. cbn.
  destruct (nodes s !! node) as [nd|]; [left; reflexivity|right]. intros (x & [=]).
Qed.

Lemma extractInputData_t node :
  typed (fun s => alive s node) (extractInputData node)
    (fun r s => origin_of s r = Some (O_extractInputData node)).
Proof.
  apply typed_intro; [mono_tac|]. intros s T A. unfold extractInputData.
  call (new_promise_t (O_extractInputData node) []) as self s1.
  read. destruct (input_keys_of s1 node) as [->|N]; [|contradiction].
  rewrite ?bind_assoc.
  destruct (sockets_of s1 node) as [io|] eqn:S; cbn [option_map].
  - call (extract_next_t node [] (map fst io) self) as u s2
      with (split; [assumption|exists io; repeat split; [assumption|constructor]]).
    done_ret.
  - call (reject_t self TypeError (O_extractInputData node)) as u s2.
    done_ret.
Qed.

Lemma processWorker_t node :
  typed (fun s => alive s node) (processWorker node)
    (fun r s => origin_of s r = Some (O_processWorker node)).
Proof.
  apply typed_intro; [mono_tac|]. intros s T A. unfold processWorker.
  call (new_promise_t (O_processWorker node) []) as self s1.
  call (emit_t (Enter_processWorker node)) as u s2.
  call (extractInputData_t node) as e s3.
  call (await_t e (K_processWorker_inputs node self) (O_extractInputData node)) as u1 s4
    with (split; [assumption|split; [split; [assumption|exact I]|reflexivity]]).
  done_ret.
Qed.

Ltac frame_self := split; [assumption|split; [split; [assumption|exact I]|try reflexivity]].

Lemma forwardProcess_t node :
  typed always (forwardProcess node) (fun r s => origin_of s r = Some (O_forwardProcess node)).
Proof.
  assert (forall c, typed always (forward_conn c)
            (fun r s => origin_of s r = Some (O_forward_conn c))) as Conn.
  { intros c. apply typed_intro; [mono_tac|]. intros s T _. unfold forward_conn.
    call (new_promise_t (O_forward_conn c) []) as self s1.
    read. destruct (lookup_node (c_node c) s1).1 as [nextNode|].
    - call (processNode_t nextNode) as p s2.
      call (await_t p (K_forward_conn_node c nextNode self) (O_processNode nextNode)) as u s3
        with frame_self.
      done_ret.
    - call (reject_t self TypeError (O_forward_conn c)) as u s2. done_ret. }
  assert (forall conns, typed always (mmap forward_conn conns) (fun _ _ => True)) as Conns.
  { intros conns. apply typed_intro; [mono_tac|].
    induction conns as [|c conns IH]; intros s T _; cbn [mmap].
    - split; [exact T|exact I].
    - call (Conn c) as e s1. rewrite bind_eq. destruct (IH s1 T0 I) as (T2 & _).
      cbn [ret fst snd]. split; [exact T2|exact I]. }
  assert (forall n key, typed always (forward_key n key)
            (fun r s => origin_of s r = Some (O_forward_key n key))) as Key.
  { intros n key. apply typed_intro; [mono_tac|]. intros s T _. unfold forward_key.
    call (new_promise_t (O_forward_key n key) []) as self s1.
    read. destruct (output_connections n key s1).1 as [conns|].
    - call (Conns conns) as elems s2.
      call (Promise_all_t (All_forward_key n key) elems) as a s3.
      call (await_t a (K_forward_key n key self) (O_all (All_forward_key n key) elems)) as u s4
        with (split; [assumption|split; [split; [assumption|exact I]|eexists; reflexivity]]).
      done_ret.
    - call (reject_t self TypeError (O_forward_key n key)) as u s2. done_ret. }
  assert (forall n keys, typed always (mmap (forward_key n) keys) (fun _ _ => True)) as Keys.
  { intros n keys. apply typed_intro; [mono_tac|].
    induction keys as [|key keys IH]; intros s T _; cbn [mmap].
    - split; [exact T|exact I].
    - call (Key n key) as e s1. rewrite bind_eq. destruct (IH s1 T0 I) as (T2 & _).
      cbn [ret fst snd]. split; [exact T2|exact I]. }
  apply typed_intro; [mono_tac|]. intros s T _. unfold forwardProcess.
  call (new_promise_t (O_forwardProcess node) []) as self s1.
  rewrite bind_get. destruct (State_eqb _ _).
  - call (fulfil_t self VNull (O_forwardProcess node)) as u s2. done_ret.
  - destruct node as [n|].
    + read. destruct (output_keys n s1).1 as [keys|].
      * call (Keys n keys) as elems s2.
        call (Promise_all_t (All_forward n) elems) as a s3.
        call (await_t a (K_forwardProcess n self) (O_all (All_forward n) elems)) as u s4
          with (split; [assumption|split; [split; [assumption|exact I]|eexists; reflexivity]]).
        done_ret.
      * call (reject_t self TypeError (O_forwardProcess (Some n))) as u s2. done_ret.
    + call (reject_t self TypeError (O_forwardProcess None)) as u s2. done_ret.
Qed.

Lemma throwError_t message data :
  typed always (throwError message data) (fun r s => origin_of s r = Some O_throwError).
Proof.
  apply typed_intro; [mono_tac|]. intros s T _. unfold throwError.
  call (new_promise_t O_throwError []) as self s1.
  call abort_t as a s2.
  call (await_t a (K_throwError message data self) O_abort) as u s3 with frame_self.
  done_ret.
Qed.

Lemma validate_t data :
  typed always (validate Validator_validate Recursion_detect data)
    (fun r s => origin_of s r = Some O_validate).
Proof.
  apply typed_intro; [mono_tac|]. intros s T _. unfold validate.
  call (new_promise_t O_validate []) as self s1.
  rewrite bind_get. destruct (negb _).
  - call (throwError_t (Validator_validate (snapshot s1 data)).2 VNull) as t s2.
    call (await_t t (K_validate self) O_throwError) as u s3 with frame_self.
    done_ret.
  - destruct (Recursion_detect _) as [recurrentNode|].
    + call (throwError_t (VStr "Recursion detected") recurrentNode) as t s2.
      call (await_t t (K_validate self) O_throwError) as u s3 with frame_self.
      done_ret.
    + call (fulfil_t self (VBool true) O_validate) as u s2. done_ret.
Qed.

Lemma processStartNode_t id :
  typed always (processStartNode id) (fun r s => origin_of s r = Some O_processStartNode).
Proof.
  apply typed_intro; [mono_tac|]. intros s T _. unfold processStartNode.
  call (new_promise_t O_processStartNode []) as self s1.
  destruct (id_truthy id).
  - read. destruct (lookup_node (id_key id) s1).1 as [[n|]|].
    + call (processNode_t (Some n)) as p s2.
      call (await_t p (K_processStartNode_node n self) (O_processNode (Some n))) as u s3
        with frame_self.
      done_ret.
    + call (throwError_t (VStr "Node with such id not found") VNull) as t s2.
      call (await_t t (K_processStartNode_error self) O_throwError) as u s3 with frame_self.
      done_ret.
    + call (reject_t self TypeError O_processStartNode) as u s2. done_ret.
  - call (fulfil_t self VUndef O_processStartNode) as u s2. done_ret.
Qed.

Lemma unreachable_next_t keys self :
  typed (fun s => origin_of s self = Some O_processUnreachable) (unreachable_next keys self)
    (fun _ _ => True).
Proof.
  apply typed_intro; [apply unreachable_next_mono|].
  induction keys as [|i rest IH]; intros s T O; cbn [unreachable_next].
  - last_call (fulfil_t self VUndef O_processUnreachable) as u s1
      with (split; [assumption|exact I]).
    split; [assumption|exact I].
  - read. destruct (lookup_node i s).1 as [[n|]|].
    + rewrite bind_read_node. destruct (outputData _).
      * apply IH; assumption.
      * call (processNode_t (Some n)) as p s1.
        last_call (await_t p (K_processUnreachable_node n rest self) (O_processNode (Some n)))
          as u s2 with frame_self.
        split; [assumption|exact I].
    + last_call (reject_t self TypeError O_processUnreachable) as u s1 with assumption.
      split; [assumption|exact I].
    + last_call (reject_t self TypeError O_processUnreachable) as u s1 with assumption.
      split; [assumption|exact I].
Qed.

Lemma processUnreachable_t :
  typed always processUnreachable (fun r s => origin_of s r = Some O_processUnreachable).
Proof.
  apply typed_intro; [pose proof unreachable_next_mono; mono_tac|].
  intros s T _. unfold processUnreachable.
  call (new_promise_t O_processUnreachable []) as self s1.
  read. rewrite ?bind_assoc. destruct (node_keys s1).1 as [keys|].
  - call (unreachable_next_t keys self) as u s2. done_ret.
  - call (reject_t self TypeError O_processUnreachable) as u s2. done_ret.
Qed.

(** A call that changes only fields the invariant does not read. *)
Lemma fields_t {A} (m : M A) :
  (forall s, promises (m s).2 = promises s /\ queue (m s).2 = queue s /\
             calls (m s).2 = calls s /\ trace (m s).2 = trace s /\
             this_onAbort (m s).2 = this_onAbort s /\ nodes (m s).2 = nodes s /\
             socks (m s).2 = socks s) ->
  typed always m (fun _ _ => True).
Proof.
  intros H s T _. destruct (H s) as (E1 & E2 & E3 & E4 & E5 & E6 & E7).
  split; [eapply Typed_fields; eassumption|]. split; [|exact I].
  unfold extends. rewrite E1, E4, E6, E7. apply extends_refl.
Qed.

Lemma alloc_node_t nd : typed (fun s => node_ok s nd) (alloc_node nd) (fun _ _ => True).
Proof.
  intros s T V. split; [apply alloc_node_typed; assumption|].
  split; [apply alloc_node_mono|exact I].
Qed.

Lemma copy_node_t m key : typed always (copy_node m key) (fun _ _ => True).
Proof.
  apply typed_intro; [mono_tac|]. intros s T _. unfold copy_node.
  rewrite bind_get. destruct (maps s !! m) as [entries|]; [|done_ret].
  destruct (assoc key entries) as [n|]; [|done_ret].
  call (alloc_node_t (default empty_node (nodes s !! n))) as n' s1
    with (destruct (nodes s !! n) as [nd|] eqn:Hnd; cbn;
          [node_fact Hnd as P S; split; assumption|split; [constructor|discriminate]]).
  last_call (modify_t (fun s => set_maps (<[m := assoc_set key n' entries]> (maps s)) s)
               ltac:(fields_same)) as u s2 with exact I.
  split; [assumption|exact I].
Qed.

Lemma copy_t data : typed always (copy data) (fun _ _ => True).
Proof.
  apply typed_intro; [mono_tac|]. intros s T _. unfold copy.
  rewrite bind_get.
  call (fields_t (alloc_data (default {| d_nodes := length (maps s) |} (datas s !! data)))
          ltac:(fields_same)) as d s1.
  call (fields_t (alloc_map (default [] (node_entries s data))) ltac:(fields_same)) as m s2.
  rewrite ?bind_assoc.
  call (modify_t (fun s => set_datas (<[d := {| d_nodes := m |}]> (datas s)) s)
          ltac:(fields_same)) as u s3.
  assert (forall keys s, Typed s -> Typed (mfor (copy_node m) keys s).2) as K.
  { induction keys as [|key keys IH]; intros s' T' ; cbn [mfor]; [exact T'|].
    rewrite bind_eq. apply IH. apply (copy_node_t m key s' T' I). }
  rewrite bind_eq. cbn [ret fst snd]. split; [apply K; assumption|exact I].
Qed.

Lemma process_t data startId args :
  typed always (process Validator_validate Recursion_detect data startId args)
    (fun _ _ => True).
Proof.
  apply typed_intro; [apply process_mono|]. intros s T _. unfold process.
  call (new_promise_t O_process []) as self s1.
  call processStart_t as started s2.
  destruct (negb started).
  - call (fulfil_t self VUndef O_process) as u s3. done_ret.
  - call (validate_t data) as v s3.
    destruct (negb _).
    + call (fulfil_t self VUndef O_process) as u s4. done_ret.
    + call (copy_t data) as d s4.
      call (modify_t (set_data (Some d)) ltac:(fields_same)) as u s5.
      call (modify_t (set_args args) ltac:(fields_same)) as u1 s6.
      call (processStartNode_t (match startId with IdUndefined => IdNull | _ => startId end))
        as p s7.
      call (await_t p (K_process_start self) O_processStartNode) as u2 s8 with frame_self.
      done_ret.
Qed.

Lemma add_call_t w :
  typed (fun s => call_ok s w) (modify (fun s => set_calls (calls s ++ [w]) s)) (fun _ _ => True).
Proof.
  intros s T V. cbn. split; [|split; [apply (extends_refl s)|exact I]].
  apply set_calls_typed; [exact T|]. intros w' Hw. apply elem_of_app in Hw.
  destruct Hw as [Hw|Hw]; [left; exact Hw|right].
  apply list_elem_of_singleton in Hw. subst. exact V.
Qed.

(** What a job that resumes a frame tells: the frame's call made its
    promise, and what it is resumed with is what the awaited call returned. *)
Lemma resumed s k out :
  Typed s -> job_ok s (JReact (RFrame k) out) ->
  origin_of s (self_of k) = Some (frame_origin k) /\
  ((exists node written self, k = K_processWorker_worker node written self) \/
   exists q pr, promises s !! q = Some pr /\ p_state pr = settled out /\ frame_ok s k /\
                awaits k (p_origin pr) /\
                outcome_ok s (p_origin pr) out /\ values_ok s (p_origin pr) (p_values pr)).
Proof.
  intros (T1 & _) J.
  assert ((exists q pr, promises s !! q = Some pr /\ p_state pr = settled out /\
                        reaction_ok s q (p_origin pr) (RFrame k)) ->
          origin_of s (self_of k) = Some (frame_origin k) /\
          exists q pr, promises s !! q = Some pr /\ p_state pr = settled out /\ frame_ok s k /\
                       awaits k (p_origin pr) /\
                       outcome_ok s (p_origin pr) out /\ values_ok s (p_origin pr) (p_values pr))
    as G.
  { intros (q & pr & Hq & Hs & F & A). split; [apply F|]. exists q, pr.
    destruct (T1 q pr Hq) as (V & Va & _).
    repeat (split; [assumption|]). split; [|exact Va].
    destruct out; [apply V, Hs|exact I]. }
  destruct k; try (destruct (G J) as (G1 & G2); split; [exact G1|right; exact G2]).
  split; [exact J|left; eauto].
Qed.

Lemma resume_t k out :
  typed (fun s => job_ok s (JReact (RFrame k) out)) (resume components k out) (fun _ _ => True).
Proof.
  apply typed_intro; [apply resume_mono|]. intros s T J.
  destruct (resumed s k out T J) as (O & W). clear J.
  destruct k; cbn [self_of frame_origin] in O;
    (destruct W as [(? & ? & ? & [=])|(q & pr & Hq & Hs & F & A & V & Va)]
     || destruct W as [_|(? & ? & _ & _ & _ & [] & _)]);
    try (cbn in A; contradiction);
    destruct out as [v|e]; cbn [resume];
    try (split; [exact (proj1 (reject_t self e _ s T O))|exact I]).
  - (* throwError *)
    call (emit_t (Trigger_error message data)) as u s1.
    call processDone_t as u1 s2.
    last_call (fulfil_t self (VStr "error") O_throwError) as u2 s3 with (split; [assumption|exact I]).
    split; [assumption|exact I].
  - (* the callback of extractInputData *)
    destruct (truthy v).
    + last_call (fulfil_t self (get_field v (c_output c)) (O_extract_conn c)) as u s1
        with (split; [assumption|exact I]).
      split; [assumption|exact I].
    + call abort_t as a s1.
      last_call (fulfil_t self VUndef (O_extract_conn c)) as u s2 with (split; [assumption|exact I]).
      split; [assumption|exact I].
  - (* extractInputData: the next key *)
    destruct F as (_ & P). destruct A as (elems & A). rewrite A in V, Va.
    destruct V as (vs & -> & Fv). destruct Va as (_ & _ & io & conns & S & As & C).
    assert (origin_of s q = Some (O_all (All_extract node key) elems)) as Oq
      by (unfold origin_of; rewrite Hq; cbn; congruence).
    assert (fulfilled s q (VArr vs)) as Fq
      by (unfold fulfilled, promise_state; rewrite Hq; cbn in *; congruence).
    last_call (extract_next_t node (obj ++ [(key, VArr vs)]) rest self) as u s1
      with (split; [assumption|];
            destruct P as (io' & S' & K & Fo);
            assert (io' = io) as -> by congruence;
            exists io; split; [assumption|]; split;
            [rewrite map_app, <- app_assoc; exact K|];
            apply Forall_app; split; [exact Fo|]; constructor; [|constructor];
            exists conns, vs, q, elems; repeat split; assumption).
    split; [assumption|exact I].
  - (* processWorker: the worker call *)
    rewrite A in V. cbn in V.
    rewrite bind_read_node, bind_get. destruct (components _) as [worker|].
    + call (emit_t (Worker_call node v (this_args s))) as u s1.
      last_call (add_call_t {| w_node := node; w_self := self;
                                w_written := (worker (default empty_node (nodes s !! node)) v
                                                (this_args s)).1;
                                w_raised := (worker (default empty_node (nodes s !! node)) v
                                               (this_args s)).2 |}) as u1 s2
        with assumption.
      split; [assumption|exact I].
    + call abort_t as a s1.
      call (emit_t (Trigger_warn TypeError)) as u s2.
      last_call (fulfil_t self (VObj []) (O_processWorker node)) as u1 s3
        with (split; [assumption|eexists; reflexivity]).
      split; [assumption|exact I].
  - (* after the worker *)
    last_call (fulfil_t self (VObj written) (O_processWorker node)) as u s1
      with (split; [assumption|eexists; reflexivity]).
    split; [assumption|exact I].
  - (* the catch *)
    call abort_t as a s1.
    call (emit_t (Trigger_warn e)) as u s2.
    last_call (fulfil_t self (VObj written) (O_processWorker node)) as u1 s3
      with (split; [assumption|eexists; reflexivity]).
    split; [assumption|exact I].
  - (* processNode after lock *)
    rewrite bind_get. destruct (nodes s !! node) as [nd|] eqn:Hnd.
    + assert (alive s node) as Al by (eexists; exact Hnd).
      rewrite ?bind_assoc.
      assert (forall s', Typed s' -> origin_of s' self = Some (O_processNode (Some node)) ->
                Typed ((unlock node;;
                        do nd0 <- read_node node;
                        match outputData nd0 with
                        | Some w => resolve_with self w
                        | None => fulfil self VUndef
                        end) s').2) as Rest.
      { clear. intros s T O.
        call (unlock_t node) as u s1.
        rewrite bind_read_node. destruct (nodes s1 !! node) as [nd|] eqn:Hnd.
        - change (default empty_node (Some nd)) with nd.
          destruct (outputData nd) as [w|] eqn:Hw.
          + node_fact Hnd as P S. destruct (S w Hw) as (m & Ow).
            apply (resolve_with_t self w (O_processNode (Some node)) (O_processWorker m) I s1 T0).
            split; assumption.
          + apply (fulfil_t self VUndef (O_processNode (Some node)) s1 T0).
            split; [assumption|right; left; reflexivity].
        - change (default empty_node None) with empty_node. cbn [outputData empty_node].
          apply (fulfil_t self VUndef (O_processNode (Some node)) s1 T0).
          split; [assumption|right; left; reflexivity]. }
      destruct (outputData nd).
      * rewrite bind_eq. cbn [ret fst snd]. split; [apply Rest; assumption|exact I].
      * rewrite ?bind_assoc. call (processWorker_t node) as w s1.
        call (write_node_t node (set_outputData (Some w)) ltac:(intros ?; repeat split)) as u s2
          with (intros nd1 Hnd1; node_fact Hnd1 as P S; split; [exact P|];
                intros w' [= <-]; eexists; eassumption).
        split; [apply Rest; assumption|exact I].
    + last_call (reject_t self TypeError (O_processNode (Some node))) as u s1 with assumption.
      split; [assumption|exact I].
  - last_call (fulfil_t self v (O_forwardProcess (Some node))) as u s1
      with (split; [assumption|exact I]).
    split; [assumption|exact I].
  - last_call (fulfil_t self v (O_forward_key node key)) as u s1
      with (split; [assumption|exact I]).
    split; [assumption|exact I].
  - call (forwardProcess_t nextNode) as p s1.
    last_call (await_t p (K_forward_conn_forward c nextNode self) (O_forwardProcess nextNode))
      as u s2 with frame_self.
    split; [assumption|exact I].
  - last_call (fulfil_t self VUndef (O_forward_conn c)) as u s1
      with (split; [assumption|exact I]).
    split; [assumption|exact I].
  - last_call (fulfil_t self v O_validate) as u s1 with (split; [assumption|exact I]).
    split; [assumption|exact I].
  - last_call (fulfil_t self v O_processStartNode) as u s1 with (split; [assumption|exact I]).
    split; [assumption|exact I].
  - call (forwardProcess_t (Some startNode)) as p s1.
    last_call (await_t p (K_processStartNode_forward self) (O_forwardProcess (Some startNode)))
      as u s2 with (split; [assumption|split; [split; [assumption|exact I]|eexists; reflexivity]]).
    split; [assumption|exact I].
  - last_call (fulfil_t self VUndef O_processStartNode) as u s1 with (split; [assumption|exact I]).
    split; [assumption|exact I].
  - call (forwardProcess_t (Some node)) as p s1.
    last_call (await_t p (K_processUnreachable_forward rest self) (O_forwardProcess (Some node)))
      as u s2 with (split; [assumption|split; [split; [assumption|exact I]|eexists; reflexivity]]).
    split; [assumption|exact I].
  - last_call (unreachable_next_t rest self) as u s1 with assumption.
    split; [assumption|exact I].
  - call processUnreachable_t as p s1.
    last_call (await_t p (K_process_unreachable self) O_processUnreachable) as u s2
      with frame_self.
    split; [assumption|exact I].
  - call processDone_t as success s1.
    last_call (fulfil_t self (VStr (if success then "success" else "aborted")) O_process)
      as u s2 with (split; [assumption|destruct success; cbn; auto]).
    split; [assumption|exact I].
Qed.

End TypedCalls.

(** *** Every reachable state is typed *)

Section TypedRuns.

Variable components : string -> option Worker.
Variable Validator_validate : Graph -> bool * value.
Variable Recursion_detect : Graph -> option value.

Lemma adopted_value s op oq v : adopts op oq -> value_ok s oq v -> value_ok s op v.
Proof.
  destruct op, oq; simpl; intros [] H; try exact I.
  right. right. exact H.
Qed.

Lemma run_job_typed j s : Typed s -> job_ok s j -> Typed (run_job components j s).2.
Proof.
  intros T J. pose proof T as (T1 & _).
  destruct j as [[k|p|a i] out|p x]; cbn [run_job].
  - apply (resume_t components k out s T J).
  - destruct J as (q & pr & Hq & Hs & op & O & A).
    eapply settle_origin; [exact T|exact O|].
    destruct out as [v|e]; [|exact I]. eapply adopted_value; [exact A|].
    destruct (T1 q pr Hq) as (V & _). apply V. exact Hs.
  - destruct J as (q & pr & Hq & Hs & site & elems & O & He).
    destruct out as [v|e].
    + apply all_resolve_element_typed; [exact T|]. intros pra Ha.
      exists site, elems, q. split; [eapply origin_lookup; eassumption|]. split; [exact He|].
      unfold fulfilled, promise_state. rewrite Hq. cbn in *. congruence.
    + eapply settle_origin; [exact T|exact O|exact I].
  - destruct J as (o & ox & O & Ox & A).
    eapply then_origin; [exact T|exact Ox|]. exists o. split; assumption.
Qed.

Lemma tick_typed s : Typed s -> Typed (tick components s).2.
Proof.
  intros T. unfold tick. destruct (queue s) as [|j q] eqn:Hq; [exact T|].
  pose proof T as (_ & T2 & _). rewrite Hq in T2. inversion T2 as [|? ? J Tq]; subst.
  apply run_job_typed.
  - apply (Typed_step s (set_queue q s) T (extends_refl s)); try (cbn; old).
    cbn. intros j' Hj. left. rewrite Hq. right. exact Hj.
  - eapply job_ok_extends; [apply (extends_refl s)|exact J].
Qed.

Lemma settle_call_typed i s : Typed s -> Typed (settle_call i s).2.
Proof.
  intros T. unfold settle_call. destruct (calls s !! i) as [w|] eqn:Hw; [|exact T].
  pose proof T as (_ & _ & T3 & _). rewrite Forall_forall in T3.
  assert (call_ok s w) as C by (eapply T3, list_elem_of_lookup_2, Hw).
  apply enqueue_typed.
  - apply set_calls_typed; [exact T|]. intros w' Hw'. left.
    eapply list_elem_of_delete_inv, Hw'.
  - exact C.
Qed.

Lemma step_typed i s :
  Typed s -> Typed (step components Validator_validate Recursion_detect i s).
Proof.
  intros T. destruct i; cbn [step].
  - apply tick_typed, T.
  - apply settle_call_typed, T.
  - apply (abort_t s T I).
  - apply (process_t Validator_validate Recursion_detect data startId args s T I).
Qed.

Lemma exec_typed l s :
  Typed s -> Typed (exec components Validator_validate Recursion_detect l s).
Proof.
  revert s. induction l as [|i l IH]; intros s T; simpl; [exact T|].
  apply IH, step_typed, T.
Qed.

(** A caller's node object has no [outputData] and no [unlockPool] yet. *)
Definition fresh_node (nd : Node) : Prop := outputData nd = None /\ unlockPool nd = [].

Lemma Engine_typed ds ms ns ss : Forall fresh_node ns -> Typed (Engine ds ms ns ss).
Proof.
  intros F. rewrite Forall_forall in F.
  split; [intros q pr Hq; destruct q; discriminate|].
  split; [constructor|]. split; [constructor|]. split; [constructor|].
  split; [intros r; discriminate|].
  cbn. intros n nd Hn. apply list_elem_of_lookup_2 in Hn. destruct (F _ Hn) as (Ho & Hp).
  split; [rewrite Hp; constructor|]. intros w Hw. congruence.
Qed.

End TypedRuns.

(** * What every run of a fresh engine keeps *)

(** The graph [{nodes: {1: num, 2: add}}]; the socket [a] of node 2 has two
    connections to node 1, the second one to an output that node 1 does not
    write. *)
Definition two_nodes : Machine :=
  Engine [{| d_nodes := 0 |}] [[("1", 0); ("2", 1)]]
    [example_node "num" 0 0; example_node "add" 1 0]
    [[]; [("a", [{| c_node := "1"; c_output := "num" |};
                 {| c_node := "1"; c_output := "nope" |}])]].

(** [inputData] as [extractInputData(node)] builds it: an object with the keys
    of [node.inputs], in their order; under each key the array that the
    [Promise.all] call [a] of that key resolved to, where the elements of [a]
    are the promises of the callbacks, one per connection of the socket in the
    declared order, and value [i] is what callback [i] returned. *)
Definition follows_connections (s : Machine) (node : nloc) (inputData : value) : Prop :=
  exists nd io obj,
    nodes s !! node = Some nd /\ socks s !! inputs nd = Some io /\
    inputData = VObj obj /\ map fst obj = map fst io /\
    forall key x, (key, x) ∈ obj ->
      exists conns vs a elems,
        assoc key io = Some conns /\ x = VArr vs /\ length vs = length conns /\
        origin_of s a = Some (O_all (All_extract node key) elems) /\
        promise_state s a = Some (Fulfilled (VArr vs)) /\
        Forall2 (fun e c => origin_of s e = Some (O_extract_conn c)) elems conns /\
        Forall2 (fun e v => promise_state s e = Some (Fulfilled v)) elems vs.

Lemma good_inputs_follow s node v : good_inputs s node v -> follows_connections s node v.
Proof.
  intros (obj & -> & io & S & K & F). unfold sockets_of in S.
  destruct (nodes s !! node) as [nd|] eqn:Hnd; [|discriminate].
  exists nd, io, obj. split; [exact Hnd|]. split; [exact S|]. split; [reflexivity|].
  split; [rewrite K, app_nil_r; reflexivity|].
  intros key x Hx. rewrite Forall_forall in F.
  destruct (F _ Hx) as (conns & vs & a & elems & A & B & O & Fa & C & Fv). cbn in A, B, O.
  exists conns, vs, a, elems. repeat (split; [assumption|]).
  split; [|split; [exact O|split; [exact Fa|split; [exact C|exact Fv]]]].
  apply Forall2_length in C. apply Forall2_length in Fv. congruence.
Qed.


Lemma fresh_example_nodes : Forall fresh_node [example_node "num" 0 0; example_node "add" 1 0].
Proof. repeat constructor. Qed.


Lemma process_returns_its_promise Validator_validate Recursion_detect data startId args st :
  let r := process Validator_validate Recursion_detect data startId args st in
  r.1 = length (promises st) /\ origin_of r.2 r.1 = Some O_process.
Proof.
  cbv zeta.
  assert ((process Validator_validate Recursion_detect data startId args st).1
          = length (promises st)) as E.
  { unfold process. rewrite !bind_eq. cbn [new_promise fst snd].
    repeat (case_match; rewrite ?bind_eq; cbn [ret fst snd]); reflexivity. }
  split; [exact E|]. rewrite E.
  unfold process. rewrite bind_eq.
  match goal with |- origin_of (?f ?a ?s1).2 _ = _ =>
    assert (mono (f a)) as Mo by mono_tac;
    apply (origin_of_extends s1 _ _ _ (Mo s1))
  end.
  exact (new_promise_origin O_process [] st).
Qed.

(** X2. [process] labels the promise it returns [O_process], and in every
    state a fresh engine reaches such a promise, once fulfilled, holds
    undefined (the call was not admitted), "success" or "aborted": the value
    'error' that [throwError] returns never reaches the caller of [process]. *)
Theorem process_never_resolves_to_error components Validator_validate Recursion_detect
    ds ms ns ss (l : list Input) (p : pid) (v : value) :
  Forall fresh_node ns ->
  let s := exec components Validator_validate Recursion_detect l (Engine ds ms ns ss) in
  origin_of s p = Some O_process ->
  promise_state s p = Some (Fulfilled v) ->
  (forall data startId args st,
     let r := process Validator_validate Recursion_detect data startId args st in
     r.1 = length (promises st) /\ origin_of r.2 r.1 = Some O_process) /\
  (v = VUndef \/ v = VStr "success" \/ v = VStr "aborted").
Proof.
  intros F s O H. split; [intros; apply process_returns_its_promise|].
  pose proof (exec_typed components Validator_validate Recursion_detect l _
                (Engine_typed ds ms ns ss F)) as (T1 & _).
  fold s in T1. unfold origin_of, promise_state in *.
  destruct (promises s !! p) as [pr|] eqn:Hp; [|discriminate]. cbn in O, H.
  destruct (T1 p pr Hp) as (V & _).
  assert (p_origin pr = O_process) as Eo by congruence.
  assert (p_state pr = Fulfilled v) as Es by congruence.
  specialize (V v Es). rewrite Eo in V. exact V.
Qed.

Lemma process_never_resolves_to_error_witness :
  let s := exec example_components refuse no_cycle
             (Call_process 0 IdNull [] :: repeat Tick 12)
             (Engine [{| d_nodes := 0 |}] [[("1", 0)]] [example_node "num" 0 0] [[]]) in
  Forall fresh_node [example_node "num" 0 0] /\
  origin_of s 0 = Some O_process /\
  promise_state s 0 = Some (Fulfilled (VStr "aborted")) /\
  (VStr "aborted" = VUndef \/ VStr "aborted" = VStr "success" \/ VStr "aborted" = VStr "aborted").
Proof.
  intros s.
  assert (Forall fresh_node [example_node "num" 0 0]) as F by (repeat constructor).
  assert (origin_of s 0 = Some O_process) as O by (vm_compute; reflexivity).
  assert (promise_state s 0 = Some (Fulfilled (VStr "aborted"))) as H by (vm_compute; reflexivity).
  split; [exact F|]. split; [exact O|]. split; [exact H|].
  exact (proj2 (process_never_resolves_to_error example_components refuse no_cycle
           [{| d_nodes := 0 |}] [[("1", 0)]] [example_node "num" 0 0] [[]]
           (Call_process 0 IdNull [] :: repeat Tick 12) 0 (VStr "aborted") F O H)).
Defined.

(** X3. In every state a fresh engine reaches, a fulfilled promise of
    [processWorker] holds the outputs container, an object, whatever the
    worker did; and a fulfilled promise of [processNode] holds null, undefined
    or such an object. *)
Theorem processNode_resolves_to_the_outputs components Validator_validate Recursion_detect
    ds ms ns ss (l : list Input) (p : pid) (v : value) :
  Forall fresh_node ns ->
  let s := exec components Validator_validate Recursion_detect l (Engine ds ms ns ss) in
  promise_state s p = Some (Fulfilled v) ->
  (forall n, origin_of s p = Some (O_processWorker n) -> exists written, v = VObj written) /\
  (forall node, origin_of s p = Some (O_processNode node) ->
     v = VNull \/ v = VUndef \/ exists written, v = VObj written).
Proof.
  intros F s H.
  pose proof (exec_typed components Validator_validate Recursion_detect l _
                (Engine_typed ds ms ns ss F)) as (T1 & _).
  fold s in T1. unfold origin_of, promise_state in *.
  destruct (promises s !! p) as [pr|] eqn:Hp; [|discriminate]. cbn in H |- *.
  destruct (T1 p pr Hp) as (V & _).
  assert (p_state pr = Fulfilled v) as Es by congruence. specialize (V v Es).
  split; intros n O; assert (p_origin pr = _) as Eo by (injection O as O; exact O);
    rewrite Eo in V; exact V.
Qed.

Lemma processNode_resolves_to_the_outputs_witness :
  let s := exec example_components accept no_cycle
             (Call_process 0 IdNull [] :: repeat Tick 5 ++ Settle 0 :: repeat Tick 7)
             (Engine [{| d_nodes := 0 |}] [[("1", 0)]] [example_node "num" 0 0] [[]]) in
  Forall fresh_node [example_node "num" 0 0] /\
  promise_state s 7 = Some (Fulfilled (VObj [("num", VNum 1)])) /\
  (forall n, origin_of s 7 = Some (O_processWorker n) ->
     exists written, VObj [("num", VNum 1)] = VObj written).
Proof.
  intros s.
  assert (Forall fresh_node [example_node "num" 0 0]) as F by (repeat constructor).
  assert (promise_state s 7 = Some (Fulfilled (VObj [("num", VNum 1)]))) as H
    by (vm_compute; reflexivity).
  split; [exact F|]. split; [exact H|].
  exact (proj1 (processNode_resolves_to_the_outputs example_components accept no_cycle
           [{| d_nodes := 0 |}] [[("1", 0)]] [example_node "num" 0 0] [[]]
           (Call_process 0 IdNull [] :: repeat Tick 5 ++ Settle 0 :: repeat Tick 7)
           7 (VObj [("num", VNum 1)]) F H)).
Defined.

(** X4. Whatever happens to an engine, in any state: no socket changes, no
    node object is renamed or given other sockets, events are only added to the
    trace, and a promise keeps its origin and, once settled, its state. *)
Theorem a_run_only_adds components Validator_validate Recursion_detect
    (l : list Input) (s : Machine) :
  let s' := exec components Validator_validate Recursion_detect l s in
  socks s' = socks s /\
  (exists events, trace s' = (trace s ++ events)%list) /\
  (forall n nd, nodes s !! n = Some nd ->
     exists nd', nodes s' !! n = Some nd' /\ node_name nd' = node_name nd /\
                 inputs nd' = inputs nd /\ outputs nd' = outputs nd) /\
  (forall p pr, promises s !! p = Some pr ->
     exists pr', promises s' !! p = Some pr' /\ p_origin pr' = p_origin pr /\
                 (forall v, p_state pr = Fulfilled v -> p_state pr' = Fulfilled v) /\
                 (forall e, p_state pr = Rejected e -> p_state pr' = Rejected e)).
Proof.
  intros s'.
  destruct (exec_mono components Validator_validate Recursion_detect l s) as (P & N & S & T).
  fold s' in P, N, S, T.
  split; [exact S|]. split; [exact T|]. split; [exact N|exact P].
Qed.

(** * Calls on their own *)

Lemma lookup_second (ps : list Promise) (a b : Promise) :
  ((ps ++ [a]) ++ [b])%list !! length ps = Some a.
Proof. rewrite lookup_app_l by (rewrite length_app; simpl; lia). apply lookup_new. Qed.

Lemma lookup_third (ps : list Promise) (a b : Promise) :
  ((ps ++ [a]) ++ [b])%list !! S (length ps) = Some b.
Proof.
  replace (S (length ps)) with (length (ps ++ [a])%list) by (rewrite length_app; simpl; lia).
  apply lookup_new.
Qed.

Lemma insert_second (ps : list Promise) (a b c : Promise) :
  <[length ps := c]> ((ps ++ [a]) ++ [b])%list = ((ps ++ [c]) ++ [b])%list.
Proof.
  rewrite insert_app_l by (rewrite length_app; simpl; lia). rewrite insert_new. reflexivity.
Qed.

Lemma insert_third (ps : list Promise) (a b c : Promise) :
  <[S (length ps) := c]> ((ps ++ [a]) ++ [b])%list = ((ps ++ [a]) ++ [c])%list.
Proof.
  replace (S (length ps)) with (length (ps ++ [a])%list) by (rewrite length_app; simpl; lia).
  apply insert_new.
Qed.

(** The event loop, one step at a time. *)
Lemma tick_head components j q s :
  queue s = j :: q -> tick components s = run_job components j (set_queue q s).
Proof. intros H. unfold tick. rewrite H. reflexivity. Qed.

Lemma then_fulfilled x r s pr v :
  promises s !! x = Some pr -> p_state pr = Fulfilled v ->
  then_ x r s = (tt, set_queue (queue s ++ [JReact r (Ok v)]) s).
Proof. intros H1 H2. unfold then_. rewrite H1, H2. reflexivity. Qed.

Lemma then_pending x r s pr rs :
  promises s !! x = Some pr -> p_state pr = Pending rs ->
  then_ x r s = (tt, set_promises (<[x := with_state (Pending (rs ++ [r])) pr]> (promises s)) s).
Proof. intros H1 H2. unfold then_. rewrite H1, H2. reflexivity. Qed.

Lemma settle_pending p out s pr rs :
  promises s !! p = Some pr -> p_state pr = Pending rs ->
  settle p out s
  = (tt, set_queue (queue s ++ map (fun r => JReact r out) rs)
           (set_promises (<[p := with_state (settled out) pr]> (promises s)) s)).
Proof. intros H1 H2. unfold settle. rewrite H1, H2. reflexivity. Qed.

Lemma settle_settled p out s pr :
  promises s !! p = Some pr -> (forall rs, p_state pr <> Pending rs) -> settle p out s = (tt, s).
Proof.
  intros H1 H2. unfold settle. rewrite H1. destruct (p_state pr) eqn:E; [|reflexivity..].
  exfalso. eapply H2. reflexivity.
Qed.

(** X5. [abort()] on an idle engine changes nothing but the promise store:
    the promise it returns is pending when the call returns and is fulfilled
    with undefined two microtasks later; the engine stays AVAILABLE. *)
Theorem abort_when_idle components (s : Machine) :
  this_state s = AVAILABLE ->
  queue s = [] ->
  let p := (abort s).1 in
  let s1 := (abort s).2 in
  let s2 := (tick components (tick components s1).2).2 in
  p = length (promises s) /\
  promise_state s1 p = Some (Pending []) /\
  promise_state s2 p = Some (Fulfilled VUndef) /\
  queue s2 = [] /\
  this_state s2 = AVAILABLE /\ this_onAbort s2 = this_onAbort s /\
  nodes s2 = nodes s /\ calls s2 = calls s /\ trace s2 = trace s.
Proof.
  intros Hs Hq p s1 s2.
  set (Pa := {| p_origin := O_abort; p_state := Pending []; p_values := [] |}).
  set (Pi := settled_promise O_abort_inner (Ok VUndef)).
  set (self := length (promises s)).
  assert (abort s = (self, set_queue [JThenable self (S self)]
                             (set_promises ((promises s ++ [Pa]) ++ [Pi]) s))) as E.
  { rewrite abort_eq, Hs. cbv zeta. unfold fulfil. rewrite settle_new.
    cbn [new_promise fst snd promises set_promises queue]. rewrite Hq, length_app.
    cbn [length app]. rewrite Nat.add_1_r. reflexivity. }
  assert (s2 = set_queue [] (set_promises ((promises s ++ [with_state (Fulfilled VUndef) Pa])
                                             ++ [Pi]) s)) as E2.
  { unfold s2, s1. rewrite E. cbn [snd].
    match goal with |- context [tick components ?t] =>
      lazymatch t with set_queue _ _ =>
        rewrite (tick_head components (JThenable self (S self)) [] t eq_refl) end end.
    cbn [run_job].
    erewrite then_fulfilled; [|apply lookup_third|reflexivity]. cbn [snd].
    match goal with |- context [tick components ?t] =>
      rewrite (tick_head components (JReact (RAdopt self) (Ok VUndef)) [] t eq_refl) end.
    cbn [run_job].
    erewrite settle_pending; [|apply lookup_second|reflexivity].
    cbn [snd promises set_queue set_promises queue map app settled].
    unfold self. rewrite insert_second. reflexivity. }
  rewrite E2. unfold s1, p. rewrite E. cbn [fst snd]. unfold promise_state.
  cbn [promises set_queue set_promises queue this_state this_onAbort nodes calls trace].
  unfold self. rewrite !lookup_second. repeat split; assumption.
Qed.

Lemma abort_when_idle_witness :
  let s := Engine [] [] [] [] in
  this_state s = AVAILABLE /\ queue s = [] /\
  promise_state (tick example_components (tick example_components (abort s).2).2).2 (abort s).1
  = Some (Fulfilled VUndef).
Proof.
  intros s. split; [reflexivity|]. split; [reflexivity|].
  exact (proj1 (proj2 (proj2
    (abort_when_idle example_components (Engine [] [] [] []) eq_refl eq_refl)))).
Defined.

Lemma lookup_two {A} (l : list A) (x y : A) p :
  p < length l -> ((l ++ [x]) ++ [y])%list !! p = l !! p.
Proof. intros H. rewrite !lookup_app_l; [reflexivity|exact H|rewrite length_app; lia]. Qed.

(** X6. [abort()] while a run is in progress leaves the engine in state ABORT
    with the resolver of a new pending promise as [onAbort], and the promise
    it returns is pending. In state PROCESSED nothing else changes. In state
    ABORT the resolver of the earlier [abort()] is called first: the earlier
    call's promise is released by the later call, not by the end of the run. *)
Theorem abort_during_a_run (s : Machine) :
  this_state s <> AVAILABLE ->
  (forall r, this_onAbort s = Some r -> r < length (promises s)) ->
  let p := (abort s).1 in
  let s1 := (abort s).2 in
  let inner := S (length (promises s)) in
  p = length (promises s) /\
  this_state s1 = ABORT /\ this_onAbort s1 = Some inner /\
  promise_state s1 p = Some (Pending []) /\ promise_state s1 inner = Some (Pending []) /\
  nodes s1 = nodes s /\ calls s1 = calls s /\ trace s1 = trace s /\
  (this_state s = PROCESSED ->
     queue s1 = (queue s ++ [JThenable p inner])%list /\
     forall q, q < length (promises s) -> promise_state s1 q = promise_state s q) /\
  (this_state s = ABORT ->
     forall r rs, this_onAbort s = Some r -> promise_state s r = Some (Pending rs) ->
       promise_state s1 r = Some (Fulfilled VUndef) /\
       queue s1 = (queue s ++ map (fun x => JReact x (Ok VUndef)) rs
                     ++ [JThenable p inner])%list).
Proof.
  intros Hs Hr p s1 inner.
  set (Pa := {| p_origin := O_abort; p_state := Pending []; p_values := [] |}).
  set (Pi := {| p_origin := O_abort_inner; p_state := Pending []; p_values := [] |}).
  set (s2 := set_promises ((promises s ++ [Pa]) ++ [Pi]) s).
  assert (forall q, q < length (promises s) -> promises s2 !! q = promises s !! q) as Old.
  { intros q Hq. unfold s2. cbn [promises set_promises]. apply lookup_two, Hq. }
  assert (promise_state s2 (length (promises s)) = Some (Pending []) /\
          promise_state s2 inner = Some (Pending [])) as (Hp & Hi).
  { unfold promise_state, s2, inner. cbn [promises set_promises].
    rewrite lookup_second, lookup_third. split; reflexivity. }
  pose proof (abort_eq s) as E. cbv zeta in E.
  change (new_promise O_abort_inner [] (new_promise O_abort [] s).2).2 with s2 in E.
  change (new_promise O_abort [] s).1 with (length (promises s)) in E.
  assert ((new_promise O_abort_inner [] (new_promise O_abort [] s).2).1 = inner) as Ei.
  { cbn. rewrite length_app. cbn. lia. }
  rewrite Ei in E. unfold s1, p. rewrite E. cbn [fst snd]. clear E Ei.
  split; [reflexivity|].
  destruct (this_state s) eqn:St; [congruence| |].
  - (* PROCESSED *)
    rewrite !promise_state_set_queue, !promise_state_set_onAbort, !promise_state_set_state.
    cbn [this_state this_onAbort queue nodes calls trace set_queue set_onAbort set_state].
    repeat split; try assumption; try discriminate.
    intros q Hq. rewrite !promise_state_set_queue, !promise_state_set_onAbort,
      !promise_state_set_state. unfold promise_state. rewrite Old by exact Hq. reflexivity.
  - (* ABORT *)
    rewrite call_onAbort_eq. change (this_onAbort s2) with (this_onAbort s).
    rewrite !promise_state_set_queue, !promise_state_set_onAbort.
    cbn [this_state this_onAbort queue nodes calls trace set_queue set_onAbort].
    destruct (this_onAbort s) as [r|] eqn:Er.
    + specialize (Hr r eq_refl).
      destruct (engine_fields_eq _ _ (settle_engine_fields r (Ok VUndef) s2))
        as (B1 & B2 & B3 & B4 & B5).
      fold (fulfil r VUndef s2) in *. rewrite B1, B4, B5, B3.
      unfold fulfil. rewrite !settle_promise_state, Hp, Hi.
      repeat case_decide; try (unfold inner in *; lia).
      split; [exact St|]. do 6 (split; [reflexivity|]). split; [discriminate|].
      intros _ r' rs [= <-] Hrs. rewrite !promise_state_set_queue, !promise_state_set_onAbort.
      rewrite settle_promise_state.
      assert (promise_state s2 r = Some (Pending rs)) as Hrs2
        by (unfold promise_state in *; rewrite Old by exact Hr; exact Hrs).
      rewrite Hrs2. case_decide; [|congruence]. split; [reflexivity|].
      unfold promise_state in Hrs2. destruct (promises s2 !! r) as [pr|] eqn:Epr; [|discriminate].
      cbn in Hrs2. injection Hrs2 as Hrs2. erewrite settle_pending; [|exact Epr|exact Hrs2].
      cbn [snd queue set_queue set_promises]. rewrite <- app_assoc. reflexivity.
    + split; [exact St|]. split; [reflexivity|]. do 2 (split; [assumption|]).
      do 3 (split; [reflexivity|]). split; [discriminate|]. intros _ r rs [=].
Qed.

Lemma abort_during_a_run_witness :
  let s := set_state PROCESSED (Engine [] [] [] []) in
  this_state s <> AVAILABLE /\
  (forall r, this_onAbort s = Some r -> r < length (promises s)) /\
  this_state (abort s).2 = ABORT.
Proof.
  intros s.
  assert (this_state s <> AVAILABLE) as H1 by discriminate.
  assert (forall r, this_onAbort s = Some r -> r < length (promises s)) as H2
    by (intros r; discriminate).
  split; [exact H1|]. split; [exact H2|].
  exact (proj1 (proj2 (abort_during_a_run (set_state PROCESSED (Engine [] [] [] [])) H1 H2))).
Defined.

Lemma processDone_eq s :
  processDone s
  = (negb (State_eqb (this_state s) ABORT),
     if State_eqb (this_state s) ABORT
     then set_onAbort None (call_onAbort (set_state AVAILABLE s)).2
     else set_state AVAILABLE s).
Proof.
  unfold processDone. rewrite bind_get, !bind_eq. cbn [modify fst snd ret].
  destruct (State_eqb (this_state s) ABORT); cbn [negb]; [|reflexivity].
  rewrite !bind_eq. reflexivity.
Qed.

(** [processDone()] followed by [return f(success)]. *)
Lemma processDone_and_return (f : bool -> value) (self : pid) (s : Machine) :
  let s' := (bind processDone (fun success => fulfil self (f success)) s).2 in
  this_state s' = AVAILABLE /\ nodes s' = nodes s /\ calls s' = calls s /\ trace s' = trace s /\
  (this_state s <> ABORT ->
     this_onAbort s' = this_onAbort s /\
     (forall q, q <> self -> promise_state s' q = promise_state s q) /\
     forall rs, promise_state s self = Some (Pending rs) ->
       promise_state s' self = Some (Fulfilled (f true))) /\
  (this_state s = ABORT ->
     this_onAbort s' = None /\
     (forall r rs, this_onAbort s = Some r -> promise_state s r = Some (Pending rs) ->
        promise_state s' r = Some (Fulfilled VUndef)) /\
     forall rs, promise_state s self = Some (Pending rs) -> this_onAbort s <> Some self ->
       promise_state s' self = Some (Fulfilled (f false))).
Proof.
  cbv zeta. rewrite bind_eq, processDone_eq. cbn [fst snd].
  destruct (this_state s) eqn:St; cbn [State_eqb negb].
  - (* AVAILABLE *)
    destruct (engine_fields_eq _ _ (settle_engine_fields self (Ok (f true))
                                      (set_state AVAILABLE s))) as (B1 & B2 & B3 & B4 & B5).
    fold (fulfil self (f true) (set_state AVAILABLE s)) in *.
    rewrite B1, B2, B3, B4, B5. do 4 (split; [reflexivity|]). split; [|discriminate].
    intros _. split; [reflexivity|]. unfold fulfil. split.
    + intros q Hq. rewrite settle_promise_state, promise_state_set_state.
      destruct (promise_state s q) as [[]|]; try reflexivity. case_decide; congruence.
    + intros rs H. rewrite settle_promise_state, promise_state_set_state, H.
      case_decide; [reflexivity|congruence].
  - (* PROCESSED *)
    destruct (engine_fields_eq _ _ (settle_engine_fields self (Ok (f true))
                                      (set_state AVAILABLE s))) as (B1 & B2 & B3 & B4 & B5).
    fold (fulfil self (f true) (set_state AVAILABLE s)) in *.
    rewrite B1, B2, B3, B4, B5. do 4 (split; [reflexivity|]). split; [|discriminate].
    intros _. split; [reflexivity|]. unfold fulfil. split.
    + intros q Hq. rewrite settle_promise_state, promise_state_set_state.
      destruct (promise_state s q) as [[]|]; try reflexivity. case_decide; congruence.
    + intros rs H. rewrite settle_promise_state, promise_state_set_state, H.
      case_decide; [reflexivity|congruence].
  - (* ABORT *)
    rewrite call_onAbort_eq. change (this_onAbort (set_state AVAILABLE s)) with (this_onAbort s).
    set (s1 := match this_onAbort s with
               | Some r => (fulfil r VUndef (set_state AVAILABLE s)).2
               | None => set_state AVAILABLE s
               end).
    assert (this_state s1 = AVAILABLE /\ nodes s1 = nodes s /\ calls s1 = calls s /\
            trace s1 = trace s) as (C1 & C2 & C3 & C4).
    { unfold s1. destruct (this_onAbort s) as [r|]; [|repeat split].
      destruct (engine_fields_eq _ _ (settle_engine_fields r (Ok VUndef) (set_state AVAILABLE s)))
        as (B1 & B2 & B3 & B4 & B5).
      fold (fulfil r VUndef (set_state AVAILABLE s)) in *. rewrite B1, B3, B4, B5.
      repeat split. }
    destruct (engine_fields_eq _ _ (settle_engine_fields self (Ok (f false))
                                      (set_onAbort None s1))) as (B1 & B2 & B3 & B4 & B5).
    fold (fulfil self (f false) (set_onAbort None s1)) in *.
    rewrite B1, B2, B3, B4, B5.
    cbn [this_state this_onAbort nodes calls trace set_onAbort].
    do 4 (split; [assumption|]). split; [congruence|]. intros _. split; [reflexivity|].
    unfold fulfil. split.
    + intros r rs Hr H. rewrite settle_promise_state, promise_state_set_onAbort.
      unfold s1. rewrite Hr. unfold fulfil. rewrite settle_promise_state, promise_state_set_state, H.
      case_decide; [|congruence]. cbn. reflexivity.
    + intros rs H Hne. rewrite settle_promise_state, promise_state_set_onAbort.
      assert (promise_state s1 self = Some (Pending rs)) as H1.
      { unfold s1. destruct (this_onAbort s) as [r|]; [|exact H].
        unfold fulfil. rewrite settle_promise_state, promise_state_set_state, H.
        case_decide; congruence. }
      rewrite H1. case_decide; [reflexivity|congruence].
Qed.


(** X7. The last step of a run, [return this.processDone() ? 'success' :
    'aborted'], always leaves the engine AVAILABLE and touches no node, worker
    call or event. Outside state ABORT the run's promise is fulfilled with
    "success" and [onAbort] stays. In state ABORT the resolver held by
    [onAbort] is called, so the promise of the pending [abort()] is released
    exactly here, [onAbort] is reset, and the run's promise is fulfilled with
    "aborted". *)
Theorem the_end_of_a_run components (self : pid) (v : value) (s : Machine) :
  let s' := (resume components (K_process_unreachable self) (Ok v) s).2 in
  this_state s' = AVAILABLE /\ nodes s' = nodes s /\ calls s' = calls s /\ trace s' = trace s /\
  (this_state s <> ABORT ->
     this_onAbort s' = this_onAbort s /\
     (forall q, q <> self -> promise_state s' q = promise_state s q) /\
     forall rs, promise_state s self = Some (Pending rs) ->
       promise_state s' self = Some (Fulfilled (VStr "success"))) /\
  (this_state s = ABORT ->
     this_onAbort s' = None /\
     (forall r rs, this_onAbort s = Some r -> promise_state s r = Some (Pending rs) ->
        promise_state s' r = Some (Fulfilled VUndef)) /\
     forall rs, promise_state s self = Some (Pending rs) -> this_onAbort s <> Some self ->
       promise_state s' self = Some (Fulfilled (VStr "aborted"))).
Proof.
  exact (processDone_and_return (fun success => VStr (if success then "success" else "aborted"))
           self s).
Qed.

(** X14. [throwError], once [await this.abort()] lets it go on: it emits the
    event error with its message and data, ends the run with [processDone()]
    (the engine is AVAILABLE again, and a pending [abort()] is released), and
    its promise is fulfilled with 'error'. *)
Theorem throwError_ends_the_run components (message data : value) (self : pid) (v : value)
    (s : Machine) :
  let s' := (resume components (K_throwError message data self) (Ok v) s).2 in
  trace s' = (trace s ++ [Trigger_error message data])%list /\
  this_state s' = AVAILABLE /\ nodes s' = nodes s /\ calls s' = calls s /\
  (this_state s <> ABORT ->
     this_onAbort s' = this_onAbort s /\
     forall rs, promise_state s self = Some (Pending rs) ->
       promise_state s' self = Some (Fulfilled (VStr "error"))) /\
  (this_state s = ABORT ->
     this_onAbort s' = None /\
     (forall r rs, this_onAbort s = Some r -> promise_state s r = Some (Pending rs) ->
        promise_state s' r = Some (Fulfilled VUndef)) /\
     forall rs, promise_state s self = Some (Pending rs) -> this_onAbort s <> Some self ->
       promise_state s' self = Some (Fulfilled (VStr "error"))).
Proof.
  cbv zeta. cbn [resume]. rewrite bind_eq. cbn [emit modify fst snd].
  set (s0 := set_trace (trace s ++ [Trigger_error message data]) s).
  destruct (processDone_and_return (fun _ => VStr "error") self s0)
    as (D1 & D2 & D3 & D4 & D5 & D6).
  cbv beta in D5, D6.
  split; [exact D4|]. split; [exact D1|]. split; [exact D2|]. split; [exact D3|]. split.
  - intros H. destruct (D5 H) as (E1 & _ & E3). split; [exact E1|exact E3].
  - intros H. exact (D6 H).
Qed.

(** Calling every resolver of a list. *)
Lemma release_spec l s :
  let s' := (mfor (fun a => fulfil a VUndef) l s).2 in
  engine_fields s' = engine_fields s /\
  forall q, promise_state s' q =
            match promise_state s q with
            | Some (Pending rs) => if decide (q ∈ l) then Some (Fulfilled VUndef)
                                   else Some (Pending rs)
            | x => x
            end.
Proof.
  cbv zeta. revert s. induction l as [|a l IH]; intros s; cbn [mfor].
  - cbn [ret snd]. split; [reflexivity|]. intros q.
    destruct (promise_state s q) as [[]|]; reflexivity.
  - rewrite bind_eq. destruct (IH (fulfil a VUndef s).2) as (F & P). split.
    + rewrite F. apply (settle_engine_fields a (Ok VUndef) s).
    + intros q. rewrite P. unfold fulfil. rewrite settle_promise_state.
      destruct (promise_state s q) as [[rs|v|e]|]; try reflexivity.
      destruct (decide (q = a)) as [->|Hne].
      * cbn. case_decide as H; [reflexivity|]. exfalso. apply H. left.
      * case_decide as H1; case_decide as H2; try reflexivity.
        -- exfalso. apply H2. right. exact H1.
        -- exfalso. apply elem_of_cons in H2. destruct H2; [congruence|contradiction].
Qed.

Lemma write_node_at n f s nd :
  nodes s !! n = Some nd -> nodes (write_node n f s).2 !! n = Some (f nd).
Proof. intros H. unfold write_node. cbn. rewrite list_lookup_alter_eq, H. reflexivity. Qed.

(** X8. [lock(node)] followed by [unlock(node)] leaves no caller waiting:
    the node is not busy, its [unlockPool] is empty, the resolver that [lock]
    made and every resolver that was waiting in the pool have been called,
    and [outputData] and the rest of the node are as before. [lock] alone
    makes the caller wait exactly when the node was busy and had no
    [outputData]. *)
Theorem lock_then_unlock (n : nloc) (nd : Node) (s : Machine) :
  nodes s !! n = Some nd ->
  let inner := S (length (promises s)) in
  let s1 := (lock n s).2 in
  let s2 := (unlock n s1).2 in
  nodes s1 !! n
  = Some (set_busy true
            (if busy nd && negb (defined (outputData nd))
             then set_unlockPool (unlockPool nd ++ [inner]) nd else nd)) /\
  promise_state s1 inner
  = Some (if busy nd && negb (defined (outputData nd)) then Pending [] else Fulfilled VUndef) /\
  nodes s2 !! n = Some (set_busy false (set_unlockPool [] nd)) /\
  promise_state s2 inner = Some (Fulfilled VUndef) /\
  (forall a rs, a ∈ unlockPool nd -> promise_state s a = Some (Pending rs) ->
     promise_state s2 a = Some (Fulfilled VUndef)) /\
  this_state s2 = this_state s /\ calls s2 = calls s /\ trace s2 = trace s.
Proof.
  intros Hnd inner s1 s2.
  set (Pl := {| p_origin := O_lock n; p_state := Pending []; p_values := [] |}).
  set (Pi := {| p_origin := O_lock_inner n; p_state := Pending []; p_values := [] |}).
  set (sa := set_promises ((promises s ++ [Pl]) ++ [Pi]) s).
  assert (promise_state sa inner = Some (Pending [])) as Hi.
  { unfold promise_state, sa, inner. cbn [promises set_promises]. rewrite lookup_third.
    reflexivity. }
  assert (forall q, q < length (promises s) -> promise_state sa q = promise_state s q) as Old.
  { intros q Hq. unfold promise_state, sa. cbn [promises set_promises].
    rewrite lookup_two by exact Hq. reflexivity. }
  (* lock *)
  set (sb := if busy nd && negb (defined (outputData nd))
             then (write_node n (set_unlockPool (unlockPool nd ++ [inner])) sa).2
             else (fulfil inner VUndef sa).2).
  assert (s1 = set_queue (queue (write_node n (set_busy true) sb).2
                          ++ [JThenable (length (promises s)) inner])
                 (write_node n (set_busy true) sb).2) as E1.
  { unfold s1, lock. rewrite !bind_eq. cbn [new_promise read_node ret fst snd nodes set_promises promises].
    rewrite Hnd. cbn [default]. change (id nd) with nd.
    rewrite !length_app. cbn [length]. rewrite !Nat.add_1_r.
    unfold sb. destruct (busy nd && negb (defined (outputData nd))); reflexivity. }
  assert (nodes sb !! n = Some (if busy nd && negb (defined (outputData nd))
                                then set_unlockPool (unlockPool nd ++ [inner]) nd else nd) /\
          promise_state sb inner
          = Some (if busy nd && negb (defined (outputData nd)) then Pending [] else Fulfilled VUndef) /\
          (forall q, q < length (promises s) -> promise_state sb q = promise_state s q) /\
          this_state sb = this_state s /\ calls sb = calls s /\ trace sb = trace s) as
    (Nb & Pb & Ob & Fb1 & Fb2 & Fb3).
  { unfold sb. destruct (busy nd && negb (defined (outputData nd))).
    - split; [apply write_node_at; exact Hnd|]. split; [exact Hi|]. split; [exact Old|].
      repeat split.
    - destruct (engine_fields_eq _ _ (settle_engine_fields inner (Ok VUndef) sa))
        as (B1 & B2 & B3 & B4 & B5).
      fold (fulfil inner VUndef sa) in *. rewrite B1, B3, B4, B5.
      split; [exact Hnd|]. unfold fulfil. rewrite settle_promise_state, Hi.
      split; [case_decide; [reflexivity|congruence]|]. split; [|repeat split].
      intros q Hq. rewrite settle_promise_state, Old by exact Hq.
      destruct (promise_state s q) as [[]|]; try reflexivity.
      case_decide; [unfold inner in *; lia|reflexivity]. }
  assert (nodes s1 !! n = Some (set_busy true
            (if busy nd && negb (defined (outputData nd))
             then set_unlockPool (unlockPool nd ++ [inner]) nd else nd))) as N1.
  { rewrite E1. cbn [nodes set_queue]. apply write_node_at, Nb. }
  assert (forall q, promise_state s1 q = promise_state sb q) as P1.
  { intros q. rewrite E1. reflexivity. }
  split; [exact N1|]. split; [rewrite P1; exact Pb|].
  (* unlock *)
  set (nd1 := set_busy true (if busy nd && negb (defined (outputData nd))
                             then set_unlockPool (unlockPool nd ++ [inner]) nd else nd)) in *.
  assert (unlock n s1
          = (tt, (write_node n (set_busy false)
                    (write_node n (set_unlockPool [])
                       (mfor (fun a => fulfil a VUndef) (unlockPool nd1) s1).2).2).2)) as E2.
  { unfold unlock. rewrite bind_read_node, N1, !bind_eq. reflexivity. }
  destruct (release_spec (unlockPool nd1) s1) as (Fr & Pr). cbv zeta in Fr, Pr.
  set (sr := (mfor (fun a => fulfil a VUndef) (unlockPool nd1) s1).2) in *.
  destruct (engine_fields_eq _ _ Fr) as (R1 & R2 & R3 & R4 & R5).
  assert (forall q, promise_state s2 q = promise_state sr q) as P2.
  { intros q. unfold s2. rewrite E2. reflexivity. }
  assert (nodes s2 !! n = Some (set_busy false (set_unlockPool [] nd))) as N2.
  { unfold s2. rewrite E2. cbn [snd].
    erewrite write_node_at; [|apply write_node_at; rewrite R4; exact N1].
    unfold nd1. destruct (busy nd && negb (defined (outputData nd))); reflexivity. }
  split; [exact N2|].
  split.
  { rewrite P2, Pr, P1, Pb. unfold nd1.
    destruct (busy nd && negb (defined (outputData nd))); [|reflexivity].
    cbn [unlockPool set_busy set_unlockPool]. case_decide as H; [reflexivity|].
    exfalso. apply H. apply elem_of_app. right. left. }
  split.
  { intros a rs Ha Hp. rewrite P2, Pr, P1.
    assert (a < length (promises s)) as Hlt.
    { unfold promise_state in Hp. destruct (promises s !! a) eqn:E; [|discriminate].
      eapply lookup_lt_Some, E. }
    rewrite Ob by exact Hlt. rewrite Hp. case_decide as H; [reflexivity|].
    exfalso. apply H. unfold nd1.
    destruct (busy nd && negb (defined (outputData nd))); cbn [unlockPool set_busy set_unlockPool];
      [apply elem_of_app; left; exact Ha|exact Ha]. }
  unfold s2. rewrite E2. cbn [snd write_node modify this_state calls trace set_nodes].
  rewrite R1, R5, R3, E1. cbn [this_state calls trace set_queue write_node modify snd set_nodes].
  repeat split; assumption.
Qed.

Lemma lock_then_unlock_witness :
  let s := Engine [] [] [example_node "num" 0 0] [] in
  nodes s !! 0 = Some (example_node "num" 0 0) /\
  nodes (unlock 0 (lock 0 s).2).2 !! 0
  = Some (set_busy false (set_unlockPool [] (example_node "num" 0 0))).
Proof.
  intros s. split; [reflexivity|].
  exact (proj1 (proj2 (proj2
    (lock_then_unlock 0 (example_node "num" 0 0) (Engine [] [] [example_node "num" 0 0] [])
       eq_refl)))).
Defined.

(** X9. A node whose [name] has no registered component: [component.worker]
    raises inside the [try] of [processWorker], so no worker is called, the
    event warn carries the runtime's TypeError, [abort()] is requested, no node
    is touched, and the call's promise is fulfilled with the empty outputs
    container. *)
Theorem missing_component_is_caught components (node : nloc) (self : pid) (inputData : value)
    (s : Machine) :
  components (node_name (default empty_node (nodes s !! node))) = None ->
  let s' := (resume components (K_processWorker_inputs node self) (Ok inputData) s).2 in
  calls s' = calls s /\
  trace s' = (trace s ++ [Trigger_warn TypeError])%list /\
  this_state s' = abort_requested (this_state s) /\
  nodes s' = nodes s /\
  (forall rs, promise_state s self = Some (Pending rs) -> this_onAbort s <> Some self ->
     promise_state s' self = Some (Fulfilled (VObj []))) /\
  (forall p e, promise_state s' p = Some (Rejected e) -> promise_state s p = Some (Rejected e)).
Proof.
  intros Hc. cbv zeta. cbn [resume]. rewrite bind_read_node, bind_get, Hc. rewrite !bind_eq.
  destruct (abort_catch self s) as (A1 & A2 & A3 & A4 & A5 & A6).
  set (A := (abort s).2) in *. cbn [emit modify fst snd].
  set (A' := set_trace _ A).
  destruct (engine_fields_eq _ _ (settle_engine_fields self (Ok (VObj [])) A'))
    as (B1 & B2 & B3 & B4 & B5).
  fold (fulfil self (VObj []) A') in *. rewrite B1, B3, B4, B5. unfold A'. fields.
  split; [assumption|]. split; [rewrite A2; reflexivity|]. do 2 (split; [assumption|]). split.
  - intros rs H Hne. unfold fulfil. rewrite settle_promise_state, promise_state_set_trace.
    rewrite (A5 rs H Hne). case_decide; [reflexivity|congruence].
  - intros p e' H. apply A6. unfold fulfil in H. rewrite settle_promise_state in H.
    rewrite promise_state_set_trace in H.
    destruct (promise_state A p) as [[]|]; try case_decide; try discriminate; exact H.
Qed.

Lemma missing_component_is_caught_witness :
  let s := Engine [] [] [example_node "nothing" 0 0] [] in
  example_components (node_name (default empty_node (nodes s !! 0))) = None /\
  calls (resume example_components (K_processWorker_inputs 0 0) (Ok (VObj [])) s).2 = calls s.
Proof.
  intros s. split; [reflexivity|].
  exact (proj1 (missing_component_is_caught example_components 0 0 (VObj [])
                  (Engine [] [] [example_node "nothing" 0 0] []) eq_refl)).
Defined.

(** X10. While the engine is in state ABORT, [processNode] and
    [forwardProcess] return null at once for every argument, a missing node
    included: they create nothing but their own promise, take no lock and
    read no node, so the TypeError of [forwardProcess(undefined)] does not
    arise then. *)
Theorem an_aborting_engine_processes_nothing (node : option nloc) (s : Machine) :
  this_state s = ABORT ->
  processNode node s
  = (length (promises s),
     set_promises (promises s ++ [settled_promise (O_processNode node) (Ok VNull)]) s) /\
  forwardProcess node s
  = (length (promises s),
     set_promises (promises s ++ [settled_promise (O_forwardProcess node) (Ok VNull)]) s).
Proof.
  intros Hs. split.
  - unfold processNode. rewrite bind_eq, bind_get.
    change (this_state (new_promise (O_processNode node) [] s).2) with (this_state s).
    rewrite Hs. cbn [State_eqb]. destruct node; rewrite bind_eq; unfold ret, fulfil;
      rewrite settle_new; reflexivity.
  - unfold forwardProcess. rewrite bind_eq, bind_get.
    change (this_state (new_promise (O_forwardProcess node) [] s).2) with (this_state s).
    rewrite Hs. cbn [State_eqb]. rewrite bind_eq. unfold ret, fulfil.
    rewrite settle_new. reflexivity.
Qed.

Lemma an_aborting_engine_processes_nothing_witness :
  let s := set_state ABORT (Engine [] [] [] []) in
  this_state s = ABORT /\
  forwardProcess None s
  = (length (promises s),
     set_promises (promises s ++ [settled_promise (O_forwardProcess None) (Ok VNull)]) s).
Proof.
  intros s. split; [reflexivity|].
  exact (proj2 (an_aborting_engine_processes_nothing None
                  (set_state ABORT (Engine [] [] [] [])) eq_refl)).
Defined.

(** * Runs of graphs without nodes *)

Lemma lookup_app_new {A} (l : list A) (x : A) : (l ++ [x])%list !! length l = Some x.
Proof. rewrite lookup_app_r by lia. rewrite Nat.sub_diag. reflexivity. Qed.

Lemma lookup_insert_new {A} (l : list A) (x y : A) :
  <[length l := y]> (l ++ [x])%list !! length l = Some y.
Proof. rewrite list_lookup_insert_eq; [reflexivity|]. rewrite length_app. simpl. lia. Qed.

Section NoNodes.

Variable components : string -> option Worker.
Variable Validator_validate : Graph -> bool * value.
Variable Recursion_detect : Graph -> option value.

(** [validate] on a graph the validator accepts and the detector finds
    acyclic. *)
Lemma validate_accepts data s :
  (Validator_validate (snapshot s data)).1 = true ->
  Recursion_detect (snapshot s data) = None ->
  validate Validator_validate Recursion_detect data s
  = (length (promises s),
     set_promises (promises s ++ [settled_promise O_validate (Ok (VBool true))]) s).
Proof.
  intros H1 H2. unfold validate. rewrite bind_eq, bind_get.
  change (snapshot (new_promise O_validate [] s).2 data) with (snapshot s data).
  rewrite H1, H2. cbn [negb]. rewrite bind_eq. unfold ret, fulfil. rewrite settle_new.
  reflexivity.
Qed.

(** [copy] of a graph object that has no nodes, or of no graph object. *)
Lemma copy_nothing data s :
  default [] (node_entries s data) = [] ->
  copy data s
  = (length (datas s),
     set_datas (<[length (datas s) := {| d_nodes := length (maps s) |}]>
                  (datas s ++ [default {| d_nodes := length (maps s) |} (datas s !! data)])%list)
       (set_maps (maps s ++ [[]])%list s)).
Proof.
  intros H. unfold copy. rewrite bind_get, !bind_eq. rewrite H. reflexivity.
Qed.


End NoNodes.


(** * The sweep, settled workers and nodes without sockets *)

(** A sweep over nodes that all have their [outputData] starts nothing. *)
Lemma unreachable_next_skips (es : list (string * nloc)) (d : dloc) keys self s :
  this_data s = Some d -> node_entries s d = Some es ->
  (forall key, key ∈ keys ->
     exists n nd w, assoc key es = Some n /\ nodes s !! n = Some nd /\ outputData nd = Some w) ->
  unreachable_next keys self s = fulfil self VUndef s.
Proof.
  intros Hd He. induction keys as [|key rest IH]; intros H; [reflexivity|].
  destruct (H key) as (n & nd & w & H1 & H2 & H3); [left|].
  cbn [unreachable_next]. rewrite bind_eq. unfold lookup_node. rewrite Hd, He.
  cbn [option_map fst snd]. rewrite H1. rewrite bind_read_node, H2.
  cbn [default]. change (id nd) with nd. rewrite H3. apply IH.
  intros k Hk. apply H. right. exact Hk.
Qed.

(** X12. [processUnreachable] over a graph whose every node already has its
    [outputData]: no [processNode] is called and nothing is awaited; the one
    promise it makes is fulfilled with undefined when the call returns. *)
Theorem the_sweep_skips_processed_nodes (s : Machine) (d : dloc) (es : list (string * nloc)) :
  this_data s = Some d -> node_entries s d = Some es ->
  (forall key, key ∈ map fst es ->
     exists n nd w, assoc key es = Some n /\ nodes s !! n = Some nd /\ outputData nd = Some w) ->
  let p := (processUnreachable s).1 in
  let s' := (processUnreachable s).2 in
  p = length (promises s) /\
  promise_state s' p = Some (Fulfilled VUndef) /\
  length (promises s') = S (length (promises s)) /\
  queue s' = queue s /\ trace s' = trace s /\ nodes s' = nodes s /\
  this_state s' = this_state s.
Proof.
  intros Hd He H p s'. subst p s'. unfold processUnreachable.
  rewrite bind_eq. set (s1 := (new_promise O_processUnreachable [] s).2).
  change (new_promise O_processUnreachable [] s).1 with (length (promises s)).
  assert (node_keys s1 = (Some (map fst es), s1)) as K.
  { unfold node_keys. change (this_data s1) with (this_data s). rewrite Hd.
    change (node_entries s1 d) with (node_entries s d). rewrite He. reflexivity. }
  rewrite bind_eq, K. cbn [fst snd]. rewrite bind_eq.
  rewrite (unreachable_next_skips es d (map fst es) (length (promises s)) s1 Hd He H).
  pose proof (settle_new O_processUnreachable (Ok VUndef) s) as E.
  fold s1 in E. change (new_promise O_processUnreachable [] s).1 with (length (promises s)) in E.
  unfold fulfil. rewrite E. cbn [ret fst snd]. unfold promise_state.
  cbn [promises set_promises queue trace nodes this_state].
  rewrite lookup_new, length_app. cbn. repeat split; lia.
Qed.

Lemma the_sweep_skips_processed_nodes_witness :
  let nd := set_outputData (Some 0) (example_node "num" 0 0) in
  let s := set_data (Some 0) (Engine [{| d_nodes := 0 |}] [[("1", 0)]] [nd] [[]]) in
  promise_state (processUnreachable s).2 (processUnreachable s).1 = Some (Fulfilled VUndef) /\
  queue (processUnreachable s).2 = [].
Proof.
  intros nd s.
  assert (forall key, key ∈ map fst [("1", 0)] ->
            exists n nd' w, assoc key [("1", 0)] = Some n /\ nodes s !! n = Some nd' /\
                            outputData nd' = Some w) as H.
  { intros key Hk. cbn in Hk. apply list_elem_of_singleton in Hk. subst key.
    exists 0, nd, 0. repeat split. }
  pose proof (the_sweep_skips_processed_nodes s 0 [("1", 0)] eq_refl eq_refl H) as T.
  cbv zeta in T. destruct T as (_ & T2 & _ & T4 & _). split; [exact T2|exact T4].
Defined.


(** X15. A worker that returns normally: at the microtask after its call
    settles, the promise of its [processWorker] is fulfilled with the outputs
    the worker wrote; no event is emitted, no abort is requested and no node is
    touched. *)
Theorem a_returned_worker_resolves_processWorker components (i : nat) (w : WorkerCall)
    (rs : list reaction) (s : Machine) :
  calls s !! i = Some w -> w_raised w = None -> queue s = [] ->
  promise_state s (w_self w) = Some (Pending rs) ->
  let s' := (tick components (settle_call i s).2).2 in
  promise_state s' (w_self w) = Some (Fulfilled (VObj (w_written w))) /\
  queue s' = map (fun r => JReact r (Ok (VObj (w_written w)))) rs /\
  calls s' = delete i (calls s) /\
  this_state s' = this_state s /\ this_onAbort s' = this_onAbort s /\
  trace s' = trace s /\ nodes s' = nodes s.
Proof.
  intros Hw Hr Hq Hp. cbv zeta. unfold settle_call. rewrite Hw, Hr.
  unfold enqueue, modify. cbn [fst snd queue set_calls set_queue]. rewrite Hq.
  cbn [app]. erewrite tick_head by reflexivity. cbn [run_job resume].
  unfold promise_state in Hp. destruct (promises s !! w_self w) as [pr|] eqn:E; [|discriminate].
  cbn in Hp. injection Hp as Hp.
  unfold fulfil. erewrite settle_pending; [|cbn; exact E|exact Hp].
  cbn [fst snd]. unfold promise_state. cbn.
  rewrite list_lookup_insert_eq by (eapply lookup_lt_Some, E).
  repeat split.
Qed.

Lemma a_returned_worker_resolves_processWorker_witness :
  let w := {| w_node := 0; w_self := 0; w_written := [("num", VNum 1)]; w_raised := None |} in
  let s := set_calls [w] (new_promise (O_processWorker 0) [] (Engine [] [] [] [])).2 in
  promise_state (tick example_components (settle_call 0 s).2).2 0
  = Some (Fulfilled (VObj [("num", VNum 1)])).
Proof.
  intros w s.
  exact (proj1 (a_returned_worker_resolves_processWorker example_components 0 w [] s
                  eq_refl eq_refl eq_refl eq_refl)).
Defined.

(** ** A connection to a node that is not in the graph *)

Lemma processNode_absent (s : Machine) :
  processNode None s
  = (length (promises s),
     set_promises (promises s ++ [settled_promise (O_processNode None) (Ok VNull)]) s).
Proof.
  unfold processNode. rewrite bind_eq, bind_get, bind_eq. unfold fulfil.
  rewrite settle_new. reflexivity.
Qed.

Lemma extract_conn_dangling (c : Connection) (s : Machine) (d : dloc)
    (es : list (string * nloc)) :
  this_data s = Some d -> node_entries s d = Some es -> assoc (c_node c) es = None ->
  extract_conn c s
  = (length (promises s),
     set_queue (queue s ++ [JReact (RFrame (K_extract_conn c None (length (promises s))))
                              (Ok VNull)])
       (set_promises
          ((promises s ++ [{| p_origin := O_extract_conn c; p_state := Pending [];
                              p_values := [] |}])
             ++ [settled_promise (O_processNode None) (Ok VNull)]) s)).
Proof.
  intros Hd He Ha. unfold extract_conn. rewrite bind_eq.
  set (s1 := (new_promise (O_extract_conn c) [] s).2).
  change (new_promise (O_extract_conn c) [] s).1 with (length (promises s)).
  assert (lookup_node (c_node c) s1 = (Some None, s1)) as L.
  { unfold lookup_node. change (this_data s1) with (this_data s). rewrite Hd.
    change (node_entries s1 d) with (node_entries s d). rewrite He. cbn. rewrite Ha.
    reflexivity. }
  rewrite bind_eq, L. cbn [fst snd]. rewrite bind_eq, processNode_absent. cbn [fst snd].
  rewrite bind_eq. unfold await.
  erewrite then_fulfilled; [|cbn [promises set_promises]; apply lookup_new|reflexivity].
  cbn [ret fst snd]. unfold s1. cbn [new_promise snd promises set_promises queue].
  reflexivity.
Qed.

(** X16. An input connection whose source node is not in [data.nodes]:
    [processNode(undefined)] gives null, so one microtask after the callback
    of [extractInputData] was called it has asked for [abort()] and its
    promise is fulfilled with undefined. No event is emitted and no node is
    touched. *)
Theorem a_dangling_input_aborts components (c : Connection) (s : Machine) (d : dloc)
    (es : list (string * nloc)) :
  this_data s = Some d -> node_entries s d = Some es -> assoc (c_node c) es = None ->
  queue s = [] -> this_onAbort s <> Some (length (promises s)) ->
  let p := (extract_conn c s).1 in
  let s' := (tick components (extract_conn c s).2).2 in
  promise_state s' p = Some (Fulfilled VUndef) /\
  this_state s' = abort_requested (this_state s) /\
  trace s' = trace s /\ calls s' = calls s /\ nodes s' = nodes s.
Proof.
  intros Hd He Ha Hq Ho. cbv zeta. rewrite (extract_conn_dangling c s d es Hd He Ha).
  cbn [fst snd]. rewrite Hq. cbn [app]. erewrite tick_head by reflexivity.
  cbn [run_job resume truthy]. rewrite bind_eq.
  match goal with |- context [abort ?t] => set (sB := t) end.
  destruct (abort_catch (length (promises s)) sB) as (A1 & A2 & A3 & A4 & A5 & _).
  assert (promise_state sB (length (promises s)) = Some (Pending [])) as P.
  { unfold promise_state, sB. cbn [promises set_promises set_queue].
    rewrite lookup_second. reflexivity. }
  specialize (A5 [] P Ho).
  unfold fulfil. rewrite settle_promise_state, A5.
  destruct (decide (length (promises s) = length (promises s))) as [_|N]; [|contradiction].
  pose proof (settle_engine_fields (length (promises s)) (Ok VUndef) (abort sB).2) as F.
  apply engine_fields_eq in F. destruct F as (F1 & F2 & F3 & F4 & F5).
  split; [reflexivity|]. split; [rewrite F1; exact A1|].
  split; [rewrite F3; exact A2|]. split; [rewrite F5; exact A4|]. rewrite F4. exact A3.
Qed.

Lemma a_dangling_input_aborts_witness :
  let c := {| c_node := "9"; c_output := "a" |} in
  let s := set_state PROCESSED (set_data (Some 0)
             (Engine [{| d_nodes := 0 |}] [[("1", 0)]] [example_node "add" 0 0] [[]])) in
  promise_state (tick example_components (extract_conn c s).2).2 (extract_conn c s).1
  = Some (Fulfilled VUndef) /\
  this_state (tick example_components (extract_conn c s).2).2 = ABORT.
Proof.
  intros c s.
  assert (this_onAbort s <> Some (length (promises s))) as Ho by discriminate.
  pose proof (a_dangling_input_aborts example_components c s 0 [("1", 0)]
                eq_refl eq_refl eq_refl eq_refl Ho) as T.
  cbv zeta in T. destruct T as (T1 & T2 & _). split; [exact T1|exact T2].
Defined.

(** ** Nodes without sockets *)

Lemma Promise_all_nothing (site : all_site) (s : Machine) :
  Promise_all site [] s
  = (length (promises s),
     set_promises (promises s ++ [settled_promise (O_all site []) (Ok (VArr []))]) s).
Proof.
  unfold Promise_all. rewrite bind_eq, bind_eq. unfold fulfil.
  change (replicate (length []) None) with (@nil (option value)).
  rewrite settle_new. reflexivity.
Qed.

(** X17. [forwardProcess] on a node without output sockets, in an engine that
    is not aborting: [Promise.all] of no promise is fulfilled at once, so one
    microtask later the call's promise is fulfilled with the empty array.
    Nothing is processed. *)
Theorem forwarding_without_outputs components (n : nloc) (nd : Node) (s : Machine) :
  nodes s !! n = Some nd -> socks s !! outputs nd = Some [] ->
  this_state s <> ABORT -> queue s = [] ->
  let p := (forwardProcess (Some n) s).1 in
  let s' := (tick components (forwardProcess (Some n) s).2).2 in
  promise_state s' p = Some (Fulfilled (VArr [])) /\
  length (promises s') = 2 + length (promises s) /\
  queue s' = [] /\ trace s' = trace s /\ calls s' = calls s /\ nodes s' = nodes s /\
  this_state s' = this_state s.
Proof.
  intros Hn Hs Ha Hq. cbv zeta.
  set (Pself := {| p_origin := O_forwardProcess (Some n); p_state := Pending [];
                   p_values := [] |}).
  set (Pall := settled_promise (O_all (All_forward n) []) (Ok (VArr []))).
  assert (forwardProcess (Some n) s
          = (length (promises s),
             set_queue [JReact (RFrame (K_forwardProcess n (length (promises s))))
                          (Ok (VArr []))]
               (set_promises ((promises s ++ [Pself]) ++ [Pall]) s))) as E.
  { unfold forwardProcess. rewrite bind_eq, bind_get.
    set (s1 := (new_promise (O_forwardProcess (Some n)) [] s).2).
    change (this_state s1) with (this_state s).
    destruct (this_state s) eqn:St; try contradiction; cbn [State_eqb].
    all: assert (output_keys n s1 = (Some [], s1)) as K
        by (unfold output_keys; rewrite bind_read_node, bind_get;
            change (nodes s1) with (nodes s); rewrite Hn; cbn [default];
            change (socks s1) with (socks s); change (id nd) with nd; rewrite Hs; reflexivity).
    all: rewrite bind_eq, K; cbn [fst snd mmap]; rewrite bind_eq; cbn [ret fst snd];
      rewrite bind_eq, Promise_all_nothing; cbn [fst snd]; rewrite bind_eq; unfold await;
      (erewrite then_fulfilled; [|cbn [promises set_promises]; apply lookup_new|reflexivity]);
      cbn [ret fst snd]; unfold s1; cbn [new_promise fst snd queue promises set_promises];
      rewrite Hq; reflexivity. }
  rewrite E. cbn [fst snd]. erewrite tick_head by reflexivity.
  cbn [run_job resume]. unfold fulfil.
  erewrite settle_pending;
    [|cbn [promises set_promises set_queue]; apply lookup_second|reflexivity].
  cbn [fst snd]. unfold promise_state.
  cbn [promises set_promises set_queue queue trace calls nodes this_state map app].
  rewrite insert_second, lookup_second, !length_app. cbn. repeat split. lia.
Qed.

Lemma forwarding_without_outputs_witness :
  let s := set_state PROCESSED one_node in
  promise_state (tick example_components (forwardProcess (Some 0) s).2).2
    (forwardProcess (Some 0) s).1
  = Some (Fulfilled (VArr [])).
Proof.
  intros s.
  assert (this_state s <> ABORT) as Ha by discriminate.
  exact (proj1 (forwarding_without_outputs example_components 0 (example_node "num" 0 0) s
                  eq_refl eq_refl Ha eq_refl)).
Defined.


